(** * Polymarket alert service: parser and evaluation engine

    Shallow embedding of [src/polymarket-alert-workflow.ts] (the enhanced
    natural-language parser, [checkAlertCondition], [executeWorkflow]) and of
    the alert key used by [src/api.ts]; then of the rest of the service: the
    handlers of [src/api.ts], [src/x402-handler.ts], the market search, the
    keyword extraction and the parser of the first workflow.

    Modelling conventions
    - JavaScript strings are [string]s of 8-bit characters: the code units
      U+0000 to U+00FF.  [toLowerCase], [trim] and the class [\s] are those
      of ECMAScript on these characters (the capitals U+00C0 to U+00DE, the
      no-break space U+00A0); [\d], [\w] and [\b] are ASCII, as in
      ECMAScript, and so is the [i] flag on the patterns of the source,
      whose letters are ASCII.
    - JavaScript numbers are IEEE doubles ([Double], on [SpecFloat] of the
      Standard Library): the engine multiplies, compares and prints them,
      [parseInt] and the bulk prices compute with them.  A number that is
      read from text (a threshold of the parser, a JSON number of a
      request or of a market) is kept as the decimal written,
      [mantissa * 10^-scale], and becomes the nearest double where the
      engine computes with it ([Double.of_number]).
    - [state.lastChecked] is the object literal [{}]: its own properties
      are a finite map [gmap string Z], and a name that is not an own
      property is looked up in [Object.prototype], as the code does
      ([Engine.stamp], [Engine.set_lastChecked]); timestamps are integers
      in milliseconds.
    - The global [fetch] and the clock are functions of an abstract world
      state; [fetch] may change it and may fail.  So are the RPC node and the
      random bytes of the payment module; the ABI decoder of ethers and
      [JSON.parse] of the proof header are functions of their argument. *)

From Stdlib Require Import ZArith QArith Ascii String List Lia SpecFloat.
From stdpp Require Import base option list strings gmap.

Local Open Scope Z_scope.

(** ** JavaScript string primitives *)

Module JS.

Definition is_upper (c : ascii) : bool :=
  let n := nat_of_ascii c in (Nat.leb 65 n && Nat.leb n 90)%bool.

Definition is_lower (c : ascii) : bool :=
  let n := nat_of_ascii c in (Nat.leb 97 n && Nat.leb n 122)%bool.

Definition is_digit (c : ascii) : bool :=
  let n := nat_of_ascii c in (Nat.leb 48 n && Nat.leb n 57)%bool.

(** [\w] *)
Definition is_word (c : ascii) : bool :=
  (is_upper c || is_lower c || is_digit c || Ascii.eqb c "_")%bool.

(** [\s], and the characters removed by [trim] and skipped by [parseInt]:
    TAB, LF, VT, FF, CR, SP and the no-break space U+00A0. *)
Definition is_white (c : ascii) : bool :=
  let n := nat_of_ascii c in
  ((Nat.leb 9 n && Nat.leb n 13) || Nat.eqb n 32 || Nat.eqb n 160)%bool.

(** [.] matches everything but the line terminators. *)
Definition is_not_newline (c : ascii) : bool :=
  let n := nat_of_ascii c in negb (Nat.eqb n 10 || Nat.eqb n 13)%bool.

(** The capital letters above U+007F: U+00C0 to U+00DE without the
    multiplication sign U+00D7. *)
Definition is_latin_upper (c : ascii) : bool :=
  let n := nat_of_ascii c in
  (Nat.leb 192 n && Nat.leb n 222 && negb (Nat.eqb n 215))%bool.

(** [toLowerCase] on one character: a capital letter is 32 below its
    small letter. *)
Definition lower_char (c : ascii) : ascii :=
  if (is_upper c || is_latin_upper c)%bool
  then ascii_of_nat (nat_of_ascii c + 32) else c.

Fixpoint toLowerCase (s : string) : string :=
  match s with
  | EmptyString => EmptyString
  | String c t => String (lower_char c) (toLowerCase t)
  end.

Fixpoint startsWith (s p : string) {struct p} : bool :=
  match p, s with
  | EmptyString, _ => true
  | String a p', String b s' => (Ascii.eqb a b && startsWith s' p')%bool
  | String _ _, EmptyString => false
  end.

(** [s.includes(sub)] *)
Fixpoint includes (s sub : string) : bool :=
  (startsWith s sub ||
   match s with
   | EmptyString => false
   | String _ t => includes t sub
   end)%bool.

Fixpoint take (n : nat) (s : string) : string :=
  match n, s with
  | S n', String c t => String c (take n' t)
  | _, _ => EmptyString
  end.

Fixpoint trimStart (s : string) : string :=
  match s with
  | String c t => if is_white c then trimStart t else s
  | EmptyString => EmptyString
  end.

(** [trimEnd], written as a right fold: a character is dropped when it is
    white space and everything after it has been dropped. *)
Fixpoint trimEnd (s : string) : string :=
  match s with
  | EmptyString => EmptyString
  | String c t =>
      match trimEnd t with
      | EmptyString => if is_white c then EmptyString else String c EmptyString
      | t' => String c t'
      end
  end.

Definition trim (s : string) : string := trimEnd (trimStart s).

End JS.

(** ** Regular expressions

    A backtracking matcher with the priorities of ECMAScript's [RegExp]:
    alternatives left to right, greedy quantifiers longest first, lazy
    quantifiers shortest first, the leftmost start position wins.  Only the
    constructs that occur in the source are modelled. *)

Module Regex.

Inductive cclass :=
| Digit                 (* \d *)
| Word                  (* \w *)
| Space                 (* \s *)
| AnyChar               (* .  *)
| OneOf (s : string).   (* [...] *)

Inductive regex :=
| Empty
| Chr (c : ascii)
| Cls (k : cclass)
| Seq (r1 r2 : regex)
| Alt (r1 r2 : regex)
| Star (greedy : bool) (r : regex)
| Group (n : nat) (r : regex)        (* capturing group number n *)
| WordBoundary.                      (* \b *)

(** [r+], [r+?], [r?] and literal words. *)
Definition Plus (greedy : bool) (r : regex) : regex := Seq r (Star greedy r).
Definition Opt (r : regex) : regex := Alt r Empty.

Fixpoint Lit (s : string) : regex :=
  match s with
  | EmptyString => Empty
  | String c EmptyString => Chr c
  | String c t => Seq (Chr c) (Lit t)
  end.

Fixpoint Seqs (rs : list regex) : regex :=
  match rs with
  | [] => Empty
  | [r] => r
  | r :: rs' => Seq r (Seqs rs')
  end.

Fixpoint Alts (rs : list regex) : regex :=
  match rs with
  | [] => Empty
  | [r] => r
  | r :: rs' => Alt r (Alts rs')
  end.

Fixpoint mem_char (c : ascii) (s : string) : bool :=
  match s with
  | EmptyString => false
  | String a t => (Ascii.eqb a c || mem_char c t)%bool
  end.

Definition in_class (k : cclass) (c : ascii) : bool :=
  match k with
  | Digit => JS.is_digit c
  | Word => JS.is_word c
  | Space => JS.is_white c
  | AnyChar => JS.is_not_newline c
  | OneOf s => mem_char c s
  end.

(** Literal comparison; with the [i] flag both sides are case-folded. *)
Definition char_matches (ignoreCase : bool) (c x : ascii) : bool :=
  if ignoreCase then Ascii.eqb (JS.lower_char c) (JS.lower_char x)
  else Ascii.eqb c x.

(** Matcher state: the character before the current position (for [\b]),
    the input still to read, and the captures so far (latest first). *)
Record mstate := MState {
  prev : option ascii;
  rest : string;
  caps : list (nat * string)
}.

Definition remaining (s : mstate) : nat := String.length (rest s).

Definition is_word_opt (c : option ascii) : bool :=
  match c with Some x => JS.is_word x | None => false end.

Definition next_char (s : mstate) : option ascii :=
  match rest s with String c _ => Some c | EmptyString => None end.

Definition at_boundary (s : mstate) : bool :=
  xorb (is_word_opt (prev s)) (is_word_opt (next_char s)).

(** The text read between state [s] and a later state [s']. *)
Definition consumed (s s' : mstate) : string :=
  JS.take (remaining s - remaining s') (rest s).

Definition set_cap (n : nat) (v : string) (s : mstate) : mstate :=
  MState (prev s) (rest s) ((n, v) :: caps s).

Definition step_char (ok : ascii -> bool) (k : mstate -> option mstate)
    (s : mstate) : option mstate :=
  match rest s with
  | String x t => if ok x then k (MState (Some x) t (caps s)) else None
  | EmptyString => None
  end.

(** The loop of a quantifier [r*] (greedy) or [r*?] (lazy): [body] matches
    one iteration of [r].  An iteration that reads nothing is rejected, as
    in ECMAScript, so the number of characters left bounds the number of
    iterations. *)
Fixpoint star_loop (body : (mstate -> option mstate) -> mstate -> option mstate)
    (greedy : bool) (k : mstate -> option mstate) (fuel : nat) (s : mstate)
    : option mstate :=
  match fuel with
  | O => k s
  | S fuel' =>
      let next s1 :=
        if (remaining s1 <? remaining s)%nat
        then star_loop body greedy k fuel' s1 else None in
      if greedy then
        match body next s with
        | Some res => Some res
        | None => k s
        end
      else
        match k s with
        | Some res => Some res
        | None => body next s
        end
  end.

(** [rmatch ic r k s]: match [r] at [s], then continue with [k]; the first
    success in priority order is returned. *)
Fixpoint rmatch (ic : bool) (r : regex) (k : mstate -> option mstate)
    (s : mstate) {struct r} : option mstate :=
  match r with
  | Empty => k s
  | Chr c => step_char (char_matches ic c) k s
  | Cls cl => step_char (in_class cl) k s
  | Seq r1 r2 => rmatch ic r1 (fun s1 => rmatch ic r2 k s1) s
  | Alt r1 r2 =>
      match rmatch ic r1 k s with
      | Some res => Some res
      | None => rmatch ic r2 k s
      end
  | Group n r1 => rmatch ic r1 (fun s1 => k (set_cap n (consumed s s1) s1)) s
  | WordBoundary => if at_boundary s then k s else None
  | Star greedy r1 => star_loop (rmatch ic r1) greedy k (remaining s) s
  end.

(** A compiled pattern: the expression, its [i] flag, and its [source]
    text (read by [extractPercentage]). *)
Record pattern := Pattern {
  body : regex;
  ignoreCase : bool;
  source : string
}.

(** Result of a successful match: where it starts, what it covers, the
    captures, and the input after it. *)
Record match_result := MatchResult {
  index : nat;
  matched : string;
  groups : list (nat * string);
  after : string
}.

(** Try to match at exactly this position (a sticky match). *)
Definition match_at (p : pattern) (before : option ascii) (s : string)
    (i : nat) : option match_result :=
  let s0 := MState before s [] in
  match rmatch (ignoreCase p) (body p) Some s0 with
  | Some s1 => Some (MatchResult i (consumed s0 s1) (caps s1) (rest s1))
  | None => None
  end.

(** Leftmost match at or after this position. *)
Fixpoint search_from (p : pattern) (before : option ascii) (s : string)
    (i : nat) : option match_result :=
  match match_at p before s i with
  | Some m => Some m
  | None =>
      match s with
      | EmptyString => None
      | String c t => search_from p (Some c) t (S i)
      end
  end.

(** [text.match(p)] for a pattern without the [g] flag. *)
Definition exec (p : pattern) (text : string) : option match_result :=
  search_from p None text 0.

(** [p.test(text)] *)
Definition test (p : pattern) (text : string) : bool :=
  match exec p text with Some _ => true | None => false end.

(** [m[n]]; the groups read by the source always take part in the match. *)
Fixpoint assoc (n : nat) (l : list (nat * string)) : option string :=
  match l with
  | [] => None
  | (i, v) :: l' => if Nat.eqb i n then Some v else assoc n l'
  end.

Definition group (n : nat) (m : match_result) : string :=
  match assoc n (groups m) with Some v => v | None => EmptyString end.

Fixpoint last_char (d : option ascii) (s : string) : option ascii :=
  match s with
  | EmptyString => d
  | String c t => last_char (Some c) t
  end.

(** [text.split(p)] for a pattern without capturing groups and without a
    limit.  [piece] is the text from the start of the current piece and [n]
    the number of its characters passed so far, so that [s] is [piece]
    without its first [n] characters.  A match that is empty and sits at the
    start of the current piece does not split. *)
Fixpoint split_loop (fuel : nat) (p : pattern) (before : option ascii)
    (s : string) (piece : string) (n : nat) : list string :=
  match s, fuel with
  | EmptyString, _ => [piece]
  | String c t, O => [piece]
  | String c t, S fuel' =>
      match match_at p before s 0 with
      | Some m =>
          match matched m, n with
          | EmptyString, O => split_loop fuel' p (Some c) t piece (S n)
          | EmptyString, S _ =>
              JS.take n piece :: split_loop fuel' p (Some c) t s 1
          | String _ _, _ =>
              JS.take n piece ::
                split_loop fuel' p (last_char before (matched m))
                  (after m) (after m) 0
          end
      | None => split_loop fuel' p (Some c) t piece (S n)
      end
  end.

Definition split (p : pattern) (text : string) : list string :=
  match text with
  | EmptyString =>
      match match_at p None EmptyString 0 with
      | Some _ => []
      | None => [EmptyString]
      end
  | _ => split_loop (String.length text) p None text text 0
  end.

(** The words a regular expression can read, whatever the context:
    [\b] reads nothing, a group reads what its body reads. *)
Inductive lang (ic : bool) : regex -> string -> Prop :=
| lang_empty : lang ic Empty EmptyString
| lang_chr c x :
    char_matches ic c x = true -> lang ic (Chr c) (String x EmptyString)
| lang_cls k x :
    in_class k x = true -> lang ic (Cls k) (String x EmptyString)
| lang_seq r1 r2 w1 w2 :
    lang ic r1 w1 -> lang ic r2 w2 -> lang ic (Seq r1 r2) (String.append w1 w2)
| lang_alt_l r1 r2 w : lang ic r1 w -> lang ic (Alt r1 r2) w
| lang_alt_r r1 r2 w : lang ic r2 w -> lang ic (Alt r1 r2) w
| lang_star_nil g r : lang ic (Star g r) EmptyString
| lang_star_app g r w1 w2 :
    lang ic r w1 -> lang ic (Star g r) w2 ->
    lang ic (Star g r) (String.append w1 w2)
| lang_group n r w : lang ic r w -> lang ic (Group n r) w
| lang_boundary : lang ic WordBoundary EmptyString.

(** A matcher for [r] is sound when every success reads a word of [r]. *)
Definition sound_on (ic : bool) (r : regex)
    (m : (mstate -> option mstate) -> mstate -> option mstate) : Prop :=
  forall k s res,
    m k s = Some res ->
    exists w s',
      rest s = String.append w (rest s') /\ lang ic r w /\ k s' = Some res.

(** The result depends on the continuation only through its values. *)
Definition extensional
    (m : (mstate -> option mstate) -> mstate -> option mstate) : Prop :=
  forall k1 k2, (forall s, k1 s = k2 s) -> forall s, m k1 s = m k2 s.

(** [w] occurs in [s]. *)
Definition occurs (w s : string) : Prop :=
  exists pre post, s = String.append pre (String.append w post).

End Regex.

(** ** Numbers *)

(** A number is [mantissa * 10^-scale]. *)
Record number := Num { mantissa : Z; scale : nat }.

Definition pow10 (n : nat) : Z := 10 ^ Z.of_nat n.

Definition toQ (x : number) : Q := Qmake (mantissa x) (Z.to_pos (pow10 (scale x))).

(** Numeric equality and order ([===], [<=], [>=] on numbers). *)
Definition num_eq (a b : number) : Prop :=
  mantissa a * pow10 (scale b) = mantissa b * pow10 (scale a).

Definition num_leb (a b : number) : bool :=
  mantissa a * pow10 (scale b) <=? mantissa b * pow10 (scale a).

Definition num_geb (a b : number) : bool := num_leb b a.

Definition num_mul (a b : number) : number :=
  Num (mantissa a * mantissa b) (scale a + scale b).

Definition num_of_Z (z : Z) : number := Num z 0.

(** Decimal digits of a natural number, most significant first. *)
Definition digit_char (d : Z) : ascii := ascii_of_nat (Z.to_nat (48 + d)).

Fixpoint digits_aux (fuel : nat) (n : Z) (acc : string) : string :=
  let acc' := String (digit_char (n mod 10)) acc in
  match fuel with
  | O => acc'
  | S fuel' => if n <? 10 then acc' else digits_aux fuel' (n / 10) acc'
  end.

Definition digits_of (n : Z) : string :=
  digits_aux (Z.to_nat (Z.log2 n)) n EmptyString.

Definition digit_value (c : ascii) : Z := Z.of_nat (nat_of_ascii c) - 48.

Fixpoint digits_value (acc : Z) (s : string) : Z :=
  match s with
  | EmptyString => acc
  | String c t => digits_value (acc * 10 + digit_value c) t
  end.

(** The longest prefix of decimal digits, and what follows it. *)
Fixpoint span_digits (s : string) : string * string :=
  match s with
  | String c t =>
      if JS.is_digit c then let '(d, r) := span_digits t in (String c d, r)
      else (EmptyString, s)
  | EmptyString => (EmptyString, EmptyString)
  end.

(** [parseFloat] on unsigned decimal literals [digits], [digits.digits] and
    [.digits], the only operands the parser passes (its captures are
    [\d+(?:\.\d+)?] or [\d+]); characters after the literal are ignored.
    [None] stands for NaN. *)
Definition parseFloat (s : string) : option number :=
  let '(ip, r) := span_digits s in
  let fp := match r with
            | String "." r' => fst (span_digits r')
            | _ => EmptyString
            end in
  match ip, fp with
  | EmptyString, EmptyString => None
  | _, _ => Some (Num (digits_value 0 (String.append ip fp)) (String.length fp))
  end.

Fixpoint zeros (n : nat) : string :=
  match n with O => EmptyString | S n' => String "0" (zeros n') end.

Fixpoint drop (n : nat) (s : string) : string :=
  match n, s with
  | S n', String _ t => drop n' t
  | _, _ => s
  end.

(** Remove the zeros at the end of a digit string. *)
Fixpoint strip_zeros (s : string) : string :=
  match s with
  | EmptyString => EmptyString
  | String c t =>
      match strip_zeros t with
      | EmptyString => if Ascii.eqb c "0" then EmptyString else String c EmptyString
      | t' => String c t'
      end
  end.

(** [Number::toString] in radix 10: [ds] are the [k] significant digits and
    the value is [0.ds * 10^n]. *)
Definition render (ds : string) (n : Z) : string :=
  let k := Z.of_nat (String.length ds) in
  if (k <=? n) && (n <=? 21) then
    String.append ds (zeros (Z.to_nat (n - k)))
  else if (0 <? n) && (n <=? 21) then
    String.append (JS.take (Z.to_nat n) ds)
      (String "." (drop (Z.to_nat n) ds))
  else if (-6 <? n) && (n <=? 0) then
    String.append "0." (String.append (zeros (Z.to_nat (- n))) ds)
  else
    let e := n - 1 in
    let es := String.append (if e <? 0 then "-" else "+") (digits_of (Z.abs e)) in
    match ds with
    | String d EmptyString => String d (String "e" es)
    | String d r => String d (String "." (String.append r (String "e" es)))
    | EmptyString => EmptyString
    end.

Definition Number_toString (x : number) : string :=
  if mantissa x =? 0 then "0"
  else
    let all := digits_of (Z.abs (mantissa x)) in
    let body := render (strip_zeros all)
                  (Z.of_nat (String.length all) - Z.of_nat (scale x)) in
    if mantissa x <? 0 then String "-" body else body.

(** [x.toFixed(f)] for [|x| < 10^21]: round half up on the magnitude, then
    place the point before the last [f] digits. *)
Definition toFixed (f : nat) (x : number) : string :=
  let n := (2 * Z.abs (mantissa x) * pow10 f + pow10 (scale x))
             / (2 * pow10 (scale x)) in
  let m := digits_of n in
  let m := String.append (zeros (S f - String.length m)) m in
  let k := String.length m in
  let body :=
    match f with
    | O => m
    | _ => String.append (JS.take (k - f) m) (String "." (drop (k - f) m))
    end in
  if mantissa x <? 0 then String "-" body else body.

(** *** Reading a printed number back

    [decode] recovers the significant digits and the position of the point
    from the text that [render] prints; it is used to show that numbers
    that print alike are equal. *)

Fixpoint all_digits (s : string) : bool :=
  match s with
  | EmptyString => true
  | String c t => JS.is_digit c && all_digits t
  end.

Definition head_nonzero (s : string) : bool :=
  match s with
  | String c _ => negb (Ascii.eqb c "0")
  | EmptyString => false
  end.












(** ** IEEE 754 doubles

    The Number type of JavaScript, on the specification of binary64 in
    the Standard Library ([SpecFloat], taken from Flocq): round to
    nearest, ties to even. *)

Module Double.

Definition prec : Z := 53.
Definition emax : Z := 1024.

Definition t : Type := spec_float.

Definition zero : t := S754_zero false.
Definition nan : t := S754_nan.

(** The Number value for an integer. *)
Definition of_Z (z : Z) : t := binary_normalize prec emax z 0 false.

(** The Number value for a decimal: what a numeric literal, [JSON.parse]
    and [parseFloat] give for the digits [mantissa] with the point
    [scale] places from the right. *)
Definition of_number (x : number) : t :=
  let ten := S754_finite false (Z.to_pos (pow10 (scale x))) 0 in
  match mantissa x with
  | Z0 => zero
  | Zpos m => SFdiv prec emax (S754_finite false m 0) ten
  | Zneg m => SFdiv prec emax (S754_finite true m 0) ten
  end.

Definition mul : t -> t -> t := SFmul prec emax.
Definition div : t -> t -> t := SFdiv prec emax.
Definition sub : t -> t -> t := SFsub prec emax.

(** [x <= y], [x >= y], [x < y]: false when either side is NaN. *)
Definition leb : t -> t -> bool := SFleb.
Definition geb (x y : t) : bool := SFleb y x.
Definition ltb : t -> t -> bool := SFltb.

Definition is_nan (x : t) : bool :=
  match x with S754_nan => true | _ => false end.

(** [x || 0] on a number: NaN and the zeros are falsy. *)
Definition or_zero (x : t) : t :=
  match x with
  | S754_nan | S754_zero _ => zero
  | _ => x
  end.

(** The value of a finite double, as the fraction [fst / snd] of its
    magnitude. *)
Definition fraction (m : positive) (e : Z) : Z * Z :=
  if 0 <=? e then (Zpos m * 2 ^ e, 1) else (Zpos m, 2 ^ (- e)).

(** The exact decimal expansion of a finite double. *)
Definition to_number (x : t) : option number :=
  match x with
  | S754_zero _ => Some (Num 0 0)
  | S754_finite s m e =>
      let z := if s then Zneg m else Zpos m in
      Some (if 0 <=? e then Num (z * 2 ^ e) 0
            else Num (z * 5 ^ (- e)) (Z.to_nat (- e)))
  | _ => None
  end.

(** The [n] with [10^(n-1) <= num/den < 10^n]. *)
Fixpoint small_exponent (fuel : nat) (num den : Z) (n : Z) : Z :=
  match fuel with
  | O => n
  | S fuel' =>
      if den <=? num * 10 then n
      else small_exponent fuel' (num * 10) den (n - 1)
  end.

Definition decimal_exponent (num den : Z) : Z :=
  if den <=? num then Z.of_nat (String.length (digits_of (num / den)))
  else small_exponent 400 num den 0.

(** [s * 10^j] as a double. *)
Definition of_scaled (s j : Z) : t :=
  if 0 <=? j then of_Z (s * 10 ^ j) else of_number (Num s (Z.to_nat (- j))).

(** [floor (num/den * 10^j)] *)
Definition floor_scaled (num den j : Z) : Z :=
  if 0 <=? j then (num * 10 ^ j) / den else num / (den * 10 ^ (- j)).

(** [Number::toString] looks for the least number [k] of digits [s] such
    that [s * 10^(n-k)] reads back as the double; of two candidates the
    one closer to the double is taken, the even one when they are as
    close.  [digits_from] tries [k], [k+1], ...; it answers the digits
    and [n]. *)
Fixpoint digits_from (fuel : nat) (x : t) (num den n k : Z) : Z * Z :=
  let lo := floor_scaled num den (k - n) in
  let hi := lo + 1 in
  let back s := match SFcompare (of_scaled s (n - k)) x with
                | Some Eq => true
                | _ => false
                end in
  (* twice the distance of [num/den * 10^(k-n)] to [lo], against 1 *)
  let closer_to_hi :=
    let '(a, b) := if 0 <=? k - n then (num * 10 ^ (k - n), den)
                   else (num, den * 10 ^ (n - k)) in
    match Z.compare (2 * (a - lo * b)) b with
    | Gt => true
    | Lt => false
    | Eq => Z.odd lo
    end in
  let pick s := if s =? 10 ^ k then (10 ^ (k - 1), n + 1) else (s, n) in
  match back lo, back hi with
  | true, true => pick (if closer_to_hi then hi else lo)
  | true, false => pick lo
  | false, true => pick hi
  | false, false =>
      match fuel with
      | O => (lo, n)
      | S fuel' => digits_from fuel' x num den n (k + 1)
      end
  end.

(** [Number::toString(x)] in radix 10 *)
Definition toString (x : t) : string :=
  match x with
  | S754_nan => "NaN"
  | S754_infinity s => if s then "-Infinity" else "Infinity"
  | S754_zero _ => "0"
  | S754_finite s m e =>
      let '(num, den) := fraction m e in
      let n := decimal_exponent num den in
      let '(digits, n') :=
        digits_from 17 (S754_finite false m e) num den n 1 in
      let body := render (strip_zeros (digits_of digits)) n' in
      if s then String "-" body else body
  end%string.

(** [x.toFixed(f)]: the digits of the exact value, rounded half up on the
    magnitude; from [10^21] on, and for NaN and the infinities, the text
    of [toString]. *)
Definition toFixed (f : nat) (x : t) : string :=
  match to_number x with
  | Some v =>
      if 10 ^ 21 * pow10 (scale v) <=? Z.abs (mantissa v) then toString x
      else toFixed f v
  | None => toString x
  end.

End Double.

(** ** Data model *)

Inductive Direction := above | below.

Module PolymarketToken.
Record t := mk {
  token_id : string;
  outcome : string;
  price : number;
  winner : option bool
}.
End PolymarketToken.

Record PolymarketMarket := {
  condition_id : string;
  question : string;
  outcomes : list string;
  tokens : list PolymarketToken.t;
  active : bool;
  closed : bool;
  volume : option number
}.

Record AlertConfig := {
  marketId : string;
  outcome : string;          (* "Yes" or "No" *)
  threshold : number;        (* 0-100 representing percentage *)
  direction : Direction;
  notifyUrl : string
}.

Record WorkflowState := {
  alertConfigs : list AlertConfig;
  lastChecked : gmap string Z;        (* marketId -> timestamp *)
  triggeredAlerts : list string       (* already sent alerts *)
}.

Definition direction_text (d : Direction) : string :=
  match d with above => "above" | below => "below" end.

(** ** Parser *)

Module Parser.
Import Regex.
Local Open Scope string_scope.

Definition ABOVE_KEYWORDS : list string :=
  ["exceed"; "exceeds"; "above"; "over"; "greater than"; "more than";
   "reaches"; "hits"; "gets to"; "goes above"; "rises to"; "climbs to";
   "surpasses"; "passes"; "breaks"; "tops"; ">"].

Definition BELOW_KEYWORDS : list string :=
  ["fall below"; "below"; "under"; "less than"; "drops to"; "drops below";
   "falls to"; "falls under"; "dips to"; "dips below"; "sinks to";
   "declines to"; "<"].

Definition YES_KEYWORDS : list string :=
  ["yes"; "true"; "will"; "pass"; "approve"; "win"; "happen"].

Definition NO_KEYWORDS : list string :=
  ["no"; "false"; "won't"; "fail"; "reject"; "lose"; "doesn't"].

Definition detectDirection (text : string) : option Direction :=
  let lower := JS.toLowerCase text in
  if existsb (JS.includes lower) BELOW_KEYWORDS then Some below
  else if existsb (JS.includes lower) ABOVE_KEYWORDS then Some above
  else None.

Definition dquote : ascii := ascii_of_nat 34.
Definition squote : ascii := ascii_of_nat 39.

Definition spaces1 : regex := Plus true (Cls Space).   (* \s+ *)
Definition spaces0 : regex := Star true (Cls Space).   (* \s* *)
Definition digits1 : regex := Plus true (Cls Digit).   (* \d+ *)

(** [/\b(no outcome|"no"|'no'|\bno\b(?:\s+option|\s+side)?)/i] *)
Definition explicitNo : pattern :=
  Pattern
    (Seq WordBoundary
       (Group 1
          (Alts [Lit "no outcome";
                 Seqs [Chr dquote; Lit "no"; Chr dquote];
                 Seqs [Chr squote; Lit "no"; Chr squote];
                 Seqs [WordBoundary; Lit "no"; WordBoundary;
                       Opt (Alt (Seq spaces1 (Lit "option"))
                                (Seq spaces1 (Lit "side")))]])))
    true
    (String.append "\b(no outcome|"
       (String dquote (String.append "no"
          (String dquote "|'no'|\bno\b(?:\s+option|\s+side)?)")))).

Definition detectOutcome (text : string) : string :=
  let lower := JS.toLowerCase text in
  if test explicitNo text then "No"
  else if existsb (JS.includes lower) NO_KEYWORDS then "No"
  else "Yes".

(** [(\d+(?:\.\d+)?)] as capturing group [n] *)
Definition decimal (n : nat) : regex :=
  Group n (Seq digits1 (Opt (Seq (Chr ".") digits1))).

(** [(%|percent|cents?)?] as capturing group [n] *)
Definition unit_opt (n : nat) : regex :=
  Opt (Group n (Alts [Lit "%"; Lit "percent"; Seq (Lit "cent") (Opt (Chr "s"))])).

Definition percentage_patterns : list pattern :=
  [ Pattern (Seqs [decimal 1; spaces0; Lit "%"]) false
      "(\d+(?:\.\d+)?)\s*%";
    Pattern (Seqs [decimal 1; spaces0; Lit "percent"]) true
      "(\d+(?:\.\d+)?)\s*percent";
    Pattern (Seqs [decimal 1; spaces0; Lit "cent"; Opt (Chr "s")]) true
      "(\d+(?:\.\d+)?)\s*cents?";
    Pattern (Seqs [Lit "0."; Group 1 digits1]) false
      "0\.(\d+)";
    Pattern (Seqs [Chr "."; Group 1 digits1]) false
      "\.(\d+)" ].

Fixpoint extractPercentage_loop (patterns : list pattern) (text : string)
    : option number :=
  match patterns with
  | [] => None
  | pat :: patterns' =>
      match exec pat text with
      | Some m =>
          match parseFloat (group 1 m) with
          | Some value =>
              (* "cents" format (70 cents = 70%) *)
              if JS.includes (source pat) "cents" then Some value
              (* decimal format (0.60 = 60%) *)
              else if JS.includes (source pat) "0\." then
                Some (num_mul value (num_of_Z 100))
              else Some value
          | None => None
          end
      | None => extractPercentage_loop patterns' text
      end
  end.

Definition extractPercentage (text : string) : option number :=
  extractPercentage_loop percentage_patterns text.

(** [Partial<AlertConfig>] as built by the extractors. *)
Record PartialConfig := {
  p_threshold : option number;
  p_direction : option Direction;
  p_outcome : string
}.

Record ParsePattern := {
  regex_of : pattern;
  extractor : match_result -> PartialConfig
}.

Definition when_if_once : regex := Alts [Lit "when"; Lit "if"; Lit "once"].
Definition subject : regex := Group 1 (Plus false (Cls AnyChar)).   (* (.+?) *)
Definition s_opt (w : string) : regex := Seq (Lit w) (Opt (Chr "s")).

Definition patterns : list ParsePattern :=
  [ (* Pattern 1: "when X odds/probability/chance exceed/above Y%" *)
    {| regex_of :=
         Pattern
           (Seqs [when_if_once; spaces1; subject; spaces1;
                  Alts [s_opt "odd"; Lit "probability"; Lit "chance";
                        Lit "likelihood"];
                  spaces1;
                  Opt (Seq (Lit "to") spaces1);
                  Group 2 (Seq (Plus true (Cls Word))
                             (Star true (Seq spaces1 (Plus true (Cls Word)))));
                  spaces1; decimal 3; spaces0; unit_opt 4])
           true
           "(?:when|if|once)\s+(.+?)\s+(?:odds?|probability|chance|likelihood)\s+(?:to\s+)?(\w+(?:\s+\w+)*)\s+(\d+(?:\.\d+)?)\s*(%|percent|cents?)?";
       extractor := fun m =>
         {| p_threshold := parseFloat (group 3 m);
            p_direction := detectDirection (group 2 m);
            p_outcome := detectOutcome (group 1 m) |} |};
    (* Pattern 2: "when X exceeds/drops below Y%" *)
    {| regex_of :=
         Pattern
           (Seqs [when_if_once; spaces1; subject; spaces1;
                  Group 2
                    (Alts [s_opt "exceed";
                           Seqs [s_opt "goe"; spaces1; Lit "above"];
                           Seqs [s_opt "rise"; spaces1; Lit "to"];
                           Seqs [s_opt "drop"; spaces1;
                                 Alt (Lit "to") (Lit "below")];
                           Seqs [s_opt "fall"; spaces1;
                                 Alt (Lit "to") (Lit "below")];
                           Seqs [s_opt "goe"; spaces1; Lit "below"]]);
                  spaces1; decimal 3; spaces0; unit_opt 4])
           true
           "(?:when|if|once)\s+(.+?)\s+(exceeds?|goes?\s+above|rises?\s+to|drops?\s+(?:to|below)|falls?\s+(?:to|below)|goes?\s+below)\s+(\d+(?:\.\d+)?)\s*(%|percent|cents?)?";
       extractor := fun m =>
         {| p_threshold := parseFloat (group 3 m);
            p_direction := detectDirection (group 2 m);
            p_outcome := detectOutcome (group 1 m) |} |};
    (* Pattern 3: "X > Y%" or "X < Y%" *)
    {| regex_of :=
         Pattern
           (Seqs [subject; spaces0; Group 2 (Cls (OneOf "<>")); spaces0;
                  decimal 3; spaces0; unit_opt 4])
           false
           "(.+?)\s*([<>])\s*(\d+(?:\.\d+)?)\s*(%|percent|cents?)?";
       extractor := fun m =>
         {| p_threshold := parseFloat (group 3 m);
            p_direction :=
              Some (if String.eqb (group 2 m) ">" then above else below);
            p_outcome := detectOutcome (group 1 m) |} |};
    (* Pattern 4: Simple "X hits Y%" *)
    {| regex_of :=
         Pattern
           (Seqs [subject; spaces1;
                  Group 2 (Alts [s_opt "hit";
                                 s_opt "reache";
                                 Lit "at"; Lit "to"]);
                  spaces1; decimal 3; spaces0; unit_opt 4])
           true
           "(.+?)\s+(hits?|reaches?|at|to)\s+(\d+(?:\.\d+)?)\s*(%|percent|cents?)?";
       extractor := fun m =>
         {| p_threshold := parseFloat (group 3 m);
            p_direction := Some above;
            p_outcome := detectOutcome (group 1 m) |} |} ].

(** [a || b] on strings: the empty string is falsy. *)
Definition or_string (a b : string) : string :=
  match a with EmptyString => b | _ => a end.

(** The loop over [patterns]: the first pattern that matches and whose
    extractor yields both a threshold and a direction wins. *)
Fixpoint parse_loop (ps : list ParsePattern) (request notifyUrl : string)
    : option AlertConfig :=
  match ps with
  | [] => None
  | pp :: ps' =>
      match exec (regex_of pp) request with
      | Some m =>
          let parsed := extractor pp m in
          match p_threshold parsed, p_direction parsed with
          | Some th, Some dir =>
              Some {| marketId := "";   (* resolved via market search *)
                      outcome := or_string (p_outcome parsed) "Yes";
                      threshold := th;
                      direction := dir;
                      notifyUrl := notifyUrl |}
          | _, _ => parse_loop ps' request notifyUrl
          end
      | None => parse_loop ps' request notifyUrl
      end
  end.

Definition parseAlertRequest (request notifyUrl : string) : option AlertConfig :=
  match parse_loop patterns request notifyUrl with
  | Some config => Some config
  | None =>
      (* Fallback: extract what we can *)
      match extractPercentage request, detectDirection request with
      | Some percentage, Some dir =>
          Some {| marketId := "";
                  outcome := detectOutcome request;
                  threshold := percentage;
                  direction := dir;
                  notifyUrl := notifyUrl |}
      | _, _ => None
      end
  end.

(** [/\s+(?:and|or|,|&|\|)\s+/i] *)
Definition conjunction : pattern :=
  Pattern
    (Seqs [spaces1; Alts [Lit "and"; Lit "or"; Lit ","; Lit "&"; Lit "|"];
           spaces1])
    true
    "\s+(?:and|or|,|&|\|)\s+".

Definition parseMultiConditionAlert (request notifyUrl : string)
    : list AlertConfig :=
  let parts := split conjunction request in
  fold_left
    (fun results part =>
       match parseAlertRequest (JS.trim part) notifyUrl with
       | Some parsed => (results ++ [parsed])%list
       | None => results
       end)
    parts [].

(** *** Vocabulary for the properties of the parser *)

(** A negative-sentiment cue: a word of [NO_KEYWORDS] occurs in the text,
    whatever the case of the text. *)
Definition has_negative_cue (text : string) : Prop :=
  exists kw, In kw NO_KEYWORDS /\ occurs kw (JS.toLowerCase text).

Definition not_word (c : option ascii) : Prop := is_word_opt c = false.

Definition first_char (s : string) : option ascii :=
  match s with String c _ => Some c | EmptyString => None end.

(** An explicit mention of the label: "no" in any case, as a word of its
    own (hence also when quoted). *)
Definition explicit_no (text : string) : Prop :=
  exists pre w post,
    text = String.append pre (String.append w post) /\
    JS.toLowerCase w = "no" /\
    not_word (last_char None pre) /\ not_word (first_char post).

(** A run of white space. *)
Fixpoint all_white (s : string) : bool :=
  match s with
  | EmptyString => true
  | String c t => JS.is_white c && all_white t
  end.

Definition DELIMITERS : list string := ["and"; "or"; ","; "&"; "|"].

(** What [split] takes for a delimiter: one of the five words, in any
    case, with white space before it and after it. *)
Definition delimiter (w : string) : Prop :=
  exists a d b,
    w = String.append a (String.append d b) /\
    a <> "" /\ all_white a = true /\
    b <> "" /\ all_white b = true /\
    In (JS.toLowerCase d) DELIMITERS.

(** The conditions of a result, without the webhook. *)
Definition summary (c : AlertConfig) : string * Direction * string :=
  (outcome c, direction c, Number_toString (threshold c)).

(** The threshold parsed from a request, as text. *)
Definition threshold_of (request : string) : option string :=
  option_map (fun c => Number_toString (threshold c))
    (parseAlertRequest request "").

Definition option_to_list {A} (o : option A) : list A :=
  match o with Some x => [x] | None => [] end.

(** Keep the results that are defined, in order. *)
Fixpoint filter_map {A B} (f : A -> option B) (l : list A) : list B :=
  match l with
  | [] => []
  | x :: l' =>
      match f x with
      | Some y => y :: filter_map f l'
      | None => filter_map f l'
      end
  end.

End Parser.

(** ** Evaluation engine *)

Module Engine.
Local Open Scope string_scope.

(** [t.outcome.toLowerCase() === config.outcome.toLowerCase()] *)
Definition same_outcome (config : AlertConfig) (t : PolymarketToken.t) : bool :=
  String.eqb (JS.toLowerCase (PolymarketToken.outcome t))
             (JS.toLowerCase (outcome config)).

Definition find_token (market : PolymarketMarket) (config : AlertConfig)
    : option PolymarketToken.t :=
  List.find (same_outcome config) (tokens market).

(** The numbers of a market and of an alert are the doubles that their
    decimals denote; the product and the comparisons are those of
    doubles. *)
Definition checkAlertCondition (market : PolymarketMarket) (config : AlertConfig)
    : bool :=
  match find_token market config with
  | None => false
  | Some token =>
      (* convert to percentage *)
      let currentPrice :=
        Double.mul (Double.of_number (PolymarketToken.price token))
          (Double.of_Z 100) in
      match direction config with
      | above => Double.geb currentPrice (Double.of_number (threshold config))
      | below => Double.leb currentPrice (Double.of_number (threshold config))
      end
  end.

(** What [find] returns: the first token whose label is the outcome of
    the condition, whatever the case. *)
Definition first_match (market : PolymarketMarket) (config : AlertConfig)
    (token : PolymarketToken.t) : Prop :=
  exists before after,
    tokens market = (before ++ token :: after)%list /\
    (forall t, In t before ->
       JS.toLowerCase (PolymarketToken.outcome t)
         <> JS.toLowerCase (outcome config)) /\
    JS.toLowerCase (PolymarketToken.outcome token)
      = JS.toLowerCase (outcome config).

(** [token.price * 100] *)
Definition percentage (token : PolymarketToken.t) : Double.t :=
  Double.mul (Double.of_number (PolymarketToken.price token)) (Double.of_Z 100).

(** [`${config.marketId}-${config.outcome}-${config.threshold}-${config.direction}`],
    the key of [executeWorkflow] and of the [GET /alerts] handler. *)
Definition alertKey (config : AlertConfig) : string :=
  marketId config ++ "-" ++ outcome config ++ "-"
    ++ Number_toString (threshold config) ++ "-"
    ++ direction_text (direction config).

(** The [triggered] flag reported by [GET /alerts]. *)
Definition triggered (state : WorkflowState) (config : AlertConfig) : bool :=
  bool_decide (alertKey config ∈ triggeredAlerts state).



(** [(token?.price || 0) * 100] *)
Definition currentPrice_of (token : option PolymarketToken.t) : Double.t :=
  Double.mul (match token with
              | Some t =>
                  Double.or_zero (Double.of_number (PolymarketToken.price t))
              | None => Double.zero
              end) (Double.of_Z 100).

Definition alert_text (market : PolymarketMarket) (config : AlertConfig)
    (currentPrice : Double.t) : string :=
  "Alert triggered: " ++ question market ++ " - " ++ outcome config
    ++ " at " ++ Double.toFixed 1 currentPrice ++ "%".

(** [state.lastChecked] is an object literal, and [lastChecked] holds its
    own properties.  A name that is not an own property is looked up in
    [Object.prototype], which has these members: functions, and the
    accessor [__proto__]. *)
Definition Object_prototype : list string :=
  ["constructor"; "__defineGetter__"; "__defineSetter__"; "hasOwnProperty";
   "__lookupGetter__"; "__lookupSetter__"; "isPrototypeOf";
   "propertyIsEnumerable"; "toString"; "valueOf"; "__proto__";
   "toLocaleString"].

(** [state.lastChecked[id] || 0] as a number: the own property, 0 for a
    name that is not found, and no number ([None]) for a member of
    [Object.prototype], a function or an object. *)
Definition stamp (state : WorkflowState) (id : string) : option Z :=
  match lastChecked state !! id with
  | Some t => Some t
  | None => if bool_decide (id ∈ Object_prototype) then None else Some 0
  end.

(** [now - lastChecked < 60000]: the difference with a function or an
    object is NaN, and the comparison is false. *)
Definition rate_limited (now : Z) (state : WorkflowState) (id : string)
    : bool :=
  match stamp state id with
  | Some t => (now - t <? 60000)%Z
  | None => false
  end.

(** [state.lastChecked[id] = now] adds or changes an own property, except
    for the name [__proto__] when it is not an own property: the
    assignment then calls the setter of [Object.prototype], which ignores
    a number. *)
Definition set_lastChecked (state : WorkflowState) (id : string) (now : Z)
    : WorkflowState :=
  if bool_decide (id = "__proto__" /\ lastChecked state !! id = None)
  then state
  else {| alertConfigs := alertConfigs state;
          lastChecked := <[id := now]> (lastChecked state);
          triggeredAlerts := triggeredAlerts state |}.

Definition push_triggered (state : WorkflowState) (key : string)
    : WorkflowState :=
  {| alertConfigs := alertConfigs state;
     lastChecked := lastChecked state;
     triggeredAlerts := (triggeredAlerts state ++ [key])%list |}.

(** What a pass does to the outside world, in order. *)
Inductive Event :=
| Fetched (config : AlertConfig)                  (* fetchMarketData called *)
| Notified (config : AlertConfig) (sent : bool).  (* sendAlert called *)

Definition event_config (e : Event) : AlertConfig :=
  match e with Fetched c => c | Notified c _ => c end.

(** A fetch of market [id]. *)
Definition is_fetch_of (id : string) (e : Event) : bool :=
  match e with
  | Fetched c => bool_decide (marketId c = id)
  | Notified _ _ => false
  end.

(** A call of the notifier for a condition on market [id]. *)
Definition is_notify_on (id : string) (e : Event) : bool :=
  match e with
  | Fetched _ => false
  | Notified c _ => bool_decide (marketId c = id)
  end.

(** A firing for [key]: the notifier was called for a condition with
    that key and succeeded. *)
Definition is_firing_of (key : string) (e : Event) : bool :=
  match e with
  | Fetched _ => false
  | Notified c sent => sent && bool_decide (alertKey c = key)
  end.

(** Any call made for a condition with that key. *)
Definition concerns (key : string) (e : Event) : bool :=
  bool_decide (alertKey (event_config e) = key).

Definition count (p : Event -> bool) (t : list Event) : nat :=
  length (List.filter p t).

(** After a firing for [key], no later call concerns that key. *)
Fixpoint final_firing (key : string) (t : list Event) : bool :=
  match t with
  | [] => true
  | e :: t' =>
      if is_firing_of key e
      then forallb (fun e' => negb (concerns key e')) t'
      else final_firing key t'
  end.

(** The JSON body posted to the webhook. *)
Module AlertPayload.
Record payload := mk {
  type : string;
  marketId : string;
  question : string;
  outcome : string;
  threshold : number;
  direction : Direction;
  currentPrice : string;
  triggeredAt : string
}.
End AlertPayload.

(** The argument and the result of the global [fetch]. *)
Record Request := {
  url : string;
  method : string;
  headers : list (string * string);
  body : option AlertPayload.payload
}.

Record Response := {
  ok : bool;
  json : option PolymarketMarket   (* [None]: [response.json()] throws *)
}.

Definition POLYMARKET_CLOB_API : string := "https://clob.polymarket.com".

Section Workflow.

(** The network and the clock: [fetch] may read and change the world and
    answers [None] when its promise rejects; [isoTime] is
    [new Date().toISOString()]. *)
Context {World : Type}.
Variable fetch : Request -> World -> option Response * World.
Variable isoTime : World -> string.

Definition market_request (marketId : string) : Request :=
  {| url := POLYMARKET_CLOB_API ++ "/markets/" ++ marketId;
     method := "GET"; headers := []; body := None |}.

Definition fetchMarketData (marketId : string) (w : World)
    : option PolymarketMarket * World :=
  match fetch (market_request marketId) w with
  | (Some response, w') =>
      if negb (ok response) then (None, w') else (json response, w')
  | (None, w') => (None, w')
  end.

Definition alert_request (config : AlertConfig) (market : PolymarketMarket)
    (currentPrice : Double.t) (w : World) : Request :=
  {| url := notifyUrl config;
     method := "POST";
     headers := [("Content-Type", "application/json")];
     body := Some
       {| AlertPayload.type := "prediction_market_alert";
          AlertPayload.marketId := marketId config;
          AlertPayload.question := question market;
          AlertPayload.outcome := outcome config;
          AlertPayload.threshold := threshold config;
          AlertPayload.direction := direction config;
          AlertPayload.currentPrice := Double.toFixed 2 currentPrice;
          AlertPayload.triggeredAt := isoTime w |} |}.

Definition sendAlert (config : AlertConfig) (market : PolymarketMarket)
    (currentPrice : Double.t) (w : World) : bool * World :=
  match fetch (alert_request config market currentPrice w) w with
  | (Some response, w') => (ok response, w')
  | (None, w') => (false, w')
  end.

(** The variables of [executeWorkflow] while the loop runs, with the
    record of the calls made so far. *)
Record Run := {
  state : WorkflowState;
  alerts : list string;
  world : World;
  trace : list Event
}.

(** One iteration of the [for] loop. *)
Definition step (now : Z) (r : Run) (config : AlertConfig) : Run :=
  let key := alertKey config in
  (* skip if already triggered *)
  if bool_decide (key ∈ triggeredAlerts (state r)) then r
  else
    (* rate limit: check each market at most once per minute *)
    if rate_limited now (state r) (marketId config) then r
    else
      let state1 := set_lastChecked (state r) (marketId config) now in
      let '(fetched, world1) := fetchMarketData (marketId config) (world r) in
      let r1 := {| state := state1; alerts := alerts r; world := world1;
                   trace := (trace r ++ [Fetched config])%list |} in
      match fetched with
      | None => r1
      | Some market =>
          if negb (active market) || closed market then r1
          else if checkAlertCondition market config then
            let currentPrice := currentPrice_of (find_token market config) in
            let '(sent, world2) := sendAlert config market currentPrice world1 in
            let trace2 := (trace r1 ++ [Notified config sent])%list in
            if sent then
              {| state := push_triggered state1 key;
                 alerts := (alerts r ++ [alert_text market config currentPrice])%list;
                 world := world2;
                 trace := trace2 |}
            else
              {| state := state1; alerts := alerts r; world := world2;
                 trace := trace2 |}
          else r1
      end.

(** The same run with an earlier record of calls in front. *)
Definition prepend (t : list Event) (r : Run) : Run :=
  {| state := state r; alerts := alerts r; world := world r;
     trace := (t ++ trace r)%list |}.

(** *** Vocabulary for the properties of an iteration *)

(** The time stamp that the rate limit reads for a condition. *)
Definition last_poll (st : WorkflowState) (config : AlertConfig) : option Z :=
  stamp st (marketId config).

(** The condition is due: a minute or more has passed since the time
    stamp that is read, if it is a number. *)
Definition due (now : Z) (st : WorkflowState) (config : AlertConfig) : Prop :=
  forall t, last_poll st config = Some t -> (60000 <= now - t)%Z.

(** A time stamp written for market [id] is kept: [id] is not
    [__proto__], or it is an own property already. *)
Definition keeps_stamp (st : WorkflowState) (id : string) : Prop :=
  id <> "__proto__" \/ is_Some (lastChecked st !! id).

(** The market can be evaluated: fetched, active and not closed. *)
Definition usable (fetched : option PolymarketMarket) : Prop :=
  exists market,
    fetched = Some market /\ active market = true /\ closed market = false.

(** The iteration polls: the time stamp is written, then the market is
    fetched. *)
Definition polls (now : Z) (r : Run) (config : AlertConfig) : Prop :=
  (alertKey config ∉ triggeredAlerts (state r)) /\
  due now (state r) config.

Definition polled (now : Z) (r : Run) (config : AlertConfig) (w1 : World)
    : Run :=
  {| state := set_lastChecked (state r) (marketId config) now;
     alerts := alerts r; world := w1;
     trace := (trace r ++ [Fetched config])%list |}.

(** Every iteration is one of: skip, poll without notifying, poll and
    notify. *)
Inductive step_case (now : Z) (r : Run) (config : AlertConfig) : Run -> Prop :=
| case_skip :
    (alertKey config ∈ triggeredAlerts (state r)) \/
      ~ due now (state r) config ->
    step_case now r config r
| case_poll (w1 : World) :
    polls now r config ->
    step_case now r config (polled now r config w1)
| case_notify (market : PolymarketMarket) (w1 : World) (sent : bool)
    (w2 : World) :
    polls now r config ->
    step_case now r config
      {| state := if sent
                  then push_triggered (state (polled now r config w1))
                         (alertKey config)
                  else state (polled now r config w1);
         alerts := if sent
                   then (alerts r ++
                          [alert_text market config
                             (currentPrice_of (find_token market config))])%list
                   else alerts r;
         world := w2;
         trace := (trace r ++ [Fetched config] ++ [Notified config sent])%list |}.

(** *** Invariants of a pass *)

(** Within a pass at time [now]: market [id] has been fetched at most
    once, and if it has, its time stamp is [now]. *)
Definition polled_once (now : Z) (id : string) (r : Run) : Prop :=
  keeps_stamp (state r) id /\
  (count (is_fetch_of id) (trace r) = 0%nat \/
   (count (is_fetch_of id) (trace r) = 1%nat /\
    lastChecked (state r) !! id = Some now)) /\
  (count (is_notify_on id) (trace r) <= count (is_fetch_of id) (trace r))%nat.

(** A key has fired at most once, and if it has it is recorded. *)
Definition fired_once (key : string) (r : Run) : Prop :=
  count (is_firing_of key) (trace r) = 0%nat \/
  (count (is_firing_of key) (trace r) = 1%nat /\
   key ∈ triggeredAlerts (state r)).

(** A key that is recorded stays recorded, and no call is made for it. *)
Definition retired (key : string) (r : Run) : Prop :=
  key ∈ triggeredAlerts (state r) /\ count (concerns key) (trace r) = 0%nat.

(** What a pass at time [now] keeps. *)
Definition extends (now : Z) (r r' : Run) : Prop :=
  alertConfigs (state r') = alertConfigs (state r) /\
  (forall key, key ∈ triggeredAlerts (state r) ->
               key ∈ triggeredAlerts (state r')) /\
  (forall id, lastChecked (state r') !! id = lastChecked (state r) !! id \/
              lastChecked (state r') !! id = Some now).

(** A call at [now] skips the condition: its key is recorded or it is
    rate limited. *)
Definition quiet (now : Z) (r : Run) (config : AlertConfig) : Prop :=
  alertKey config ∈ triggeredAlerts (state r) \/ ~ due now (state r) config.

(** The condition is due at [now], and the time stamp written when it is
    polled will be kept. *)
Definition awaited (now : Z) (r : Run) (config : AlertConfig) : Prop :=
  keeps_stamp (state r) (marketId config) /\ due now (state r) config.

(** *** The pass *)

Definition run_loop (now : Z) (configs : list AlertConfig) (r : Run) : Run :=
  fold_left (step now) configs r.

(** [executeWorkflow(state)] called when [Date.now()] is [now]. *)
Definition executeWorkflow (now : Z) (st : WorkflowState) (w : World) : Run :=
  run_loop now (alertConfigs st)
    {| state := st; alerts := []; world := w; trace := [] |}.

(** A pass of the scheduler: [configs] is the list of alerts at that time
    (the API handlers add and remove alerts between passes; they never
    write [lastChecked] or [triggeredAlerts]). *)
Record Pass := { pass_time : Z; pass_configs : list AlertConfig }.

Definition with_configs (st : WorkflowState) (configs : list AlertConfig)
    : WorkflowState :=
  {| alertConfigs := configs;
     lastChecked := lastChecked st;
     triggeredAlerts := triggeredAlerts st |}.

(** Successive passes; the trace accumulates, [alerts] is that of the last
    pass. *)
Definition run_pass (r : Run) (p : Pass) : Run :=
  let r' := executeWorkflow (pass_time p)
              (with_configs (state r) (pass_configs p)) (world r) in
  {| state := state r'; alerts := alerts r'; world := world r';
     trace := (trace r ++ trace r')%list |}.

Definition run_passes (passes : list Pass) (st : WorkflowState) (w : World)
    : Run :=
  fold_left run_pass passes
    {| state := st; alerts := []; world := w; trace := [] |}.

End Workflow.

Arguments Run World : clear implicits.

End Engine.

(** ** Sample data *)

Module Samples.
Local Open Scope string_scope.

(** [n] times the digit 9. *)
Fixpoint nines (n : nat) : string :=
  match n with
  | O => EmptyString
  | S n' => String "9" (nines n')
  end.

(** U+00A0, the no-break space. *)
Definition nbsp : string := String (ascii_of_nat 160) "".

Definition sample_token (p : number) : PolymarketToken.t :=
  PolymarketToken.mk "1" "Yes" p None.

Definition sample_market (p : number) : PolymarketMarket :=
  {| condition_id := "M"; question := "Will Trump win?";
     outcomes := ["Yes"; "No"];
     tokens := [sample_token p];
     active := true; closed := false; volume := None |}.

Definition sample_config (id out : string) (th : Z) (d : Direction)
    : AlertConfig :=
  {| marketId := id; outcome := out; threshold := num_of_Z th;
     direction := d; notifyUrl := "https://example.org/hook" |}.

(** A scripted network: the world counts the calls made; market "M" is
    open with "Yes" at 0.65, any other market is answered 404; the
    webhook answers [delivered]. *)
Definition scripted_fetch (delivered : bool) (request : Engine.Request)
    (w : nat) : option Engine.Response * nat :=
  match Engine.body request with
  | Some _ => (Some {| Engine.ok := delivered; Engine.json := None |}, S w)
  | None =>
      if String.eqb (Engine.url request) "https://clob.polymarket.com/markets/M"
      then (Some {| Engine.ok := true;
                    Engine.json := Some (sample_market (Num 65 2)) |}, S w)
      else (Some {| Engine.ok := false; Engine.json := None |}, S w)
  end.

Definition scripted_clock (w : nat) : string := "2026-01-01T00:00:00.000Z".

Definition trump_above_60 : AlertConfig := sample_config "M" "Yes" 60 above.

(** A network on which every market is the sample market at 0.65, and
    the webhook answers. *)
Definition open_fetch (request : Engine.Request) (w : nat)
    : option Engine.Response * nat :=
  match Engine.body request with
  | Some _ => (Some {| Engine.ok := true; Engine.json := None |}, S w)
  | None => (Some {| Engine.ok := true;
                     Engine.json := Some (sample_market (Num 65 2)) |}, S w)
  end.

(** Conditions on the market whose id is [__proto__]. *)
Definition proto_above (th : Z) : AlertConfig :=
  sample_config "__proto__" "Yes" th above.

Definition proto_state : WorkflowState :=
  {| alertConfigs := [proto_above 60; proto_above 50];
     lastChecked := ∅;
     triggeredAlerts := [] |}.

Definition sample_state (polled_at : option Z) (fired : list string)
    : WorkflowState :=
  {| alertConfigs := [trump_above_60];
     lastChecked := match polled_at with
                    | Some t => {[ "M" := t ]}
                    | None => ∅
                    end;
     triggeredAlerts := fired |}.

Definition fresh_run (st : WorkflowState) : Engine.Run nat :=
  {| Engine.state := st; Engine.alerts := []; Engine.world := 0%nat;
     Engine.trace := [] |}.

(** Two conditions whose market and outcome differ but whose keys read the
    same. *)
Definition hyphen_left : AlertConfig := sample_config "a-b" "c" 60 above.
Definition hyphen_right : AlertConfig := sample_config "a" "b-c" 60 above.

End Samples.

(** * The rest of the service

    The modules below complete the model: vocabulary for further
    properties of the parser and of the engine, the global [parseInt], the
    payment module ([src/x402-handler.ts]), the market search of the
    workflow, the handlers of [src/api.ts], the keyword extraction of the
    enhanced workflow, and the parser of the first workflow. *)

(** ** Vocabulary for further properties of the parser *)

Module ParserVocabulary.
Import Regex.
Local Open Scope string_scope.

(** One of the keywords occurs in the text, whatever the case of the
    text. *)
Definition mentions (keywords : list string) (text : string) : Prop :=
  exists kw, In kw keywords /\ occurs kw (JS.toLowerCase text).

Fixpoint has_digit (s : string) : bool :=
  match s with
  | EmptyString => false
  | String c t => JS.is_digit c || has_digit t
  end.

(** A sufficient syntactic test: every word the expression reads contains
    a digit. *)
Fixpoint needs_digit (r : regex) : bool :=
  match r with
  | Cls Digit => true
  | Seq r1 r2 => needs_digit r1 || needs_digit r2
  | Alt r1 r2 => needs_digit r1 && needs_digit r2
  | Group _ r1 => needs_digit r1
  | _ => false
  end.

(** What every alert returned by the parser satisfies. *)
Definition well_shaped (url : string) (c : AlertConfig) : Prop :=
  marketId c = "" /\ notifyUrl c = url /\
  (outcome c = "Yes" \/ outcome c = "No") /\
  (0 <= mantissa (threshold c))%Z.

End ParserVocabulary.

(** ** Vocabulary for further properties of the engine *)

Module History.
Import Engine.

(** The keys of the notifier calls that succeeded, in order. *)
Fixpoint fired_keys (t : list Event) : list string :=
  match t with
  | [] => []
  | Notified c true :: t' => alertKey c :: fired_keys t'
  | _ :: t' => fired_keys t'
  end.

(** A record of calls in which every notifier call comes right after the
    fetch made for the same condition. *)
Inductive paired : list Event -> Prop :=
| paired_nil : paired []
| paired_fetch c t : paired t -> paired (Fetched c :: t)
| paired_notify c sent t :
    paired t -> paired (Fetched c :: Notified c sent :: t).

Section History.

Context {World : Type}.
Variable fetch : Request -> World -> option Response * World.
Variable isoTime : World -> string.

(** The calls of successive passes, each with the [Date.now()] of its
    pass. *)
Fixpoint timeline (passes : list Pass) (st : WorkflowState) (w : World)
    : list (Z * Event) :=
  match passes with
  | [] => []
  | p :: ps =>
      let r := executeWorkflow fetch isoTime (pass_time p)
                 (with_configs st (pass_configs p)) w in
      (map (pair (pass_time p)) (trace r)
         ++ timeline ps (state r) (world r))%list
  end.

(** The time stamp read in [st] for market [id], if it is a number, is a
    minute old at [now]. *)
Definition minute_old (now : Z) (st : WorkflowState) (id : string) : Prop :=
  forall t, stamp st id = Some t -> 60000 <= now - t.

(** While a pass at [now] runs from [st0]: a time stamp is the one of
    [st0], or it is [now] and the stamp of [st0] was a minute old; a market
    that has been fetched carries [now], if its time stamp is kept. *)
Definition stamped (now : Z) (st0 : WorkflowState) (r : Run World) : Prop :=
  (forall id,
     lastChecked (state r) !! id = lastChecked st0 !! id \/
     (lastChecked (state r) !! id = Some now /\ minute_old now st0 id)) /\
  (forall c, Fetched c ∈ trace r ->
     (keeps_stamp st0 (marketId c) ->
      lastChecked (state r) !! marketId c = Some now) /\
     minute_old now st0 (marketId c)).

(** While a pass runs from [st]: the alerts are those of [st], the keys
    recorded are those of [st] followed by the keys of the notifier calls
    that succeeded, and one description was appended for each. *)
Definition booked (st : WorkflowState) (r : Run World) : Prop :=
  alertConfigs (state r) = alertConfigs st /\
  triggeredAlerts (state r) = triggeredAlerts st ++ fired_keys (trace r) /\
  length (alerts r) = length (fired_keys (trace r)) /\
  (NoDup (triggeredAlerts st) -> NoDup (triggeredAlerts (state r))).

End History.

End History.

(** ** Global functions on numbers *)

Module Globals.
Local Open Scope string_scope.

Definition is_hex (c : ascii) : bool :=
  let n := nat_of_ascii c in
  JS.is_digit c || (Nat.leb 97 n && Nat.leb n 102)
                || (Nat.leb 65 n && Nat.leb n 70).

Definition hex_value (c : ascii) : Z :=
  let n := Z.of_nat (nat_of_ascii c) in
  if JS.is_digit c then n - 48
  else if JS.is_lower c then n - 87
  else n - 55.

Fixpoint span_hex (s : string) : string * string :=
  match s with
  | String c t =>
      if is_hex c then let '(d, r) := span_hex t in (String c d, r)
      else (EmptyString, s)
  | EmptyString => (EmptyString, EmptyString)
  end.

Fixpoint hex_digits_value (acc : Z) (s : string) : Z :=
  match s with
  | EmptyString => acc
  | String c t => hex_digits_value (acc * 16 + hex_value c) t
  end.

(** The integer that [parseInt(s)] reads, without a radix: leading white
    space is skipped, then a sign, then [0x] or [0X] announces hexadecimal
    digits; the longest run of digits is read and what follows is
    ignored.  [None] when there is no digit to read. *)
Definition mathInt (s : string) : option Z :=
  let s1 := JS.trimStart s in
  let '(sign, s2) :=
    match s1 with
    | String "-" t => (-1, t)
    | String "+" t => (1, t)
    | _ => (1, s1)
    end in
  let '(hex, s3) :=
    match s2 with
    | String "0" (String "x" t) => (true, t)
    | String "0" (String "X" t) => (true, t)
    | _ => (false, s2)
    end in
  if hex then
    match fst (span_hex s3) with
    | EmptyString => None
    | z => Some (sign * hex_digits_value 0 z)
    end
  else
    match fst (span_digits s3) with
    | EmptyString => None
    | z => Some (sign * digits_value 0 z)
    end.

(** The numeral starts with a minus sign. *)
Definition negative_sign (s : string) : bool :=
  match JS.trimStart s with
  | String "-" _ => true
  | _ => false
  end.

(** [parseInt(s)]: NaN when there is no digit to read, else the double
    nearest to the integer read (an infinity from 2^1024 on), and [-0] for
    a zero that follows a minus sign. *)
Definition parseInt (s : string) : Double.t :=
  match mathInt s with
  | None => Double.nan
  | Some 0%Z => S754_zero (negative_sign s)
  | Some z => Double.of_Z z
  end.

(** A string that is present and not empty: what [if (s)] and [s || d]
    test on a string that may be undefined. *)
Definition truthy (s : option string) : option string :=
  match s with
  | Some EmptyString => None
  | _ => s
  end.

(** What can follow a decimal integer without changing what [parseInt]
    reads: not a digit, and not the [x] of a hexadecimal prefix. *)
Definition ends_integer (rest : string) : bool :=
  match rest with
  | EmptyString => true
  | String c _ =>
      negb (JS.is_digit c || Ascii.eqb c "x" || Ascii.eqb c "X")
  end.

End Globals.

(** ** The payment module *)

Module X402.
Import Globals.
Local Open Scope string_scope.
Local Open Scope Z_scope.

Definition X402_VERSION : string := "1.0".
Definition DEFAULT_PAYMENT_RECEIVER : string :=
  "0x8Da63b5f30e603E2D11a924C3976F67E63035cF0".
Definition USDC_ADDRESS_BASE : string :=
  "0x833589fCD6eDb6E08f4c7C32D4f71b54bdA02913".
Definition ALERT_PRICE_USDC : string := "10000".   (* 0.01 USDC in 6 decimals *)
Definition BASE_CHAIN_ID : Z := 8453.

(** Payment request structure per x402 spec *)
Module PaymentRequest.
Record t := mk {
  version : string;
  network : string;
  chainId : Z;
  payTo : string;
  maxAmountRequired : string;
  asset : string;
  resource : string;
  description : string;
  expiry : Z;
  nonce : string
}.
End PaymentRequest.

(** Payment proof structure.  The proof is parsed from a request header:
    [payer] is [None] when the field is missing or is not a string. *)
Module PaymentProof.
Record t := mk {
  transactionHash : string;
  blockNumber : Z;
  chainId : Z;
  payer : option string;
  amount : string
}.
End PaymentProof.

(** What [verifyPayment] reads of a transaction receipt. *)
Record Log := {
  address : string;
  topics : list string;
  data : string
}.

Module Receipt.
Record t := mk {
  status : option Z;          (* number | null *)
  blockNumber : Z;
  logs : list Log
}.
End Receipt.

(** [provider.getTransactionReceipt]: a receipt, null, or an exception
    (carried as the text of the error). *)
Inductive Lookup :=
| Found (receipt : Receipt.t)
| Missing
| Thrown (error : string).

(** The arguments of a [Transfer] event. *)
Record Transfer := {
  from : string;
  to : string;
  value : Z
}.

(** [usdcInterface.parseLog]: the event, null, or an exception. *)
Inductive Parsed :=
| Event (args : Transfer)
| NoEvent
| ParseError.

Record Verification := {
  valid : bool;
  error : option string
}.

Definition rejected (message : string) : Verification :=
  {| valid := false; error := Some message |}.

(** How the loop over the logs ends. *)
Inductive Scan :=
| PaymentFound       (* the loop ends with paymentFound = true *)
| PayerMismatch      (* return inside the loop *)
| NoPayment.         (* the loop ends with paymentFound = false *)

Module PaymentRequired.
Record t := mk {
  status : Z;
  headers : list (string * string);
  body : PaymentRequest.t
}.
End PaymentRequired.

Record BulkPrice := {
  totalUsdc : Double.t;
  discount : Double.t;
  pricePerAlert : Double.t
}.

(** Calculate total cost for multiple alerts *)
Definition calculateBulkPrice (alertCount : Double.t) : BulkPrice :=
  let basePrice :=
    Double.div (parseInt ALERT_PRICE_USDC) (Double.of_number (Num 1000000 0)) in
  (* bulk discounts *)
  let discount :=
    if Double.geb alertCount (Double.of_Z 10)
    then Double.of_number (Num 20 2)                      (* 20% off for 10+ *)
    else if Double.geb alertCount (Double.of_Z 5)
    then Double.of_number (Num 10 2)                      (* 10% off for 5+ *)
    else Double.of_Z 0 in
  let pricePerAlert :=
    Double.mul basePrice (Double.sub (Double.of_Z 1) discount) in
  let totalUsdc := Double.mul pricePerAlert alertCount in
  {| totalUsdc := totalUsdc; discount := discount;
     pricePerAlert := pricePerAlert |}.

(** The total for a whole number of alerts. *)
Definition bulk_total (n : Z) : Double.t :=
  totalUsdc (calculateBulkPrice (Double.of_Z n)).

(** The price every caller verifies against: [expectedAmount] is left at
    its default, [ALERT_PRICE_USDC], which [BigInt] reads as 10000. *)
Definition ALERT_PRICE : Z := 10000.

Definition same_address (a b : string) : Prop :=
  JS.toLowerCase a = JS.toLowerCase b.

Section X402.

Context {World : Type}.

(** [process.env.PAYMENT_RECEIVER], the RPC node, the ABI decoder of
    ethers, its random bytes (as [hexlify] prints them) and the clock. *)
Variable env_PAYMENT_RECEIVER : option string.
Variable getTransactionReceipt : string -> World -> Lookup * World.
Variable parseLog : Log -> Parsed.
Variable randomNonce : World -> string * World.
Variable dateNow : World -> Z * World.

(** [process.env.PAYMENT_RECEIVER || '0x8Da6...'] *)
Definition PAYMENT_RECEIVER : string :=
  default DEFAULT_PAYMENT_RECEIVER (truthy env_PAYMENT_RECEIVER).

(** Generate a 402 Payment Required response *)
Definition createPaymentRequired (resource description : string) (w : World)
    : PaymentRequired.t * World :=
  let '(nonce, w1) := randomNonce w in
  let '(now, w2) := dateNow w1 in
  let expiry := now / 1000 + 3600 in   (* 1 hour *)
  (PaymentRequired.mk 402
     [("Content-Type", "application/json");
      ("X-Payment-Required", "true");
      ("X-Payment-Version", X402_VERSION)]
     {| PaymentRequest.version := X402_VERSION;
        PaymentRequest.network := "base";
        PaymentRequest.chainId := BASE_CHAIN_ID;
        PaymentRequest.payTo := PAYMENT_RECEIVER;
        PaymentRequest.maxAmountRequired := ALERT_PRICE_USDC;
        PaymentRequest.asset := USDC_ADDRESS_BASE;
        PaymentRequest.resource := resource;
        PaymentRequest.description := description;
        PaymentRequest.expiry := expiry;
        PaymentRequest.nonce := nonce |}, w2).

(** The loop over [receipt.logs], from the value of [paymentFound].
    [expected] is [BigInt(expectedAmount)].  The body of the loop is inside
    a [try] whose [catch] goes on with the next log: this is where the
    evaluation of [proof.payer.toLowerCase()] ends when the proof has no
    payer, after [paymentFound] has been set. *)
Fixpoint scan_logs (proof : PaymentProof.t) (expected : Z)
    (paymentFound : bool) (logs : list Log) : Scan :=
  match logs with
  | [] => if paymentFound then PaymentFound else NoPayment
  | log :: logs' =>
      if negb (String.eqb (JS.toLowerCase (address log))
                          (JS.toLowerCase USDC_ADDRESS_BASE))
      then scan_logs proof expected paymentFound logs'
      else
        match parseLog log with
        | Event args =>
            (* check if payment goes to our receiver *)
            if String.eqb (JS.toLowerCase (to args))
                          (JS.toLowerCase PAYMENT_RECEIVER) then
              (* check amount *)
              if expected <=? value args then
                (* paymentFound = true; verify sender matches proof *)
                match PaymentProof.payer proof with
                | Some payer =>
                    if negb (String.eqb (JS.toLowerCase (from args))
                                        (JS.toLowerCase payer))
                    then PayerMismatch
                    else PaymentFound
                | None => scan_logs proof expected true logs'
                end
              else scan_logs proof expected paymentFound logs'
            else scan_logs proof expected paymentFound logs'
        | NoEvent => scan_logs proof expected paymentFound logs'
        | ParseError =>   (* not a Transfer event *)
            scan_logs proof expected paymentFound logs'
        end
  end.

(** Verify a payment proof on-chain.  [expected] is the integer that
    [BigInt] reads from [expectedAmount]. *)
Definition verifyPayment (proof : PaymentProof.t) (expected : Z) (w : World)
    : Verification * World :=
  (* validate chain ID *)
  if negb (PaymentProof.chainId proof =? BASE_CHAIN_ID) then
    (rejected "Invalid chain ID - must be Base", w)
  else
    match getTransactionReceipt (PaymentProof.transactionHash proof) w with
    | (Thrown e, w') => (rejected ("Verification failed: " ++ e), w')
    | (Missing, w') => (rejected "Transaction not found", w')
    | (Found receipt, w') =>
        (* verify transaction was successful *)
        if negb (bool_decide (Receipt.status receipt = Some 1)) then
          (rejected "Transaction failed", w')
        (* verify block number matches *)
        else if negb (Receipt.blockNumber receipt
                        =? PaymentProof.blockNumber proof) then
          (rejected "Block number mismatch", w')
        else
          match scan_logs proof expected false (Receipt.logs receipt) with
          | PayerMismatch => (rejected "Payer address mismatch", w')
          | NoPayment => (rejected "Payment not found in transaction", w')
          | PaymentFound => ({| valid := true; error := None |}, w')
          end
    end.

(** *** Vocabulary for the properties of [verifyPayment] *)

(** The transfer that makes the loop stop at a log, if the log pays: a
    USDC transfer to the receiver of at least the expected amount. *)
Definition payment_of (expected : Z) (log : Log) : option Transfer :=
  if String.eqb (JS.toLowerCase (address log)) (JS.toLowerCase USDC_ADDRESS_BASE)
  then match parseLog log with
       | Event args =>
           if String.eqb (JS.toLowerCase (to args))
                         (JS.toLowerCase PAYMENT_RECEIVER)
              && (expected <=? value args)
           then Some args else None
       | _ => None
       end
  else None.

Definition pays (expected : Z) (log : Log) (args : Transfer) : Prop :=
  same_address (address log) USDC_ADDRESS_BASE /\
  parseLog log = Event args /\
  same_address (to args) PAYMENT_RECEIVER /\
  expected <= value args.

(** The first log that pays, if any, and its arguments. *)
Definition first_payment (expected : Z) (logs : list Log) (args : Transfer)
    : Prop :=
  exists before log after,
    logs = (before ++ log :: after)%list /\
    (forall l a, l ∈ before -> ~ pays expected l a) /\
    pays expected log args.

End X402.

End X402.

(** ** Market search *)

Module Search.
Local Open Scope string_scope.

(** An element of the array that the Gamma API answers, as
    [searchMarkets] reads it. *)
Module GammaMarket.
Record t := mk {
  conditionId : string;
  question : option string;
  description : option string;
  outcomes : option (list string);
  tokens : option (list PolymarketToken.t);
  active : bool;
  closed : bool;
  volume : option number
}.
End GammaMarket.

(** A market as [searchMarkets] returns it: a [PolymarketMarket] whose
    question is missing when the Gamma market had none. *)
Module FoundMarket.
Record t := mk {
  condition_id : string;
  question : option string;
  outcomes : list string;
  tokens : list PolymarketToken.t;
  active : bool;
  closed : bool;
  volume : option number
}.
End FoundMarket.

Module GammaResponse.
Record t := mk {
  ok : bool;
  json : option (list GammaMarket.t)   (* [None]: [response.json()] throws *)
}.
End GammaResponse.

Definition GAMMA_API : string := "https://gamma-api.polymarket.com".

(** [`${GAMMA_API}/markets?closed=false&_limit=10`] *)
Definition search_url : string := GAMMA_API ++ "/markets?closed=false&_limit=10".

(** [text?.toLowerCase().includes(queryLower)] *)
Definition text_includes (text : option string) (queryLower : string) : bool :=
  match text with
  | Some t => JS.includes (JS.toLowerCase t) queryLower
  | None => false
  end.

Definition found (m : GammaMarket.t) : FoundMarket.t :=
  {| FoundMarket.condition_id := GammaMarket.conditionId m;
     FoundMarket.question := GammaMarket.question m;
     FoundMarket.outcomes := default ["Yes"; "No"] (GammaMarket.outcomes m);
     FoundMarket.tokens := default [] (GammaMarket.tokens m);
     FoundMarket.active := GammaMarket.active m;
     FoundMarket.closed := GammaMarket.closed m;
     FoundMarket.volume := GammaMarket.volume m |}.

(** The text contains the query, whatever the case of either. *)
Definition contains (text : option string) (query : string) : Prop :=
  exists t, text = Some t /\
    Regex.occurs (JS.toLowerCase query) (JS.toLowerCase t).

Definition relevant (query : string) (m : GammaMarket.t) : Prop :=
  contains (GammaMarket.question m) query \/
  contains (GammaMarket.description m) query.

Section Search.

Context {World : Type}.

(** The global [fetch] on a URL that answers a list of markets; [None]
    when its promise rejects. *)
Variable fetchGamma : string -> World -> option GammaResponse.t * World.

Definition searchMarkets (query : string) (w : World)
    : list FoundMarket.t * World :=
  match fetchGamma search_url w with
  | (Some response, w') =>
      if negb (GammaResponse.ok response) then ([], w')
      else
        match GammaResponse.json response with
        | Some markets =>
            (* filter by query (simple text match) *)
            let queryLower := JS.toLowerCase query in
            (map found
               (List.filter
                  (fun m =>
                     text_includes (GammaMarket.question m) queryLower
                     || text_includes (GammaMarket.description m) queryLower)
                  markets), w')
        | None => ([], w')
        end
  | (None, w') => ([], w')
  end.

(** The markets that the Gamma API lists, when it answers. *)
Definition listed (w : World) : list GammaMarket.t :=
  match fetchGamma search_url w with
  | (Some response, _) =>
      if GammaResponse.ok response
      then default [] (GammaResponse.json response) else []
  | (None, _) => []
  end.

End Search.

End Search.

(** ** The HTTP handlers *)

Module Api.
Import Globals.
Local Open Scope string_scope.
Local Open Scope Z_scope.

(** An alert as [GET /alerts] lists it: its position, its fields, and
    whether its key is recorded. *)
Module ListedAlert.
Record t := mk {
  id : nat;
  config : AlertConfig;
  triggered : bool
}.
End ListedAlert.

Module AlertList.
Record t := mk {
  count : nat;
  alerts : list ListedAlert.t
}.
End AlertList.

(** [GET /alerts] *)
Definition get_alerts (state : WorkflowState) : AlertList.t :=
  {| AlertList.count := length (alertConfigs state);
     AlertList.alerts :=
       imap (fun i config =>
               {| ListedAlert.id := i;
                  ListedAlert.config := config;
                  ListedAlert.triggered := Engine.triggered state config |})
         (alertConfigs state) |}.

Inductive DeleteReply :=
| Deleted          (* 200 { success: true } *)
| AlertNotFound.   (* 404 { error: 'Alert not found' } *)

(** [DELETE /alerts/:id].  The tests and the index are those of the
    integer read: [parseInt] rounds it to a double, which keeps its sign
    and its order with the length of an array (a whole number below 2^32),
    and an integer below that length is its own double. *)
Definition delete_alert (param : string) (state : WorkflowState)
    : DeleteReply * WorkflowState :=
  match mathInt param with
  | None => (AlertNotFound, state)
  | Some id =>
      if (id <? 0) || (Z.of_nat (length (alertConfigs state)) <=? id)
      then (AlertNotFound, state)
      else (Deleted,
            Engine.with_configs state
              (delete (Z.to_nat id) (alertConfigs state)))
  end.

(** The listed alert, one position down. *)
Definition renumbered (e : ListedAlert.t) : ListedAlert.t :=
  {| ListedAlert.id := pred (ListedAlert.id e);
     ListedAlert.config := ListedAlert.config e;
     ListedAlert.triggered := ListedAlert.triggered e |}.

(** The JSON body of [POST /alerts], for requests whose fields have the
    types of the documented API: strings, a JSON number for [threshold],
    "above" or "below" for [direction]; a field that is absent is [None].
    [notifyUrl] is a string (empty when the caller has none): the handler
    tests it with [!notifyUrl] and [notifyUrl || '']. *)
Module AlertBody.
Record t := mk {
  description : option string;
  marketId : option string;
  outcome : option string;
  threshold : option number;
  direction : option Direction;
  notifyUrl : string;
  naturalLanguage : option string
}.
End AlertBody.

Module PendingPayment.
Record t := mk {
  nonce : string;
  config : AlertBody.t;
  expiry : Z
}.
End PendingPayment.

(** The state of [api.ts]: the three fields of [WorkflowState], and the
    payment requests that have been issued. *)
Record ApiState := {
  engine : WorkflowState;
  pendingPayments : gmap string PendingPayment.t
}.

Inductive PostReply :=
| PaymentRequiredReply (headers : list (string * string))
    (request : X402.PaymentRequest.t)                (* 402 *)
| PaymentInvalid (error : string)                    (* 402 *)
| InvalidProofFormat                                 (* 400 *)
| CouldNotParse                                      (* 400 *)
| NoMatchingMarkets (query : string)                 (* 404 *)
| MissingFields                                      (* 400 *)
| MarketNotFound                                     (* 404 *)
| CreatedFromText (id : Z) (market : option string) (outcome : string)
    (threshold : number) (direction : Direction)     (* 201 *)
| Created (id : Z) (market : string) (alert : AlertConfig).   (* 201 *)

(** The id announced by a reply that creates an alert. *)
Definition created_id (reply : PostReply) : option Z :=
  match reply with
  | CreatedFromText id _ _ _ _ => Some id
  | Created id _ _ => Some id
  | _ => None
  end.

(** [!threshold] for a JSON number: absent or zero. *)
Definition nonzero (x : option number) : option number :=
  match x with
  | Some n => if mantissa n =? 0 then None else Some n
  | None => None
  end.

(** [state.alertConfigs.push(c)] *)
Definition push_config (state : ApiState) (c : AlertConfig) : ApiState :=
  {| engine := Engine.with_configs (engine state)
                 (alertConfigs (engine state) ++ [c]);
     pendingPayments := pendingPayments state |}.

(** The id of the alert just pushed: [state.alertConfigs.length - 1]. *)
Definition last_id (state : ApiState) : Z :=
  Z.of_nat (length (alertConfigs (engine state))) - 1.

Definition expired (now : Z) (p : PendingPayment.t) : Prop :=
  PendingPayment.expiry p < now.

#[global] Instance expired_dec now p : Decision (expired now p) :=
  Z_lt_dec (PendingPayment.expiry p) now.

Section Handlers.

Context {World : Type}.

Variable fetch : Engine.Request -> World -> option Engine.Response * World.
Variable fetchGamma : string -> World -> option Search.GammaResponse.t * World.
Variable env_PAYMENT_RECEIVER : option string.
Variable getTransactionReceipt : string -> World -> X402.Lookup * World.
Variable parseLog : X402.Log -> X402.Parsed.
Variable randomNonce : World -> string * World.
Variable dateNow : World -> Z * World.

(** [JSON.parse] of the [X-Payment-Proof] header, for headers that hold a
    proof object; [None] when the header is not JSON. *)
Variable JSON_parse : string -> option X402.PaymentProof.t.

Local Abbreviation createPaymentRequired :=
  (X402.createPaymentRequired env_PAYMENT_RECEIVER randomNonce dateNow).
Local Abbreviation verifyPayment :=
  (X402.verifyPayment env_PAYMENT_RECEIVER getTransactionReceipt parseLog).
Local Abbreviation searchMarkets := (Search.searchMarkets fetchGamma).
Local Abbreviation fetchMarketData := (Engine.fetchMarketData fetch).

(** No payment: return 402 with payment instructions, store the pending
    payment, clean up the expired ones. *)
Definition request_payment (body : AlertBody.t) (state : ApiState) (w : World)
    : PostReply * ApiState * World :=
  let '(required, w1) :=
    createPaymentRequired "/alerts"
      ("Create prediction market alert: "
         ++ default "Custom alert" (truthy (AlertBody.description body))) w in
  let paymentBody := X402.PaymentRequired.body required in
  let pending1 :=
    <[X402.PaymentRequest.nonce paymentBody :=
        {| PendingPayment.nonce := X402.PaymentRequest.nonce paymentBody;
           PendingPayment.config := body;
           PendingPayment.expiry := X402.PaymentRequest.expiry paymentBody |}]>
      (pendingPayments state) in
  let '(millis, w2) := dateNow w1 in
  let now := millis / 1000 in
  let pending2 := filter (fun entry => ~ expired now (snd entry)) pending1 in
  (PaymentRequiredReply (X402.PaymentRequired.headers required) paymentBody,
   {| engine := engine state; pendingPayments := pending2 |}, w2).

(** Payment verified: create the alert. *)
Definition create_alert (body : AlertBody.t) (state : ApiState) (w : World)
    : PostReply * ApiState * World :=
  match truthy (AlertBody.naturalLanguage body),
        truthy (AlertBody.marketId body) with
  | Some text, None =>
      (* handle natural language input *)
      match Parser.parseAlertRequest text (AlertBody.notifyUrl body) with
      | None => (CouldNotParse, state, w)
      | Some parsed =>
          (* search for matching market *)
          let '(markets, w1) := searchMarkets text w in
          match markets with
          | [] => (NoMatchingMarkets text, state, w1)
          | first :: _ =>
              (* use first matching market *)
              let parsed' :=
                {| marketId := Search.FoundMarket.condition_id first;
                   outcome := outcome parsed;
                   threshold := threshold parsed;
                   direction := direction parsed;
                   notifyUrl := AlertBody.notifyUrl body |} in
              let state' := push_config state parsed' in
              (CreatedFromText (last_id state')
                 (Search.FoundMarket.question first)
                 (outcome parsed') (threshold parsed') (direction parsed'),
               state', w1)
          end
      end
  | _, _ =>
      (* standard structured input *)
      match truthy (AlertBody.marketId body),
            nonzero (AlertBody.threshold body),
            truthy (Some (AlertBody.notifyUrl body)) with
      | Some id, Some th, Some url =>
          (* verify market exists *)
          let '(market, w1) := fetchMarketData id w in
          match market with
          | None => (MarketNotFound, state, w1)
          | Some market =>
              let alertConfig :=
                {| marketId := id;
                   outcome := default "Yes" (AlertBody.outcome body);
                   threshold := th;   (* parseFloat(threshold) *)
                   direction := default above (AlertBody.direction body);
                   notifyUrl := url |} in
              let state' := push_config state alertConfig in
              (Created (last_id state') (question market) alertConfig,
               state', w1)
          end
      | _, _, _ => (MissingFields, state, w)
      end
  end.

(** [POST /alerts]; [paymentProof] is the [X-Payment-Proof] header. *)
Definition post_alerts (body : AlertBody.t) (paymentProof : option string)
    (state : ApiState) (w : World) : PostReply * ApiState * World :=
  match truthy paymentProof with
  | None => request_payment body state w
  | Some header =>
      (* verify payment *)
      match JSON_parse header with
      | None => (InvalidProofFormat, state, w)
      | Some proof =>
          let '(verification, w1) := verifyPayment proof X402.ALERT_PRICE w in
          if negb (X402.valid verification) then
            (PaymentInvalid
               ("Payment invalid: "
                  ++ default "undefined" (X402.error verification)),
             state, w1)
          else create_alert body state w1
      end
  end.

End Handlers.

End Api.

(** ** A scripted service *)

Module ApiSamples.
Import Samples.
Local Open Scope string_scope.

Definition gamma_market (id question description : string)
    : Search.GammaMarket.t :=
  {| Search.GammaMarket.conditionId := id;
     Search.GammaMarket.question := Some question;
     Search.GammaMarket.description := Some description;
     Search.GammaMarket.outcomes := None;
     Search.GammaMarket.tokens := None;
     Search.GammaMarket.active := true;
     Search.GammaMarket.closed := false;
     Search.GammaMarket.volume := None |}.

(** The Gamma API lists two markets; only the description of the second
    holds the text "trump > 60%". *)
Definition scripted_gamma (url : string) (w : nat)
    : option Search.GammaResponse.t * nat :=
  (Some {| Search.GammaResponse.ok := true;
           Search.GammaResponse.json :=
             Some [gamma_market "B" "Will Bitcoin reach 100k?" "Bitcoin price";
                   gamma_market "M" "Will Trump win?"
                     "Resolves Yes when TRUMP > 60% of the votes"] |}, S w).

Definition payment_log : X402.Log :=
  {| X402.address := "0x833589fcd6edb6e08f4c7c32d4f71b54bda02913";
     X402.topics := []; X402.data := "" |}.

(** The RPC node knows one transaction, in block 7: a USDC transfer of
    10000 units from "0xabc" to the default receiver. *)
Definition scripted_receipt (hash : string) (w : nat) : X402.Lookup * nat :=
  if String.eqb hash "0x01"
  then (X402.Found {| X402.Receipt.status := Some 1;
                      X402.Receipt.blockNumber := 7;
                      X402.Receipt.logs := [payment_log] |}, S w)
  else (X402.Missing, S w).

Definition scripted_parseLog (log : X402.Log) : X402.Parsed :=
  X402.Event {| X402.from := "0xabc";
                X402.to := X402.DEFAULT_PAYMENT_RECEIVER;
                X402.value := 10000 |}.

Definition scripted_nonce (w : nat) : string * nat :=
  ("0x000102030405060708090a0b0c0d0e0f", S w).

Definition scripted_now (w : nat) : Z * nat := (1700000000000, S w).

(** Two headers are proofs of the transaction above: "paid" names its
    payer, "anonymous" has no payer field. *)
Definition scripted_JSON (header : string) : option X402.PaymentProof.t :=
  if String.eqb header "paid" then
    Some {| X402.PaymentProof.transactionHash := "0x01";
            X402.PaymentProof.blockNumber := 7;
            X402.PaymentProof.chainId := 8453;
            X402.PaymentProof.payer := Some "0xABC";
            X402.PaymentProof.amount := "10000" |}
  else if String.eqb header "anonymous" then
    Some {| X402.PaymentProof.transactionHash := "0x01";
            X402.PaymentProof.blockNumber := 7;
            X402.PaymentProof.chainId := 8453;
            X402.PaymentProof.payer := None;
            X402.PaymentProof.amount := "10000" |}
  else None.

Definition text_body : Api.AlertBody.t :=
  {| Api.AlertBody.description := None;
     Api.AlertBody.marketId := None;
     Api.AlertBody.outcome := None;
     Api.AlertBody.threshold := None;
     Api.AlertBody.direction := None;
     Api.AlertBody.notifyUrl := "https://example.org/hook";
     Api.AlertBody.naturalLanguage := Some "Trump > 60%" |}.

Definition empty_service : Api.ApiState :=
  {| Api.engine := sample_state None []; Api.pendingPayments := ∅ |}.

Definition one_pending : gmap string Api.PendingPayment.t :=
  {[ "0xff" := {| Api.PendingPayment.nonce := "0xff";
                  Api.PendingPayment.config := text_body;
                  Api.PendingPayment.expiry := 1700003600 |} ]}.

End ApiSamples.

(** ** Anchors, replacement and global matching

    [^] and [$] (without the [m] flag) on top of the matcher, and the
    string methods that take a pattern with the [g] flag. *)

Module RegexOps.
Import Regex.
Local Open Scope string_scope.

Inductive anchored :=
| Plain (r : regex)
| Bol                              (* ^ *)
| Eol                              (* $ *)
| ASeq (a1 a2 : anchored)
| AAlt (a1 a2 : anchored).

Fixpoint ASeqs (l : list anchored) : anchored :=
  match l with
  | [] => Plain Empty
  | [a] => a
  | a :: l' => ASeq a (ASeqs l')
  end.

Fixpoint amatch (ic : bool) (a : anchored) (k : mstate -> option mstate)
    (s : mstate) : option mstate :=
  match a with
  | Plain r => rmatch ic r k s
  | Bol => match prev s with None => k s | Some _ => None end
  | Eol => match rest s with EmptyString => k s | String _ _ => None end
  | ASeq a1 a2 => amatch ic a1 (fun s1 => amatch ic a2 k s1) s
  | AAlt a1 a2 =>
      match amatch ic a1 k s with
      | Some res => Some res
      | None => amatch ic a2 k s
      end
  end.

Record apattern := APattern {
  abody : anchored;
  aignoreCase : bool
}.

(** Try to match at exactly this position. *)
Definition amatch_at (p : apattern) (before : option ascii) (s : string)
    (i : nat) : option match_result :=
  let s0 := MState before s [] in
  match amatch (aignoreCase p) (abody p) Some s0 with
  | Some s1 => Some (MatchResult i (consumed s0 s1) (caps s1) (rest s1))
  | None => None
  end.

(** Leftmost match at or after this position. *)
Fixpoint asearch_from (p : apattern) (before : option ascii) (s : string)
    (i : nat) : option match_result :=
  match amatch_at p before s i with
  | Some m => Some m
  | None =>
      match s with
      | EmptyString => None
      | String c t => asearch_from p (Some c) t (S i)
      end
  end.

(** [text.match(p)] for a pattern without the [g] flag. *)
Definition aexec (p : apattern) (text : string) : option match_result :=
  asearch_from p None text 0.

(** [text.replace(p, by)] for a pattern without the [g] flag and a
    replacement without [$]. *)
Definition replace (p : apattern) (by_ : string) (text : string) : string :=
  match aexec p text with
  | Some m => JS.take (index m) text ++ by_ ++ after m
  | None => text
  end.

(** The scan of a pattern with the [g] flag: [skip] characters of the
    match in progress are still to pass; then a match is tried at the
    current position.  After an empty match the scan moves one character
    on, as [lastIndex] does. *)
Fixpoint replace_scan (p : apattern) (by_ : string) (before : option ascii)
    (s : string) (skip : nat) : string :=
  match skip, s with
  | S skip', String c t => replace_scan p by_ (Some c) t skip'
  | S _, EmptyString => EmptyString
  | O, _ =>
      match amatch_at p before s 0, s with
      | Some m, String c t =>
          by_ ++ match String.length (matched m) with
                 | O => String c (replace_scan p by_ (Some c) t 0)
                 | S skip' => replace_scan p by_ (Some c) t skip'
                 end
      | Some m, EmptyString => by_
      | None, String c t => String c (replace_scan p by_ (Some c) t 0)
      | None, EmptyString => EmptyString
      end
  end.

(** [text.replace(p, by)] for a pattern with the [g] flag. *)
Definition replace_all (p : apattern) (by_ : string) (text : string) : string :=
  replace_scan p by_ None text 0.

Fixpoint match_scan (p : apattern) (before : option ascii) (s : string)
    (skip : nat) : list string :=
  match skip, s with
  | S skip', String c t => match_scan p (Some c) t skip'
  | S _, EmptyString => []
  | O, _ =>
      match amatch_at p before s 0, s with
      | Some m, String c t =>
          matched m :: match_scan p (Some c) t (pred (String.length (matched m)))
      | Some m, EmptyString => [matched m]
      | None, String c t => match_scan p (Some c) t 0
      | None, EmptyString => []
      end
  end.

(** [text.match(p)] for a pattern with the [g] flag: every match, or null
    ([None]) when there is none. *)
Definition match_all (p : apattern) (text : string) : option (list string) :=
  match match_scan p None text 0 with
  | [] => None
  | l => Some l
  end.

(** [[...new Set(l)]]: the first occurrence of each element, in order. *)
Fixpoint unique (l : list string) : list string :=
  match l with
  | [] => []
  | x :: l' => x :: List.filter (fun y => negb (String.eqb x y)) (unique l')
  end.

End RegexOps.

(** ** Keyword extraction *)

Module Keywords.
Import Regex RegexOps Parser.
Local Open Scope string_scope.

Definition upper_case : cclass := OneOf "ABCDEFGHIJKLMNOPQRSTUVWXYZ".
Definition lower_case : cclass := OneOf "abcdefghijklmnopqrstuvwxyz".

(** [/^(alert|notify|tell|watch|let me know|ping me|message me|inform me)\s*(me|us)?\s*(when|if|once)?\s*/i] *)
Definition alert_prefix : apattern :=
  APattern
    (ASeq Bol
       (Plain
          (Seqs [Group 1 (Alts [Lit "alert"; Lit "notify"; Lit "tell";
                                Lit "watch"; Lit "let me know"; Lit "ping me";
                                Lit "message me"; Lit "inform me"]);
                 spaces0;
                 Opt (Group 2 (Alt (Lit "me") (Lit "us")));
                 spaces0;
                 Opt (Group 3 when_if_once);
                 spaces0])))
    true.

(** [/\s*(exceeds?|above|over|below|under|reaches|hits|drops?|falls?|goes?|rises?|climbs?|dips?|declines?|sinks?)\s*(\d+(?:\.\d+)?)\s*(%|percent|cents?)?\s*/gi] *)
Definition threshold_phrase : apattern :=
  APattern
    (Plain
       (Seqs [spaces0;
              Group 1 (Alts [s_opt "exceed"; Lit "above"; Lit "over";
                             Lit "below"; Lit "under"; Lit "reaches";
                             Lit "hits"; s_opt "drop"; s_opt "fall";
                             s_opt "goe"; s_opt "rise"; s_opt "climb";
                             s_opt "dip"; s_opt "decline"; s_opt "sink"]);
              spaces0; decimal 2; spaces0; unit_opt 3; spaces0]))
    true.

(** [/\s*,?\s*(let me know|notify me|alert me|tell me).*$/i] *)
Definition trailing_phrase : apattern :=
  APattern
    (ASeq
       (Plain
          (Seqs [spaces0; Opt (Chr ","); spaces0;
                 Group 1 (Alts [Lit "let me know"; Lit "notify me";
                                Lit "alert me"; Lit "tell me"]);
                 Star true (Cls AnyChar)]))
       Eol)
    true.

(** [/\s+/g] *)
Definition white_run : apattern := APattern (Plain spaces1) false.

Definition extractSubject (text : string) : string :=
  (* remove common alert prefixes *)
  let cleaned := replace alert_prefix "" text in
  (* remove threshold phrases *)
  let cleaned := replace_all threshold_phrase "" cleaned in
  (* remove trailing phrases *)
  let cleaned := replace trailing_phrase "" cleaned in
  (* clean up *)
  let cleaned := JS.trim (replace_all white_run " " cleaned) in
  or_string cleaned text.

(** [/[A-Z][a-z]+(?:\s+[A-Z][a-z]+)*/g] *)
Definition named_entity : apattern :=
  APattern
    (Plain
       (Seqs [Cls upper_case; Plus true (Cls lower_case);
              Star true (Seqs [spaces1; Cls upper_case;
                               Plus true (Cls lower_case)])]))
    false.

Definition topicPatterns : list apattern :=
  [ (* /(?:about|on|for|regarding)\s+(.+?)(?:\s+(?:odds|probability|chance|market)|$)/i *)
    APattern
      (ASeq
         (Plain (Seqs [Alts [Lit "about"; Lit "on"; Lit "for"; Lit "regarding"];
                       spaces1; subject]))
         (AAlt
            (Plain (Seq spaces1
                      (Alts [Lit "odds"; Lit "probability"; Lit "chance";
                             Lit "market"])))
            Eol))
      true;
    (* /(.+?)\s+(?:election|approval|outcome|decision|vote|result)/i *)
    APattern
      (Plain (Seqs [subject; spaces1;
                    Alts [Lit "election"; Lit "approval"; Lit "outcome";
                          Lit "decision"; Lit "vote"; Lit "result"]]))
      true;
    (* /(?:will|if)\s+(.+?)\s+(?:win|pass|happen|be\s+approved)/i *)
    APattern
      (Plain (Seqs [Alt (Lit "will") (Lit "if"); spaces1; subject; spaces1;
                    Alts [Lit "win"; Lit "pass"; Lit "happen";
                          Seqs [Lit "be"; spaces1; Lit "approved"]]]))
      true ].

(** The loop over [topicPatterns]: the trimmed first group of each
    pattern that matches. *)
Definition topics (request : string) : list string :=
  Parser.filter_map
    (fun pattern =>
       option_map (fun m => JS.trim (group 1 m)) (aexec pattern request))
    topicPatterns.

(** [subject.split(/\s+/).filter(w => w.length > 3)] and
    [words.slice(0, 3)] *)
Definition long_words (subject : string) : list string :=
  List.filter (fun w => Nat.ltb 3 (String.length w))
    (split (Pattern spaces1 false "\s+") subject).

(** Extract search keywords from natural language *)
Definition extractSearchKeywords (request : string) : list string :=
  let subject := extractSubject request in
  (* named entities (capitalized words) *)
  let keywords := default [] (match_all named_entity subject) in
  (* topic keywords *)
  let keywords := (keywords ++ topics request)%list in
  (* fallback to subject words *)
  let keywords :=
    match keywords with
    | [] => firstn 3 (long_words subject)
    | _ => keywords
    end in
  unique keywords.

End Keywords.

(** *** Vocabulary for the properties of the keyword extraction *)

Module KeywordsVocabulary.
Import Regex.
Local Open Scope string_scope.

(** The number of white-space characters the text starts with. *)
Fixpoint white_prefix (s : string) : nat :=
  match s with
  | String c t => if JS.is_white c then S (white_prefix t) else O
  | EmptyString => O
  end.

(** Every run of white space replaced by one space; [in_run] tells that
    the characters before belong to a run already replaced. *)
Fixpoint collapse (in_run : bool) (s : string) : string :=
  match s with
  | EmptyString => EmptyString
  | String c t =>
      if JS.is_white c then
        if in_run then collapse true t else String " " (collapse true t)
      else String c (collapse false t)
  end.

Definition starts_black (s : string) : bool :=
  match s with
  | String c _ => negb (JS.is_white c)
  | EmptyString => true
  end.

(** The only white space is single spaces, each followed by a character
    that is not white space, or by the end. *)
Fixpoint single_spaced (s : string) : bool :=
  match s with
  | EmptyString => true
  | String c t =>
      (negb (JS.is_white c) || (Ascii.eqb c " " && starts_black t))
      && single_spaced t
  end.

(** The state after the white space at the start of [s]. *)
Fixpoint after_white (before : option ascii) (s : string)
    (cs : list (nat * string)) : mstate :=
  match s with
  | String c t =>
      if JS.is_white c then after_white (Some c) t cs
      else MState before s cs
  | EmptyString => MState before s cs
  end.

End KeywordsVocabulary.

(** ** Vocabulary for the captures of a match *)

Module Captures.
Import Regex.
Local Open Scope string_scope.

(** The capturing groups of an expression, with their bodies. *)
Fixpoint groups_of (r : regex) : list (nat * regex) :=
  match r with
  | Seq r1 r2 => (groups_of r1 ++ groups_of r2)%list
  | Alt r1 r2 => (groups_of r1 ++ groups_of r2)%list
  | Star _ r1 => groups_of r1
  | Group n r1 => (n, r1) :: groups_of r1
  | _ => []
  end.

(** The groups that take part in every match. *)
Fixpoint sure_groups (r : regex) : list nat :=
  match r with
  | Seq r1 r2 => (sure_groups r1 ++ sure_groups r2)%list
  | Alt r1 r2 =>
      List.filter (fun n => existsb (Nat.eqb n) (sure_groups r2))
        (sure_groups r1)
  | Group n r1 => n :: sure_groups r1
  | _ => []
  end.

(** Every capture of [new] is a word of a group with that number, and a
    part of the text [w] that was read. *)
Definition captured (ic : bool) (gs : list (nat * regex)) (w : string)
    (new : list (nat * string)) : Prop :=
  forall n v, In (n, v) new ->
    exists b, In (n, b) gs /\ lang ic b v /\ occurs v w.

(** A matcher for [r] is sound on captures when every success reads a
    word of [r] and adds captures of the groups of [r], one at least for
    each group that is sure to take part. *)
Definition capture_sound_on (ic : bool) (r : regex) (sure : list nat)
    (m : (mstate -> option mstate) -> mstate -> option mstate) : Prop :=
  forall k s res,
    m k s = Some res ->
    exists w s' new,
      rest s = w ++ rest s' /\ lang ic r w /\ k s' = Some res /\
      caps s' = (new ++ caps s)%list /\
      captured ic (groups_of r) w new /\
      (forall n, In n sure -> exists v, In (n, v) new).

(** Group [n] is part of every match and has one body, [b]. *)
Definition sure_group (r : regex) (n : nat) (b : regex) : Prop :=
  In n (sure_groups r) /\ forall b', In (n, b') (groups_of r) -> b' = b.

End Captures.

(** ** The first version of the parser *)

(** The workflow module that the enhanced one replaced has its own
    [parseAlertRequest]: three patterns, and no fallback. *)

Module Legacy.
Import Regex Parser.
Local Open Scope string_scope.

(** The result: [threshold] is what [parseInt] returns. *)
Module Config.
Record t := mk {
  marketId : string;
  outcome : string;
  threshold : Double.t;
  direction : Direction;
  notifyUrl : string
}.
End Config.

(** [(\d+)] as capturing group [n] *)
Definition integer (n : nat) : regex := Group n digits1.

Definition EXCEED_WORDS : list string :=
  ["exceed"; "above"; "over"; "greater than"].
Definition BELOW_WORDS : list string :=
  ["fall below"; "below"; "under"; "less than"].
Definition REACH_WORDS : list string := ["reaches"; "hits"; "gets to"].

Definition patterns : list pattern :=
  [ (* "when X odds exceed/above Y%" *)
    Pattern
      (Seqs [Lit "when"; spaces1; subject; spaces1; s_opt "odd"; spaces1;
             Group 2 (Alts (List.map Lit EXCEED_WORDS));
             spaces1; integer 3; Opt (Chr "%")])
      true
      "when\s+(.+?)\s+odds?\s+(exceed|above|over|greater than)\s+(\d+)%?";
    (* "when X odds fall below/under Y%" *)
    Pattern
      (Seqs [Lit "when"; spaces1; subject; spaces1; s_opt "odd"; spaces1;
             Group 2 (Alts (List.map Lit BELOW_WORDS));
             spaces1; integer 3; Opt (Chr "%")])
      true
      "when\s+(.+?)\s+odds?\s+(fall below|below|under|less than)\s+(\d+)%?";
    (* "if X reaches Y%" *)
    Pattern
      (Seqs [Lit "if"; spaces1; subject; spaces1;
             Group 2 (Alts (List.map Lit REACH_WORDS));
             spaces1; integer 3; Opt (Chr "%")])
      true
      "if\s+(.+?)\s+(reaches|hits|gets to)\s+(\d+)%?" ].

Definition ABOVE_WORDS : list string :=
  ["exceed"; "above"; "over"; "greater than"; "reaches"; "hits"; "gets to"].

Definition isAbove (direction : string) : bool :=
  existsb (fun d => JS.includes (JS.toLowerCase direction) d) ABOVE_WORDS.

Fixpoint parse_loop (ps : list pattern) (request notifyUrl : string)
    : option Config.t :=
  match ps with
  | [] => None
  | p :: ps' =>
      match exec p request with
      | Some m =>
          Some {| Config.marketId := "";
                  Config.outcome := "Yes";
                  Config.threshold := Globals.parseInt (group 3 m);
                  Config.direction :=
                    if isAbove (group 2 m) then above else below;
                  Config.notifyUrl := notifyUrl |}
      | None => parse_loop ps' request notifyUrl
      end
  end.

Definition parseAlertRequest (request notifyUrl : string) : option Config.t :=
  parse_loop patterns request notifyUrl.

(** The words that announce a direction. *)
Definition direction_words (d : Direction) : list string :=
  match d with above => ABOVE_WORDS | below => BELOW_WORDS end.

End Legacy.

(** * Properties of strings and of the matcher *)

Module RegexFacts.
Import Regex.
Local Open Scope string_scope.
Local Arguments String.append : simpl nomatch.

Lemma append_assoc (a b c : string) : (a ++ b) ++ c = a ++ (b ++ c).
Proof. induction a as [|x a IH]; cbn; [reflexivity|]. rewrite IH. reflexivity. Qed.

Lemma append_nil_r (a : string) : a ++ "" = a.
Proof. induction a as [|x a IH]; cbn; [reflexivity|]. rewrite IH. reflexivity. Qed.

Lemma length_append (a b : string) :
  String.length (a ++ b) = (String.length a + String.length b)%nat.
Proof. induction a as [|x a IH]; cbn; [reflexivity|]. rewrite IH. reflexivity. Qed.

Lemma toLowerCase_append (a b : string) :
  JS.toLowerCase (a ++ b) = JS.toLowerCase a ++ JS.toLowerCase b.
Proof. induction a as [|x a IH]; cbn; [reflexivity|]. rewrite IH. reflexivity. Qed.

Lemma startsWith_spec (s p : string) :
  JS.startsWith s p = true <-> exists post, s = p ++ post.
Proof.
  revert s. induction p as [|a p IH]; intros s; cbn.
  - split; [intros _; exists s; reflexivity|reflexivity].
  - destruct s as [|b s].
    + split; [discriminate|]. intros [post H]. discriminate.
    + rewrite andb_true_iff, Ascii.eqb_eq, IH. split.
      * intros [-> [post ->]]. exists post. reflexivity.
      * intros [post H]. injection H as -> ->. split; [reflexivity|].
        exists post. reflexivity.
Qed.

Lemma includes_spec (s sub : string) :
  JS.includes s sub = true <-> occurs sub s.
Proof.
  unfold occurs. induction s as [|c s IH].
  - cbn. rewrite orb_false_r, startsWith_spec. split.
    + intros [post H]. exists "", post. exact H.
    + intros (pre & post & H). destruct pre; [exists post; exact H|discriminate].
  - cbn [JS.includes]. rewrite orb_true_iff, startsWith_spec, IH. split.
    + intros [[post H]|(pre & post & H)].
      * exists "", post. exact H.
      * exists (String c pre), post. cbn. rewrite H. reflexivity.
    + intros (pre & post & H). destruct pre as [|x pre]; cbn in H.
      * left. exists post. exact H.
      * right. injection H as -> H. exists pre, post. exact H.
Qed.

Lemma occurs_append (w a b c : string) : occurs w b -> occurs w (a ++ b ++ c).
Proof.
  intros (pre & post & ->). exists (a ++ pre), (post ++ c).
  rewrite !append_assoc. reflexivity.
Qed.

(** ** The matcher only accepts words of the language *)

Lemma step_char_sound ok k s res :
  step_char ok k s = Some res ->
  exists x s', rest s = String x (rest s') /\ ok x = true /\ k s' = Some res.
Proof.
  unfold step_char. destruct (rest s) as [|x t] eqn:E; [discriminate|].
  destruct (ok x) eqn:Hok; [|discriminate]. intros H.
  exists x, (MState (Some x) t (caps s)). auto.
Qed.

Lemma star_loop_sound ic greedy r body :
  sound_on ic r body ->
  forall fuel, sound_on ic (Star greedy r)
                 (fun k s => star_loop body greedy k fuel s).
Proof.
  intros Hbody fuel k. induction fuel as [|fuel IH]; intros s res H.
  - cbn in H. exists "", s. split; [reflexivity|]. split; [constructor|exact H].
  - cbn [star_loop] in H.
    set (next := fun s1 : mstate => _) in H.
    assert (Hiter : forall res', body next s = Some res' ->
              exists w s', rest s = w ++ rest s' /\
                           lang ic (Star greedy r) w /\ k s' = Some res').
    { intros res' Hb. apply Hbody in Hb as (w1 & s1 & E1 & L1 & Hk1).
      unfold next in Hk1.
      destruct (remaining s1 <? remaining s)%nat; [|discriminate].
      apply IH in Hk1 as (w2 & s2 & E2 & L2 & Hk2).
      exists (w1 ++ w2), s2. rewrite append_assoc, <- E2, <- E1.
      split; [reflexivity|]. split; [constructor; assumption|exact Hk2]. }
    assert (Hstop : forall res', k s = Some res' ->
              exists w s', rest s = w ++ rest s' /\
                           lang ic (Star greedy r) w /\ k s' = Some res').
    { intros res' Hk. exists "", s. split; [reflexivity|].
      split; [constructor|exact Hk]. }
    clearbody next. destruct greedy.
    + destruct (body next s) as [res1|] eqn:Hb.
      * injection H as <-. apply Hiter. reflexivity.
      * apply Hstop. exact H.
    + destruct (k s) as [res1|] eqn:Hk.
      * injection H as <-. apply Hstop. reflexivity.
      * apply Hiter. exact H.
Qed.

Lemma rmatch_sound ic r : sound_on ic r (rmatch ic r).
Proof.
  induction r as [|c|cl|r1 IH1 r2 IH2|r1 IH1 r2 IH2|g r1 IH1|n r1 IH1|];
    intros k s res H; cbn in H.
  - exists "", s. split; [reflexivity|]. split; [constructor|exact H].
  - apply step_char_sound in H as (x & s' & E & Hok & Hk).
    exists (String x ""), s'. split; [exact E|]. split; [constructor|]; assumption.
  - apply step_char_sound in H as (x & s' & E & Hok & Hk).
    exists (String x ""), s'. split; [exact E|]. split; [constructor|]; assumption.
  - apply IH1 in H as (w1 & s1 & E1 & L1 & H).
    apply IH2 in H as (w2 & s2 & E2 & L2 & H).
    exists (w1 ++ w2), s2. rewrite append_assoc, <- E2, <- E1.
    split; [reflexivity|]. split; [constructor; assumption|exact H].
  - destruct (rmatch ic r1 k s) as [res1|] eqn:H1.
    + injection H as <-. apply IH1 in H1 as (w & s' & E & L & Hk).
      exists w, s'. split; [exact E|]. split; [apply lang_alt_l|]; assumption.
    + apply IH2 in H as (w & s' & E & L & Hk).
      exists w, s'. split; [exact E|]. split; [apply lang_alt_r|]; assumption.
  - apply (star_loop_sound ic g r1 _ IH1) in H. exact H.
  - apply IH1 in H as (w & s1 & E & L & Hk).
    exists w, (set_cap n (consumed s s1) s1).
    split; [exact E|]. split; [constructor|]; assumption.
  - destruct (at_boundary s); [|discriminate].
    exists "", s. split; [reflexivity|]. split; [constructor|exact H].
Qed.

Lemma match_at_sound p before s i m :
  match_at p before s i = Some m ->
  exists w post, s = w ++ post /\ lang (ignoreCase p) (body p) w.
Proof.
  unfold match_at.
  destruct (rmatch _ _ _ _) as [s1|] eqn:H; [|discriminate]. intros _.
  apply rmatch_sound in H as (w & s' & E & L & _).
  exists w, (rest s'). split; [exact E|exact L].
Qed.

Lemma search_from_sound p before s i m :
  search_from p before s i = Some m ->
  exists w, lang (ignoreCase p) (body p) w /\ occurs w s.
Proof.
  revert before i. induction s as [|c s IH]; intros before i H; cbn in H.
  - destruct (match_at p before "" i) as [m'|] eqn:Hm; [|discriminate].
    apply match_at_sound in Hm as (w & post & E & L).
    exists w. split; [exact L|]. exists "", post. exact E.
  - destruct (match_at p before (String c s) i) as [m'|] eqn:Hm.
    + apply match_at_sound in Hm as (w & post & E & L).
      exists w. split; [exact L|]. exists "", post. exact E.
    + apply IH in H as (w & L & pre & post & E).
      exists w. split; [exact L|]. exists (String c pre), post.
      cbn. rewrite E. reflexivity.
Qed.

(** A successful [test] exhibits a word of the language inside the text. *)
Lemma test_sound p text :
  test p text = true ->
  exists w, lang (ignoreCase p) (body p) w /\ occurs w text.
Proof.
  unfold test, exec.
  destruct (search_from p None text 0) as [m|] eqn:H; [|discriminate].
  intros _. eapply search_from_sound. exact H.
Qed.

(** ** The fuel of the loops is enough *)

Lemma star_loop_ext body greedy fuel :
  extensional body -> extensional (fun k s => star_loop body greedy k fuel s).
Proof.
  intros Hb k1 k2 Hk. induction fuel as [|fuel IH]; intros s; cbn [star_loop].
  - apply Hk.
  - rewrite (Hk s).
    rewrite (Hb _ (fun s1 => if (remaining s1 <? remaining s)%nat
                            then star_loop body greedy k2 fuel s1 else None)).
    + reflexivity.
    + intros s1. destruct (remaining s1 <? remaining s)%nat; [apply IH|reflexivity].
Qed.

Lemma rmatch_ext ic r : extensional (rmatch ic r).
Proof.
  induction r as [|c|cl|r1 IH1 r2 IH2|r1 IH1 r2 IH2|g r1 IH1|n r1 IH1|];
    intros k1 k2 Hk s; cbn [rmatch].
  - apply Hk.
  - unfold step_char. destruct (rest s); [reflexivity|].
    destruct (char_matches ic c a); [apply Hk|reflexivity].
  - unfold step_char. destruct (rest s); [reflexivity|].
    destruct (in_class cl a); [apply Hk|reflexivity].
  - apply IH1. intros s1. apply IH2. exact Hk.
  - rewrite (IH1 k1 k2 Hk), (IH2 k1 k2 Hk). reflexivity.
  - apply (star_loop_ext _ g (remaining s) IH1 k1 k2 Hk).
  - apply IH1. intros s1. apply Hk.
  - destruct (at_boundary s); [apply Hk|reflexivity].
Qed.

(** Once the fuel covers the characters left, more fuel changes nothing. *)
Lemma star_loop_fuel ic r body greedy k fuel s :
  extensional body -> sound_on ic r body -> (remaining s <= fuel)%nat ->
  star_loop body greedy k (S fuel) s = star_loop body greedy k fuel s.
Proof.
  intros Hb Hs. revert s. induction fuel as [|fuel IH]; intros s Hfuel.
  - cbn [star_loop].
    assert (Hnone : body (fun s1 => if (remaining s1 <? remaining s)%nat
                                    then k s1 else None) s = None).
    { destruct (body _ s) as [res|] eqn:E; [|reflexivity].
      apply Hs in E as (w & s1 & _ & _ & E).
      destruct (remaining s1 <? remaining s)%nat eqn:L; [|discriminate].
      apply Nat.ltb_lt in L. lia. }
    rewrite Hnone. destruct greedy; [reflexivity|].
    destruct (k s); reflexivity.
  - cbn [star_loop].
    rewrite (Hb _ (fun s1 => if (remaining s1 <? remaining s)%nat
                            then star_loop body greedy k fuel s1 else None)).
    + reflexivity.
    + intros s1. destruct (remaining s1 <? remaining s)%nat eqn:L; [|reflexivity].
      apply Nat.ltb_lt in L.
      change (star_loop body greedy k (S fuel) s1 = star_loop body greedy k fuel s1).
      apply IH. lia.
Qed.

Lemma star_fuel_enough ic greedy r k s fuel :
  (remaining s <= fuel)%nat ->
  star_loop (rmatch ic r) greedy k fuel s = rmatch ic (Star greedy r) k s.
Proof.
  intros H. cbn [rmatch].
  induction H as [|fuel H IH]; [reflexivity|].
  rewrite (star_loop_fuel ic r) by (auto using rmatch_ext, rmatch_sound).
  exact IH.
Qed.

Lemma take_nonempty n s c t : JS.take n s = String c t -> (0 < n)%nat.
Proof. destruct n; [destruct s; discriminate|lia]. Qed.

Lemma match_at_after p before s i m :
  match_at p before s i = Some m ->
  (String.length (after m) <= String.length s)%nat /\
  (matched m <> "" -> String.length (after m) < String.length s)%nat.
Proof.
  unfold match_at.
  destruct (rmatch _ _ _ _) as [s1|] eqn:H; [|discriminate].
  intros E. injection E as <-. cbn [after matched].
  apply rmatch_sound in H as (w & s' & E & _ & E').
  injection E' as <-. cbn [rest] in E.
  split.
  - rewrite E, length_append. lia.
  - unfold consumed, remaining. cbn [rest]. intros Hne.
    destruct (JS.take _ s) as [|c t] eqn:Ht; [contradiction|].
    apply take_nonempty in Ht. lia.
Qed.

Lemma split_loop_cons fuel p before c t piece n :
  split_loop (S fuel) p before (String c t) piece n =
    match match_at p before (String c t) 0 with
    | Some m =>
        match matched m, n with
        | EmptyString, O => split_loop fuel p (Some c) t piece (S n)
        | EmptyString, S _ =>
            JS.take n piece :: split_loop fuel p (Some c) t (String c t) 1
        | String _ _, _ =>
            JS.take n piece ::
              split_loop fuel p (last_char before (matched m))
                (after m) (after m) 0
        end
    | None => split_loop fuel p (Some c) t piece (S n)
    end.
Proof. reflexivity. Qed.

(** [split] gives its loop enough fuel. *)
Lemma split_loop_fuel p fuel before s piece n :
  (String.length s <= fuel)%nat ->
  split_loop (S fuel) p before s piece n = split_loop fuel p before s piece n.
Proof.
  revert before s piece n. induction fuel as [|fuel IH]; intros before s piece n H.
  - destruct s; [reflexivity|cbn in H; lia].
  - destruct s as [|c t]; [reflexivity|]. cbn in H.
    rewrite (split_loop_cons (S fuel)), (split_loop_cons fuel).
    destruct (match_at p before (String c t) 0) as [m|] eqn:Hm.
    + destruct (match_at_after _ _ _ _ _ Hm) as [_ Hlt]. cbn in Hlt.
      destruct (matched m) as [|c' w'] eqn:Hw.
      * destruct n; (rewrite IH by lia); reflexivity.
      * rewrite IH; [reflexivity|].
        assert (String.length (after m) < S (String.length t))%nat
          by (apply Hlt; discriminate).
        lia.
    + rewrite IH by lia. reflexivity.
Qed.

Lemma split_fuel_enough p fuel text :
  text <> "" -> (String.length text <= fuel)%nat ->
  split_loop fuel p None text text 0 = split p text.
Proof.
  intros Hne H. unfold split. destruct text as [|c t]; [contradiction|].
  induction H as [|fuel H IH]; [reflexivity|].
  rewrite split_loop_fuel by exact H. exact IH.
Qed.

End RegexFacts.

(** * Properties of the parser *)

Module ParserFacts.
Import Regex Parser RegexFacts.
Local Open Scope string_scope.
Local Arguments String.append : simpl nomatch.

Ltac invert_lang :=
  repeat match goal with
  | H : lang _ (Seq _ _) _ |- _ => inversion H; subst; clear H
  | H : lang _ (Alt _ _) _ |- _ => inversion H; subst; clear H
  | H : lang _ (Group _ _) _ |- _ => inversion H; subst; clear H
  | H : lang _ (Chr _) _ |- _ => inversion H; subst; clear H
  | H : lang _ Empty _ |- _ => inversion H; subst; clear H
  | H : lang _ WordBoundary _ |- _ => inversion H; subst; clear H
  end.

Lemma char_matches_lower c x :
  char_matches true c x = true -> JS.lower_char x = JS.lower_char c.
Proof.
  unfold char_matches. intros H. apply Ascii.eqb_eq in H. congruence.
Qed.

(** ** The phrasings of the README and of the workflow test *)

Example documented_phrasings :
  map (fun request => option_map summary (parseAlertRequest request ""))
    ["Alert me when Trump election odds exceed 60%";
     "Notify when Bitcoin ETF approval drops below 30%";
     "Tell me if recession probability goes above 55%";
     "Watch when No hits 40 cents on AI regulation";
     "Trump > 70%";
     "Alert when Trump > 60% AND Biden < 40%";
     "Watch Bitcoin ETF approval at 70 cents";
     "the weather today"]
  = [Some ("Yes", above, "60"); Some ("Yes", below, "30");
     Some ("Yes", above, "55"); Some ("No", above, "40");
     Some ("Yes", above, "70"); Some ("Yes", above, "60");
     Some ("Yes", above, "70"); None].
Proof. vm_compute. reflexivity. Qed.

Example unparseable_rejected :
  parseAlertRequest "the weather today" "" = None /\
  parseMultiConditionAlert "the weather today" "" = [].
Proof. vm_compute. split; reflexivity. Qed.

(** ** Outcome detection *)

(** Every word read by the explicit-mention pattern contains "no". *)
Lemma explicitNo_reads_no w :
  lang true (body explicitNo) w -> occurs "no" (JS.toLowerCase w).
Proof.
  intros H. cbv [body explicitNo Alts Seqs Lit spaces1 Plus Opt] in H.
  invert_lang;
    repeat match goal with
    | H : char_matches true _ _ = true |- _ =>
        apply char_matches_lower in H; cbn in H
    end;
    cbn;
    repeat match goal with
    | H : JS.lower_char _ = _ |- _ => rewrite H; clear H
    end;
    apply includes_spec; reflexivity.
Qed.

Lemma explicitNo_is_cue text :
  test explicitNo text = true -> has_negative_cue text.
Proof.
  intros H. apply test_sound in H as (w & L & pre & post & ->).
  exists "no". split; [left; reflexivity|].
  rewrite !toLowerCase_append. apply occurs_append.
  apply explicitNo_reads_no. exact L.
Qed.

Lemma explicit_no_is_cue text : explicit_no text -> has_negative_cue text.
Proof.
  intros (pre & w & post & -> & Hw & _).
  exists "no". split; [left; reflexivity|].
  rewrite !toLowerCase_append, Hw.
  exists (JS.toLowerCase pre), (JS.toLowerCase post). reflexivity.
Qed.

Lemma keyword_found (lower : string) (kws : list string) :
  existsb (JS.includes lower) kws = true <->
  exists kw, In kw kws /\ occurs kw lower.
Proof.
  rewrite existsb_exists. split; intros (kw & Hin & H); exists kw;
    (split; [exact Hin|]); apply includes_spec; exact H.
Qed.

Lemma detectOutcome_cases text :
  (has_negative_cue text /\ detectOutcome text = "No") \/
  (~ has_negative_cue text /\ detectOutcome text = "Yes").
Proof.
  unfold detectOutcome.
  destruct (test explicitNo text) eqn:Ht.
  { left. split; [apply explicitNo_is_cue; exact Ht|reflexivity]. }
  destruct (existsb _ NO_KEYWORDS) eqn:Hk.
  - left. split; [apply keyword_found; exact Hk|reflexivity].
  - right. split; [|reflexivity]. intros Hcue.
    apply keyword_found in Hcue. congruence.
Qed.

(** C9. An explicit mention of "no" gives "No"; so does any
    negative-sentiment cue; a text without a negative cue gives "Yes",
    whether or not it contains a positive cue. *)
Theorem detectOutcome_priority text :
  (explicit_no text -> detectOutcome text = "No") /\
  (test explicitNo text = true -> detectOutcome text = "No") /\
  (has_negative_cue text -> detectOutcome text = "No") /\
  (~ has_negative_cue text -> detectOutcome text = "Yes").
Proof.
  destruct (detectOutcome_cases text) as [[Hc ->]|[Hc ->]].
  - repeat split; intros H; try reflexivity. contradiction.
  - repeat split; intros H; try reflexivity; exfalso; apply Hc.
    + apply explicit_no_is_cue; exact H.
    + apply explicitNo_is_cue; exact H.
    + exact H.
Qed.

Lemma detectOutcome_priority_witness :
  detectOutcome "Watch when No hits 40 cents" = "No" /\
  detectOutcome "Trump" = "Yes".
Proof.
  split.
  - apply (proj1 (detectOutcome_priority "Watch when No hits 40 cents")).
    exists "Watch when ", "No", " hits 40 cents". repeat split.
  - apply (proj2 (proj2 (proj2 (detectOutcome_priority "Trump")))).
    intros (kw & Hin & Hocc). apply includes_spec in Hocc.
    cbn in Hin.
    repeat (destruct Hin as [<-|Hin]; [vm_compute in Hocc; discriminate|]).
    exact Hin.
Defined.

(** ** Splitting into conditions *)

Example conjunction_splits :
  map (split conjunction)
    ["x and y"; "x OR  y"; "x , y"; "x & y"; "x | y"; "x, y"; "x and"; "sand or"]
  = [["x"; "y"]; ["x"; "y"]; ["x"; "y"]; ["x"; "y"]; ["x"; "y"];
     ["x, y"]; ["x and"]; ["sand or"]].
Proof. vm_compute. reflexivity. Qed.

Lemma match_at_none p before s i j :
  match_at p before s i = None -> match_at p before s j = None.
Proof.
  unfold match_at. destruct (rmatch _ _ _ _); [discriminate|reflexivity].
Qed.

Lemma split_loop_no_match p fuel before s i piece n :
  search_from p before s i = None ->
  split_loop fuel p before s piece n = [piece].
Proof.
  revert fuel before i n. induction s as [|c s IH]; intros fuel before i n H.
  - destruct fuel; reflexivity.
  - destruct fuel as [|fuel]; [reflexivity|].
    cbn [search_from] in H. cbn [split_loop].
    destruct (match_at p before (String c s) i) eqn:Hm; [discriminate|].
    rewrite (match_at_none _ _ _ _ 0%nat Hm).
    apply (IH fuel (Some c) (S i) (S n) H).
Qed.

(** Without a match of the separator, [split] returns the text itself. *)
Lemma split_no_match p text : exec p text = None -> split p text = [text].
Proof.
  unfold exec, split. intros H. destruct text as [|c t].
  - cbn [search_from] in H.
    destruct (match_at p None "" 0); [discriminate|reflexivity].
  - apply (split_loop_no_match p _ None _ 0%nat). exact H.
Qed.

Lemma collect_filter_map {A B} (f : A -> option B) (l : list A) (acc : list B) :
  fold_left (fun results x =>
               match f x with
               | Some y => (results ++ [y])%list
               | None => results
               end) l acc
  = (acc ++ filter_map f l)%list.
Proof.
  revert acc. induction l as [|x l IH]; intros acc; cbn.
  - rewrite app_nil_r. reflexivity.
  - rewrite IH. destruct (f x); [|reflexivity].
    rewrite <- app_assoc. reflexivity.
Qed.

(** ** Threshold scale *)

(** C3. Percent, "percent" and "cents" thresholds come out as written, but
    a decimal fraction does not come out on the 0-100 scale: the fallback
    reads "0.60" as 6000 and "0.6" as 600 ([extractPercentage] captures the
    digits after "0." and multiplies them by 100) and ".6" as 6 (the digits
    after the point, as they are); the structured patterns read "0.60" as
    0.6. *)
Theorem decimal_fraction_off_scale :
  threshold_of "Trump above 60%" = Some "60" /\
  threshold_of "Trump above 60 percent" = Some "60" /\
  threshold_of "Trump above 60 cents" = Some "60" /\
  threshold_of "Trump above 0.60" = Some "6000" /\
  threshold_of "Trump above 0.6" = Some "600" /\
  threshold_of "Trump above .6" = Some "6" /\
  threshold_of "Trump > 0.60" = Some "0.6" /\
  option_map Number_toString (extractPercentage "0.60") = Some "6000".
Proof. vm_compute. repeat split. Qed.

End ParserFacts.

(** * Properties of numbers and of their text *)

Module NumberFacts.
Import Regex RegexFacts.
Local Open Scope string_scope.
Local Open Scope Z_scope.
Local Arguments String.append : simpl nomatch.

(** ** Order and arithmetic on numbers *)

Lemma pow10_pos n : 0 < pow10 n.
Proof. unfold pow10. apply Z.pow_pos_nonneg; lia. Qed.

Lemma toQ_den x : Z.pos (Qden (toQ x)) = pow10 (scale x).
Proof. unfold toQ; simpl. apply Z2Pos.id, pow10_pos. Qed.

Lemma num_leb_Qle a b : num_leb a b = true <-> (toQ a <= toQ b)%Q.
Proof.
  unfold num_leb, Qle. rewrite !toQ_den. simpl. apply Z.leb_le.
Qed.

Lemma num_eq_Qeq a b : num_eq a b <-> (toQ a == toQ b)%Q.
Proof. unfold num_eq, Qeq. rewrite !toQ_den. simpl. reflexivity. Qed.

Lemma toQ_mul a b : (toQ (num_mul a b) == toQ a * toQ b)%Q.
Proof.
  unfold Qeq, Qmult. simpl Qnum. cbn [Qden].
  rewrite Pos2Z.inj_mul, !toQ_den. simpl.
  unfold pow10. rewrite Nat2Z.inj_add, Z.pow_add_r by lia. ring.
Qed.

Lemma toQ_of_Z z : (toQ (num_of_Z z) == inject_Z z)%Q.
Proof. unfold toQ, num_of_Z, inject_Z, Qeq; simpl. reflexivity. Qed.

Lemma toQ_percent p : (toQ (num_mul p (num_of_Z 100)) == toQ p * 100)%Q.
Proof. rewrite toQ_mul, toQ_of_Z. reflexivity. Qed.

(** ** Printing, on examples *)

Example number_text :
  map Number_toString
    [Num 60 0; Num 600 1; Num 6 1; Num 605 1; Num 6000 0; Num (-5) 0;
     Num 1 6; Num 1 7; Num 123 9; Num (10 ^ 20) 0; Num (10 ^ 21) 0]
  = ["60"; "60"; "0.6"; "60.5"; "6000"; "-5";
     "0.000001"; "1e-7"; "1.23e-7"; "100000000000000000000"; "1e+21"].
Proof. vm_compute. reflexivity. Qed.

Example fixed_text :
  map (toFixed 1) [Num 65 0; Num 6505 2; Num 6504 2; Num 4 2; Num (-4) 2]
  = ["65.0"; "65.1"; "65.0"; "0.0"; "-0.0"].
Proof. vm_compute. reflexivity. Qed.

(** ** Digits *)

Lemma digit_value_char d : 0 <= d < 10 -> digit_value (digit_char d) = d.
Proof.
  intros H. unfold digit_value, digit_char.
  rewrite nat_ascii_embedding by lia. lia.
Qed.

Lemma digits_value_append a s1 s2 :
  digits_value a (s1 ++ s2) = digits_value (digits_value a s1) s2.
Proof. revert a. induction s1 as [|c s1 IH]; intros a; cbn; [reflexivity|apply IH]. Qed.

Lemma digits_aux_acc fuel n acc :
  digits_aux fuel n acc = digits_aux fuel n "" ++ acc.
Proof.
  revert n acc. induction fuel as [|fuel IH]; intros n acc; cbn [digits_aux].
  - reflexivity.
  - destruct (n <? 10); [reflexivity|].
    rewrite IH, (IH _ (String _ "")), append_assoc. reflexivity.
Qed.

Lemma log2_div10 n fuel :
  10 <= n -> Z.log2 n <= Z.of_nat (S fuel) ->
  Z.log2 (n / 10) <= Z.of_nat fuel.
Proof.
  intros Hn Hl.
  assert (H1 : 0 < n / 10) by (apply Z.div_str_pos; lia).
  assert (H2 : Z.log2 (2 * (n / 10)) = Z.succ (Z.log2 (n / 10)))
    by (apply Z.log2_double; exact H1).
  assert (H3 : Z.log2 (2 * (n / 10)) <= Z.log2 n).
  { apply Z.log2_le_mono. pose proof (Z.div_mod n 10).
    pose proof (Z.mod_pos_bound n 10). lia. }
  lia.
Qed.

Lemma digits_aux_value fuel n :
  0 <= n -> Z.log2 n <= Z.of_nat fuel ->
  exists L, forall a, digits_value a (digits_aux fuel n "") = a * 10 ^ Z.of_nat L + n.
Proof.
  revert n. induction fuel as [|fuel IH]; intros n Hn Hl.
  - assert (n < 10).
    { destruct (Z.eq_dec n 0) as [->|]; [lia|].
      assert (n < 2 ^ Z.succ (Z.log2 n)) by (apply Z.log2_spec; lia).
      assert (Z.log2 n = 0) by (pose proof (Z.log2_nonneg n); lia).
      rewrite H0 in H. cbn in H. lia. }
    exists 1%nat. intros a. cbn. rewrite Z.mod_small, digit_value_char by lia. lia.
  - cbn [digits_aux]. destruct (n <? 10) eqn:E.
    + apply Z.ltb_lt in E. exists 1%nat. intros a. cbn.
      rewrite Z.mod_small, digit_value_char by lia. lia.
    + apply Z.ltb_ge in E.
      destruct (IH (n / 10)) as [L HL].
      * apply Z.div_pos; lia.
      * apply log2_div10; assumption.
      * exists (S L). intros a. rewrite digits_aux_acc, digits_value_append, HL. cbn [digits_value].
        rewrite digit_value_char by (apply Z.mod_pos_bound; lia).
        rewrite Nat2Z.inj_succ, Z.pow_succ_r by lia.
        pose proof (Z.div_mod n 10). lia.
Qed.

Lemma digits_of_value n : 0 <= n -> digits_value 0 (digits_of n) = n.
Proof.
  intros Hn. unfold digits_of.
  destruct (digits_aux_value (Z.to_nat (Z.log2 n)) n Hn) as [L HL].
  - pose proof (Z.log2_nonneg n). lia.
  - rewrite HL. lia.
Qed.

Lemma digit_char_is_digit d : 0 <= d < 10 -> JS.is_digit (digit_char d) = true.
Proof.
  intros H. unfold JS.is_digit, digit_char.
  rewrite nat_ascii_embedding by lia.
  apply andb_true_iff. split; apply Nat.leb_le; lia.
Qed.

Lemma digit_char_nonzero d : 1 <= d < 10 -> Ascii.eqb (digit_char d) "0" = false.
Proof.
  intros H. apply Ascii.eqb_neq. intros E.
  apply (f_equal digit_value) in E. rewrite digit_value_char in E by lia.
  change (digit_value "0") with 0 in E. lia.
Qed.

Lemma digits_aux_all_digits fuel n acc :
  0 <= n -> all_digits acc = true -> all_digits (digits_aux fuel n acc) = true.
Proof.
  revert n acc. induction fuel as [|fuel IH]; intros n acc Hn Ha; cbn [digits_aux].
  - cbn. rewrite digit_char_is_digit by (apply Z.mod_pos_bound; lia). exact Ha.
  - assert (Ha' : all_digits (String (digit_char (n mod 10)) acc) = true).
    { cbn. rewrite digit_char_is_digit by (apply Z.mod_pos_bound; lia). exact Ha. }
    destruct (n <? 10); [exact Ha'|].
    apply IH; [apply Z.div_pos; lia|exact Ha'].
Qed.

Lemma small_of_log2 n : 0 <= n -> Z.log2 n <= 0 -> n < 10.
Proof.
  intros Hn Hl. destruct (Z.eq_dec n 0) as [->|]; [lia|].
  assert (n < 2 ^ Z.succ (Z.log2 n)) by (apply Z.log2_spec; lia).
  assert (Z.log2 n = 0) by (pose proof (Z.log2_nonneg n); lia).
  rewrite H0 in H. cbn in H. lia.
Qed.

Lemma digits_aux_head fuel n acc :
  0 < n -> Z.log2 n <= Z.of_nat fuel ->
  head_nonzero (digits_aux fuel n acc) = true.
Proof.
  revert n acc. induction fuel as [|fuel IH]; intros n acc Hn Hl; cbn [digits_aux].
  - pose proof (small_of_log2 n ltac:(lia) Hl).
    cbn. rewrite Z.mod_small, digit_char_nonzero by lia. reflexivity.
  - destruct (n <? 10) eqn:E.
    + apply Z.ltb_lt in E. cbn. rewrite Z.mod_small, digit_char_nonzero by lia. reflexivity.
    + apply Z.ltb_ge in E. apply IH; [apply Z.div_str_pos; lia|apply log2_div10; assumption].
Qed.

Lemma digits_of_all_digits n : 0 <= n -> all_digits (digits_of n) = true.
Proof. intros. apply digits_aux_all_digits; [assumption|reflexivity]. Qed.

Lemma digits_of_head n : 0 < n -> head_nonzero (digits_of n) = true.
Proof.
  intros. apply digits_aux_head; [assumption|].
  pose proof (Z.log2_nonneg n). lia.
Qed.

(** ** Trailing zeros *)




(** [s] is its stripped part followed by zeros. *)





(** ** Characters of a text *)


Lemma all_digits_append a b : all_digits (a ++ b) = all_digits a && all_digits b.
Proof. induction a as [|x a IH]; cbn; [reflexivity|]. rewrite IH, andb_assoc. reflexivity. Qed.










Lemma length_take n s : (n <= String.length s)%nat -> String.length (JS.take n s) = n.
Proof.
  revert s. induction n as [|n IH]; intros s H; destruct s as [|x s]; cbn in *; try reflexivity; try lia.
  rewrite IH by lia. reflexivity.
Qed.






(** ** Reading a printed number back *)






(** The first character of a rendered number is a digit. *)


(** ** Printing is injective *)



(** The magnitude, from the significant digits and the point. *)





(** Numbers that print alike are equal. *)


(** ** Printing respects equality *)









(** Equal numbers print alike. *)


End NumberFacts.

(** * Properties of the evaluation engine *)

Module EngineFacts.
Import Engine Samples NumberFacts.

(** ** The evaluation rule *)

Lemma find_token_found market config token :
  find_token market config = Some token ->
  In token (tokens market) /\
  JS.toLowerCase (PolymarketToken.outcome token)
    = JS.toLowerCase (outcome config).
Proof.
  unfold find_token. intros H. apply find_some in H as [Hin Heq].
  split; [exact Hin|]. unfold same_outcome in Heq.
  apply String.eqb_eq in Heq. exact Heq.
Qed.

Lemma find_first {A} (p : A -> bool) (l : list A) (x : A) :
  List.find p l = Some x <->
  exists before after,
    l = before ++ x :: after /\ (forall y, In y before -> p y = false) /\
    p x = true.
Proof.
  induction l as [|y l IH]; cbn [List.find].
  - split; [discriminate|]. intros (before & after & E & _).
    destruct before; discriminate.
  - destruct (p y) eqn:Hy.
    + split.
      * intros E. injection E as <-. exists [], l.
        split; [reflexivity|]. split; [intros z []|exact Hy].
      * intros (before & after & E & Hb & Hx).
        destruct before as [|z before]; cbn in E; injection E as -> E.
        -- reflexivity.
        -- rewrite (Hb z) in Hy by (left; reflexivity). discriminate.
    + rewrite IH. split.
      * intros (before & after & -> & Hb & Hx). exists (y :: before), after.
        split; [reflexivity|]. split; [|exact Hx].
        intros z [<-|Hz]; [exact Hy|apply Hb, Hz].
      * intros (before & after & E & Hb & Hx).
        destruct before as [|z before]; cbn in E; injection E as -> E.
        -- congruence.
        -- exists before, after. split; [exact E|]. split; [|exact Hx].
           intros z' Hz'. apply Hb. right. exact Hz'.
Qed.

Lemma find_token_first market config token :
  find_token market config = Some token <-> first_match market config token.
Proof.
  unfold find_token, first_match. rewrite find_first.
  split; intros (before & after & E & Hb & Hx); exists before, after;
    (split; [exact E|]); unfold same_outcome in *.
  - split; [|apply String.eqb_eq, Hx].
    intros t Ht. apply String.eqb_neq, Hb, Ht.
  - split; [|apply String.eqb_eq, Hx].
    intros t Ht. apply String.eqb_neq, Hb, Ht.
Qed.

(** C4. The condition is evaluated on the first token whose label is the
    outcome of the condition, whatever the case, and it is met exactly
    when [price * 100 >= threshold] (above) or [price * 100 <= threshold]
    (below) in the arithmetic of doubles.  The rounded product is on the
    boundary at a price of 0.60, where a condition above 60 is met; it is
    not at 0.29, where the product is 28.999999999999996 and a condition
    above 29 is not met, nor at 0.07, where the product is
    7.000000000000001 and a condition below 7 is not met. *)
Theorem checkAlertCondition_rounded market config :
  (checkAlertCondition market config = true <->
   exists token,
     first_match market config token /\
     match direction config with
     | above =>
         Double.leb (Double.of_number (threshold config)) (percentage token)
           = true
     | below =>
         Double.leb (percentage token) (Double.of_number (threshold config))
           = true
     end) /\
  checkAlertCondition (sample_market (Num 60 2))
    (sample_config "M" "yes" 60 above) = true /\
  Double.toString (percentage (sample_token (Num 29 2)))
    = "28.999999999999996"%string /\
  checkAlertCondition (sample_market (Num 29 2))
    (sample_config "M" "Yes" 29 above) = false /\
  Double.toString (percentage (sample_token (Num 7 2)))
    = "7.000000000000001"%string /\
  checkAlertCondition (sample_market (Num 7 2))
    (sample_config "M" "Yes" 7 below) = false.
Proof.
  split; [|vm_compute; repeat split].
  unfold checkAlertCondition. split.
  - destruct (find_token market config) as [token|] eqn:Hfind; [|discriminate].
    intros H. exists token. split; [apply find_token_first, Hfind|].
    destruct (direction config); exact H.
  - intros (token & Hfirst & H). apply find_token_first in Hfirst.
    rewrite Hfirst. destruct (direction config); exact H.
Qed.

(** ** The deduplication key *)










(** ** The time stamps *)

Lemma keeps_stamp_dec st id : {keeps_stamp st id} + {~ keeps_stamp st id}.
Proof.
  unfold keeps_stamp.
  destruct (decide (id = "__proto__"%string)) as [E|E]; [|left; left; exact E].
  destruct (lastChecked st !! id) as [t|] eqn:El.
  - left. right. exists t. reflexivity.
  - right. intros [H|[t H]]; [contradiction|discriminate].
Qed.

Lemma set_lastChecked_kept st id now :
  keeps_stamp st id ->
  set_lastChecked st id now
  = {| alertConfigs := alertConfigs st;
       lastChecked := <[id := now]> (lastChecked st);
       triggeredAlerts := triggeredAlerts st |}.
Proof.
  intros H. unfold set_lastChecked.
  rewrite bool_decide_eq_false_2; [reflexivity|].
  intros [E El]. destruct H as [H|[t H]]; [contradiction|congruence].
Qed.

Lemma set_lastChecked_ignored st id now :
  ~ keeps_stamp st id -> set_lastChecked st id now = st.
Proof.
  intros H. unfold set_lastChecked.
  rewrite bool_decide_eq_true_2; [reflexivity|].
  destruct (decide (id = "__proto__"%string)) as [E|E];
    [|exfalso; apply H; left; exact E].
  split; [exact E|].
  destruct (lastChecked st !! id) as [t|] eqn:El; [|reflexivity].
  exfalso. apply H. right. exists t. exact El.
Qed.

Lemma set_lastChecked_configs st id now :
  alertConfigs (set_lastChecked st id now) = alertConfigs st.
Proof. unfold set_lastChecked. destruct (bool_decide _); reflexivity. Qed.

Lemma set_lastChecked_triggered st id now :
  triggeredAlerts (set_lastChecked st id now) = triggeredAlerts st.
Proof. unfold set_lastChecked. destruct (bool_decide _); reflexivity. Qed.

Lemma set_lastChecked_same st id now :
  keeps_stamp st id -> lastChecked (set_lastChecked st id now) !! id = Some now.
Proof.
  intros H. rewrite set_lastChecked_kept by exact H. apply lookup_insert_eq.
Qed.

Lemma set_lastChecked_other st id now id' :
  id <> id' ->
  lastChecked (set_lastChecked st id now) !! id' = lastChecked st !! id'.
Proof.
  intros H. unfold set_lastChecked. destruct (bool_decide _); [reflexivity|].
  apply lookup_insert_ne, H.
Qed.

Lemma set_lastChecked_cases st id now id' :
  lastChecked (set_lastChecked st id now) !! id' = lastChecked st !! id' \/
  lastChecked (set_lastChecked st id now) !! id' = Some now.
Proof.
  destruct (decide (id = id')) as [<-|Hne].
  - destruct (keeps_stamp_dec st id) as [H|H].
    + right. apply set_lastChecked_same, H.
    + left. rewrite set_lastChecked_ignored by exact H. reflexivity.
  - left. apply set_lastChecked_other, Hne.
Qed.

Lemma keeps_stamp_set st id now id' :
  keeps_stamp st id' -> keeps_stamp (set_lastChecked st id now) id'.
Proof.
  intros [H|[t H]]; [left; exact H|]. right.
  destruct (set_lastChecked_cases st id now id') as [E|E]; rewrite E;
    [exists t; exact H|exists now; reflexivity].
Qed.

Lemma stamp_own st id t : lastChecked st !! id = Some t -> stamp st id = Some t.
Proof. intros H. unfold stamp. rewrite H. reflexivity. Qed.

Lemma stamp_same_lookup st st' id :
  lastChecked st' !! id = lastChecked st !! id -> stamp st' id = stamp st id.
Proof. intros H. unfold stamp. rewrite H. reflexivity. Qed.

(** The stamp read after a write is the one written, if it is a number. *)
Lemma stamp_set_same st id now t :
  stamp (set_lastChecked st id now) id = Some t -> t = now.
Proof.
  destruct (keeps_stamp_dec st id) as [H|H].
  - rewrite (stamp_own _ _ now) by (apply set_lastChecked_same, H). congruence.
  - rewrite set_lastChecked_ignored by exact H.
    assert (E : id = "__proto__"%string /\ lastChecked st !! id = None).
    { destruct (decide (id = "__proto__"%string)) as [E|E];
        [|exfalso; apply H; left; exact E].
      split; [exact E|].
      destruct (lastChecked st !! id) as [t'|] eqn:El; [|reflexivity].
      exfalso. apply H. right. exists t'. exact El. }
    destruct E as [-> El]. unfold stamp. rewrite El. discriminate.
Qed.

Lemma rate_limited_due now st config :
  rate_limited now st (marketId config) = false <-> due now st config.
Proof.
  unfold rate_limited, due, last_poll.
  destruct (stamp st (marketId config)) as [t|].
  - rewrite Z.ltb_ge. split.
    + intros H t' E. injection E as <-. exact H.
    + intros H. apply H. reflexivity.
  - split; [intros _ t E; discriminate|reflexivity].
Qed.

Lemma rate_limited_not_due now st config :
  rate_limited now st (marketId config) = true <-> ~ due now st config.
Proof.
  rewrite <- rate_limited_due.
  destruct (rate_limited now st (marketId config)); split; congruence.
Qed.

(** ** One iteration of the loop *)

Section StepFacts.

Context {World : Type}.
Variable fetch : Request -> World -> option Response * World.
Variable isoTime : World -> string.

Local Abbreviation fetchMarketData := (Engine.fetchMarketData fetch).
Local Abbreviation sendAlert := (Engine.sendAlert fetch isoTime).
Local Abbreviation step := (Engine.step fetch isoTime).
Local Abbreviation run_loop := (Engine.run_loop fetch isoTime).
Local Abbreviation executeWorkflow := (Engine.executeWorkflow fetch isoTime).
Local Abbreviation run_pass := (Engine.run_pass fetch isoTime).
Local Abbreviation run_passes := (Engine.run_passes fetch isoTime).

(** A rejected request and a response that is not [ok] both make
    [fetchMarketData] answer null. *)
Lemma fetchMarketData_failed id w :
  (fst (fetch (market_request id) w) = None \/
   exists response, fst (fetch (market_request id) w) = Some response /\
                    ok response = false) ->
  fst (fetchMarketData id w) = None.
Proof.
  unfold Engine.fetchMarketData.
  destruct (fetch (market_request id) w) as [[response|] w']; cbn.
  - intros [H|(response' & H & Hok)]; [discriminate|].
    injection H as <-. rewrite Hok. reflexivity.
  - reflexivity.
Qed.

(** The notifier succeeds exactly when the webhook answers [ok]. *)
Lemma sendAlert_sent config market currentPrice w :
  fst (sendAlert config market currentPrice w) = true <->
  exists response,
    fst (fetch (alert_request isoTime config market currentPrice w) w)
      = Some response /\
    ok response = true.
Proof.
  unfold Engine.sendAlert.
  destruct (fetch _ w) as [[response|] w']; cbn.
  - split; [intros Hok; exists response; auto|].
    intros (response' & H & Hok). injection H as <-. exact Hok.
  - split; [discriminate|]. intros (response' & H & _). discriminate.
Qed.

Lemma step_skip_triggered now r config :
  alertKey config ∈ triggeredAlerts (state r) -> step now r config = r.
Proof.
  intros H. unfold Engine.step. rewrite bool_decide_eq_true_2 by exact H.
  reflexivity.
Qed.

Lemma step_skip_rate_limited now r config :
  ~ due now (state r) config -> step now r config = r.
Proof.
  intros H. apply rate_limited_not_due in H. unfold Engine.step.
  destruct (bool_decide _); [reflexivity|]. rewrite H. reflexivity.
Qed.

Lemma step_unusable now r config fetched w1 :
  polls now r config ->
  fetchMarketData (marketId config) (world r) = (fetched, w1) ->
  ~ usable fetched ->
  step now r config = polled now r config w1.
Proof.
  intros [Hkey Hrate] Hfetch Hun. unfold Engine.step.
  rewrite bool_decide_eq_false_2 by exact Hkey.
  apply rate_limited_due in Hrate. rewrite Hrate, Hfetch.
  destruct fetched as [market|]; [|reflexivity].
  destruct (active market) eqn:Ha, (closed market) eqn:Hc;
    try reflexivity.
  exfalso. apply Hun. exists market. auto.
Qed.

Lemma step_not_met now r config market w1 :
  polls now r config ->
  fetchMarketData (marketId config) (world r) = (Some market, w1) ->
  checkAlertCondition market config = false ->
  step now r config = polled now r config w1.
Proof.
  intros [Hkey Hrate] Hfetch Hmet. unfold Engine.step.
  rewrite bool_decide_eq_false_2 by exact Hkey.
  apply rate_limited_due in Hrate. rewrite Hrate, Hfetch, Hmet.
  destruct (negb (active market) || closed market); reflexivity.
Qed.

Lemma step_met now r config market w1 sent w2 :
  polls now r config ->
  fetchMarketData (marketId config) (world r) = (Some market, w1) ->
  active market = true -> closed market = false ->
  checkAlertCondition market config = true ->
  sendAlert config market (currentPrice_of (find_token market config)) w1
    = (sent, w2) ->
  step now r config =
    let r1 := polled now r config w1 in
    {| state := if sent then push_triggered (state r1) (alertKey config)
                else state r1;
       alerts := if sent
                 then alerts r ++
                        [alert_text market config
                           (currentPrice_of (find_token market config))]
                 else alerts r;
       world := w2;
       trace := trace r1 ++ [Notified config sent] |}.
Proof.
  intros [Hkey Hrate] Hfetch Ha Hc Hmet Hsend.
  unfold Engine.step.
  rewrite bool_decide_eq_false_2 by exact Hkey.
  apply rate_limited_due in Hrate. rewrite Hrate, Hfetch, Ha, Hc, Hmet, Hsend.
  destruct sent; reflexivity.
Qed.

Lemma step_cases now r config :
  step_case now r config (step now r config).
Proof.
  destruct (decide (alertKey config ∈ triggeredAlerts (state r))) as [Hk|Hk].
  { rewrite step_skip_triggered by exact Hk. apply case_skip. auto. }
  destruct (rate_limited now (state r) (marketId config)) eqn:Hr.
  { apply rate_limited_not_due in Hr.
    rewrite step_skip_rate_limited by exact Hr. apply case_skip. auto. }
  apply rate_limited_due in Hr.
  assert (Hp : polls now r config) by (split; assumption).
  destruct (fetchMarketData (marketId config) (world r)) as [fetched w1] eqn:Hf.
  destruct fetched as [market|].
  - destruct (active market) eqn:Ha.
    + destruct (closed market) eqn:Hc.
      * erewrite step_unusable; [apply case_poll; exact Hp|exact Hp|exact Hf|].
        intros (m & Hm & _ & Hc'). congruence.
      * destruct (checkAlertCondition market config) eqn:Hmet.
        -- destruct (sendAlert config market
                       (currentPrice_of (find_token market config)) w1)
             as [sent w2] eqn:Hs.
           erewrite step_met by eassumption. cbn zeta.
           unfold polled at 3. cbn [trace]. rewrite <- app_assoc.
           apply case_notify. exact Hp.
        -- erewrite step_not_met by eassumption. apply case_poll. exact Hp.
    + erewrite step_unusable; [apply case_poll; exact Hp|exact Hp|exact Hf|].
      intros (m & Hm & Ha' & _). congruence.
  - erewrite step_unusable; [apply case_poll; exact Hp|exact Hp|exact Hf|].
    intros (m & Hm & _). congruence.
Qed.

(** ** C5 and C6: what an iteration records *)

(** C5. For a condition that is polled and met, the key enters
    [triggeredAlerts] and a description is appended exactly when the
    notifier succeeds; when it fails only the poll time stamp has changed
    and the condition is polled again once a minute has passed. *)
Theorem firing_gated_on_notifier now r config market w1 sent w2 :
  polls now r config ->
  fetchMarketData (marketId config) (world r) = (Some market, w1) ->
  active market = true -> closed market = false ->
  checkAlertCondition market config = true ->
  sendAlert config market (currentPrice_of (find_token market config)) w1
    = (sent, w2) ->
  let r' := step now r config in
  (alertKey config ∈ triggeredAlerts (state r') <-> sent = true) /\
  (sent = true ->
     triggeredAlerts (state r')
       = triggeredAlerts (state r) ++ [alertKey config] /\
     alerts r' = alerts r ++
       [alert_text market config (currentPrice_of (find_token market config))]) /\
  (sent = false ->
     state r' = set_lastChecked (state r) (marketId config) now /\
     alerts r' = alerts r /\
     forall later, 60000 <= later - now -> polls later r' config).
Proof.
  intros Hp Hf Ha Hc Hmet Hs r'. subst r'.
  rewrite (step_met now r config market w1 sent w2) by assumption.
  destruct Hp as [Hkey Hrate]. cbn zeta.
  destruct sent;
    cbn [state alerts polled push_triggered triggeredAlerts];
    rewrite ?set_lastChecked_triggered.
  - split; [|split].
    + split; [reflexivity|]. intros _. apply elem_of_app. right.
      apply list_elem_of_singleton. reflexivity.
    + intros _. split; reflexivity.
    + discriminate.
  - split; [|split].
    + split; [|discriminate]. intros H. contradiction.
    + discriminate.
    + intros _. split; [reflexivity|]. split; [reflexivity|].
      intros later Hl. split.
      * cbn [state]. rewrite set_lastChecked_triggered. exact Hkey.
      * intros t Ht. cbn [state] in Ht. unfold last_poll in Ht.
        apply stamp_set_same in Ht. subst t. exact Hl.
Qed.

(** C6. When the fetch fails, or the market is inactive or closed, the
    iteration only records the poll time stamp: no alert, no key; the loop
    goes on with the conditions that follow, and those on other markets are
    polled or skipped as they would have been. *)
Theorem transient_skip_isolated now before config rest r0 fetched w1 :
  let r := run_loop now before r0 in
  polls now r config ->
  fetchMarketData (marketId config) (world r) = (fetched, w1) ->
  (fetched = None \/
   exists market, fetched = Some market /\
     (active market = false \/ closed market = true)) ->
  let r' := step now r config in
  state r' = set_lastChecked (state r) (marketId config) now /\
  alerts r' = alerts r /\
  (alertKey config ∉ triggeredAlerts (state r')) /\
  run_loop now (before ++ config :: rest) r0 = run_loop now rest r' /\
  (forall c, marketId c <> marketId config ->
     (polls now r' c <-> polls now r c)).
Proof.
  intros r Hp Hf Hbad r'.
  assert (Hun : ~ usable fetched).
  { intros (m & Hm & Ha & Hc).
    destruct Hbad as [Hn|(m' & Hm' & [Ha'|Hc'])]; congruence. }
  pose proof (step_unusable now r config fetched w1 Hp Hf Hun) as E.
  subst r'. split; [rewrite E; reflexivity|].
  split; [rewrite E; reflexivity|].
  split.
  { rewrite E. cbn [polled state]. rewrite set_lastChecked_triggered.
    apply Hp. }
  split.
  - unfold Engine.run_loop. rewrite fold_left_app. reflexivity.
  - intros c Hc. rewrite E. unfold polls, due, last_poll, polled.
    cbn [state]. rewrite set_lastChecked_triggered.
    rewrite (stamp_same_lookup (state r)
               (set_lastChecked (state r) (marketId config) now))
      by (apply set_lastChecked_other; congruence).
    reflexivity.
Qed.


(** ** A whole pass *)

Lemma run_loop_invariant (P : Run World -> Prop) now configs r :
  (forall r0 c, P r0 -> P (step now r0 c)) ->
  P r -> P (run_loop now configs r).
Proof.
  intros Hstep. revert r. unfold Engine.run_loop.
  induction configs as [|c cs IH]; intros r Hr; cbn; [exact Hr|].
  apply IH, Hstep, Hr.
Qed.

Lemma count_snoc p t e :
  count p (t ++ [e]) = (count p t + if p e then 1 else 0)%nat.
Proof.
  unfold count. rewrite List.filter_app, length_app. cbn.
  destruct (p e); reflexivity.
Qed.

Lemma count_app p t1 t2 : count p (t1 ++ t2) = (count p t1 + count p t2)%nat.
Proof. unfold count. rewrite List.filter_app, length_app. reflexivity. Qed.

Lemma polls_not_yet now id (r : Run World) config :
  polled_once now id r -> polls now r config -> marketId config = id ->
  count (is_fetch_of id) (trace r) = 0%nat.
Proof.
  intros (_ & [H0|[_ Hl]] & _) [_ Hrate] E; [exact H0|]. subst id.
  specialize (Hrate now (stamp_own _ _ _ Hl)). lia.
Qed.

Lemma polled_once_poll now id (r : Run World) config w1 :
  polled_once now id r -> polls now r config ->
  polled_once now id (polled now r config w1).
Proof.
  intros Hinv Hp. pose proof Hinv as (Hkeep & Hc & Hn).
  unfold polled_once, polled. cbn [trace state].
  rewrite !count_snoc. cbn [is_fetch_of is_notify_on].
  split; [apply keeps_stamp_set, Hkeep|].
  destruct (decide (marketId config = id)) as [E|E].
  - pose proof (polls_not_yet now id r config Hinv Hp E) as H0.
    rewrite bool_decide_eq_true_2 by exact E.
    rewrite H0 in *. split; [|lia].
    right. split; [reflexivity|]. rewrite E.
    apply set_lastChecked_same, Hkeep.
  - rewrite bool_decide_eq_false_2 by exact E.
    rewrite !Nat.add_0_r. split; [|exact Hn].
    rewrite set_lastChecked_other by exact E. exact Hc.
Qed.

Lemma polled_once_step now id r config :
  polled_once now id r -> polled_once now id (step now r config).
Proof.
  intros Hinv. destruct (step_cases now r config) as [Hs|w1 Hp|market w1 sent w2 Hp].
  - exact Hinv.
  - apply polled_once_poll; assumption.
  - pose proof (polled_once_poll now id r config w1 Hinv Hp) as (Hkeep & Hc & Hn).
    unfold polled_once. cbn [trace state].
    assert (Hl : lastChecked
              (if sent
               then push_triggered (state (polled now r config w1))
                      (alertKey config)
               else state (polled now r config w1))
            = lastChecked (state (polled now r config w1))).
    { destruct sent; reflexivity. }
    unfold keeps_stamp. rewrite Hl. split; [exact Hkeep|].
    rewrite !(app_assoc (trace r)).
    change (trace r ++ [Fetched config])%list
      with (trace (polled now r config w1)).
    rewrite !count_snoc. cbn [is_fetch_of is_notify_on].
    rewrite Nat.add_0_r. split; [exact Hc|].
    destruct (decide (marketId config = id)) as [E|E].
    + rewrite bool_decide_eq_true_2 by exact E.
      pose proof (polls_not_yet now id r config Hinv Hp E) as H0.
      destruct Hinv as (_ & _ & Hn0).
      cbn [polled trace]. rewrite !count_snoc.
      cbn [is_fetch_of is_notify_on].
      rewrite bool_decide_eq_true_2 by exact E. lia.
    + rewrite bool_decide_eq_false_2 by exact E. lia.
Qed.

(** In one pass a market whose time stamp is kept is fetched at most
    once, so at most one of the conditions on it is evaluated, and the
    notifier is called for at most one of them. *)
Lemma one_fetch_when_kept now st w id :
  keeps_stamp st id ->
  let t := trace (executeWorkflow now st w) in
  (count (is_fetch_of id) t <= 1)%nat /\
  (count (is_notify_on id) t <= 1)%nat.
Proof.
  intros Hkeep t.
  assert (H : polled_once now id (executeWorkflow now st w)).
  { unfold Engine.executeWorkflow. apply run_loop_invariant.
    - intros r0 c. apply polled_once_step.
    - split; [exact Hkeep|]. split; [left; reflexivity|]. cbn. lia. }
  subst t. destruct H as (_ & [H0|[H1 _]] & Hn); lia.
Qed.

(** ** Successive passes *)

Ltac same_run :=
  cbn [state world alerts trace]; rewrite <- ?app_assoc; reflexivity.

(** The record of calls does not influence the run. *)
Lemma step_prepend t now r config :
  step now (prepend t r) config = prepend t (step now r config).
Proof.
  unfold Engine.step, prepend. cbn [state world alerts trace].
  destruct (bool_decide _); [reflexivity|].
  destruct (rate_limited _ _ _); [reflexivity|].
  destruct (fetchMarketData _ _) as [fetched w1].
  destruct fetched as [market|]; [|same_run].
  destruct (negb (active market) || closed market); [same_run|].
  destruct (checkAlertCondition market config); [|same_run].
  destruct (sendAlert _ _ _ _) as [sent w2].
  destruct sent; same_run.
Qed.

Lemma run_loop_prepend t now configs r :
  run_loop now configs (prepend t r) = prepend t (run_loop now configs r).
Proof.
  revert r. unfold Engine.run_loop.
  induction configs as [|c cs IH]; intros r; cbn; [reflexivity|].
  rewrite step_prepend. apply IH.
Qed.

Lemma run_pass_loop r p :
  run_pass r p =
    run_loop (pass_time p) (pass_configs p)
      {| state := with_configs (state r) (pass_configs p);
         alerts := []; world := world r; trace := trace r |}.
Proof.
  unfold Engine.run_pass, Engine.executeWorkflow.
  cbn [alertConfigs with_configs].
  set (r0 := {| state := with_configs (state r) (pass_configs p);
                alerts := []; world := world r; trace := [] |}).
  change ({| state := with_configs (state r) (pass_configs p);
             alerts := []; world := world r; trace := trace r |})
    with (let r1 := r0 in
          {| state := state r1; alerts := alerts r1; world := world r1;
             trace := trace r |}).
  cbn zeta.
  replace ({| state := state r0; alerts := alerts r0; world := world r0;
              trace := trace r |}) with (prepend (trace r) r0)
    by (unfold prepend; cbn; rewrite app_nil_r; reflexivity).
  rewrite run_loop_prepend. reflexivity.
Qed.

Lemma run_passes_invariant (P : Run World -> Prop) passes st w :
  (forall now r c, P r -> P (step now r c)) ->
  (forall r configs,
     P r -> P {| state := with_configs (state r) configs; alerts := [];
                 world := world r; trace := trace r |}) ->
  P {| state := st; alerts := []; world := w; trace := [] |} ->
  P (run_passes passes st w).
Proof.
  intros Hstep Hstart. unfold Engine.run_passes.
  generalize ({| state := st; alerts := []; world := w; trace := [] |}).
  induction passes as [|p ps IH]; intros r Hr; cbn; [exact Hr|].
  apply IH. rewrite run_pass_loop. apply run_loop_invariant.
  - intros r0 c. apply Hstep.
  - apply Hstart, Hr.
Qed.

Lemma fired_once_step key now r config :
  fired_once key r -> fired_once key (step now r config).
Proof.
  intros Hinv.
  destruct (step_cases now r config) as [Hs|w1 Hp|market w1 sent w2 Hp].
  - exact Hinv.
  - unfold fired_once, polled. cbn [trace state].
    rewrite set_lastChecked_triggered.
    rewrite count_snoc. cbn [is_firing_of]. rewrite Nat.add_0_r. exact Hinv.
  - unfold fired_once. cbn [trace state].
    rewrite !app_assoc, !count_snoc. cbn [is_firing_of]. rewrite Nat.add_0_r.
    destruct sent; cbn [andb].
    + cbn [push_triggered triggeredAlerts polled state].
      rewrite set_lastChecked_triggered.
      destruct (decide (alertKey config = key)) as [E|E].
      * rewrite bool_decide_eq_true_2 by exact E.
        destruct Hinv as [H0|[_ Hin]].
        -- right. split; [lia|]. apply elem_of_app. right.
           apply list_elem_of_singleton. symmetry. exact E.
        -- destruct Hp as [Hk _]. rewrite E in Hk. contradiction.
      * rewrite bool_decide_eq_false_2 by exact E. rewrite Nat.add_0_r.
        destruct Hinv as [H0|[H1 Hin]]; [left; exact H0|right].
        split; [exact H1|]. apply elem_of_app. left. exact Hin.
    + rewrite Nat.add_0_r. cbn [polled state].
      rewrite set_lastChecked_triggered. exact Hinv.
Qed.

Lemma retired_step key now r config :
  retired key r -> retired key (step now r config).
Proof.
  intros [Hin H0].
  assert (Hne : polls now r config -> alertKey config <> key).
  { intros [Hk _] E. rewrite E in Hk. contradiction. }
  destruct (step_cases now r config) as [Hs|w1 Hp|market w1 sent w2 Hp].
  - split; assumption.
  - split.
    { cbn [polled state]. rewrite set_lastChecked_triggered. exact Hin. }
    unfold polled. cbn [trace].
    rewrite count_snoc. unfold concerns at 2. cbn [event_config].
    rewrite bool_decide_eq_false_2 by (apply Hne, Hp). lia.
  - split.
    + cbn [state].
      destruct sent; cbn [push_triggered triggeredAlerts polled state];
        rewrite set_lastChecked_triggered; [|exact Hin].
      apply elem_of_app. left. exact Hin.
    + cbn [trace]. rewrite !app_assoc, !count_snoc.
      unfold concerns at 2 3. cbn [event_config].
      rewrite bool_decide_eq_false_2 by (apply Hne, Hp). lia.
Qed.

Lemma final_firing_snoc key t e :
  final_firing key (t ++ [e]) =
    final_firing key t &&
    (Nat.eqb (count (is_firing_of key) t) 0 || negb (concerns key e)).
Proof.
  induction t as [|e0 t IH].
  - cbn. destruct (is_firing_of key e); reflexivity.
  - cbn [app final_firing]. unfold count. cbn [List.filter].
    destruct (is_firing_of key e0).
    + rewrite forallb_app. cbn. rewrite andb_true_r. reflexivity.
    + exact IH.
Qed.

Lemma final_firing_step key now r config :
  fired_once key r -> final_firing key (trace r) = true ->
  final_firing key (trace (step now r config)) = true.
Proof.
  intros Hinv Hfin.
  assert (Hquiet : polls now r config -> forall e,
            event_config e = config ->
            Nat.eqb (count (is_firing_of key) (trace r)) 0
              || negb (concerns key e) = true).
  { intros [Hk _] e He. destruct Hinv as [H0|[_ Hin]].
    - rewrite H0. reflexivity.
    - unfold concerns. rewrite He, bool_decide_eq_false_2, orb_true_r;
        [reflexivity|]. intros E. rewrite E in Hk. contradiction. }
  destruct (step_cases now r config) as [Hs|w1 Hp|market w1 sent w2 Hp].
  - exact Hfin.
  - unfold polled. cbn [trace]. rewrite final_firing_snoc, Hfin.
    apply (Hquiet Hp). reflexivity.
  - cbn [trace]. rewrite !app_assoc, !final_firing_snoc, Hfin, count_snoc.
    cbn [is_firing_of]. rewrite Nat.add_0_r, !(Hquiet Hp); reflexivity.
Qed.

(** C1. Over any sequence of passes, whatever the alerts listed at each
    pass: a key fires (its notifier call succeeds) at most once, and after
    it has fired no call is made for a condition with that key; a key that
    is in [triggeredAlerts] is never removed, and no fetch and no notifier
    call is made for a condition with that key. *)
Theorem at_most_once_firing passes st w key :
  let r := run_passes passes st w in
  (count (is_firing_of key) (trace r) <= 1)%nat /\
  final_firing key (trace r) = true /\
  (key ∈ triggeredAlerts st ->
   key ∈ triggeredAlerts (state r) /\
   count (concerns key) (trace r) = 0%nat).
Proof.
  intros r. subst r.
  assert (H : fired_once key (run_passes passes st w) /\
              final_firing key (trace (run_passes passes st w)) = true).
  { apply (run_passes_invariant
             (fun r => fired_once key r /\ final_firing key (trace r) = true)).
    - intros now r c [H1 H2]. split;
        [apply fired_once_step; exact H1|apply final_firing_step; assumption].
    - intros r configs H. exact H.
    - split; [left; reflexivity|reflexivity]. }
  destruct H as [Hone Hfin]. split; [|split].
  - destruct Hone as [H|[H _]]; lia.
  - exact Hfin.
  - intros Hin. apply (run_passes_invariant (retired key)).
    + intros now r c. apply retired_step.
    + intros r configs H. exact H.
    + split; [exact Hin|reflexivity].
Qed.

(** ** C2: a second pass within the minute *)

Lemma run_loop_cons now c configs r :
  run_loop now (c :: configs) r = run_loop now configs (step now r c).
Proof. reflexivity. Qed.

(** A pass in which every condition is recorded or rate limited does
    nothing. *)
Lemma run_loop_idle now configs r :
  (forall c, c ∈ configs -> quiet now r c) ->
  run_loop now configs r = r.
Proof.
  induction configs as [|c cs IH]; intros H; [reflexivity|].
  rewrite run_loop_cons.
  assert (E : step now r c = r).
  { destruct (H c) as [Hk|Hr]; [left|apply step_skip_triggered; exact Hk|
                                 apply step_skip_rate_limited; exact Hr]. }
  rewrite E. apply IH. intros c' Hc'. apply H. right. exact Hc'.
Qed.

Lemma extends_refl now (r : Run World) : extends now r r.
Proof. repeat split; auto. Qed.

Lemma extends_trans now (r1 r2 r3 : Run World) :
  extends now r1 r2 -> extends now r2 r3 -> extends now r1 r3.
Proof.
  intros (Ha & Hk & Hl) (Ha' & Hk' & Hl'). split; [congruence|].
  split; [auto|]. intros id.
  destruct (Hl' id) as [E|E]; [rewrite E; apply Hl|right; exact E].
Qed.

Lemma step_extends now r config : extends now r (step now r config).
Proof.
  destruct (step_cases now r config) as [Hs|w1 Hp|market w1 sent w2 Hp].
  - apply extends_refl.
  - split; [apply set_lastChecked_configs|]. split.
    + intros key Hk. cbn [polled state].
      rewrite set_lastChecked_triggered. exact Hk.
    + intros id. apply set_lastChecked_cases.
  - split; [destruct sent; apply set_lastChecked_configs|]. split.
    + intros key Hk. cbn [state].
      destruct sent; cbn [push_triggered triggeredAlerts polled state];
        rewrite set_lastChecked_triggered; [|exact Hk].
      apply elem_of_app. left. exact Hk.
    + intros id. cbn [state]. destruct sent; apply set_lastChecked_cases.
Qed.

Lemma run_loop_extends now configs r : extends now r (run_loop now configs r).
Proof.
  revert r. induction configs as [|c cs IH]; intros r.
  - apply extends_refl.
  - rewrite run_loop_cons. eapply extends_trans; [apply step_extends|apply IH].
Qed.

(** What a pass at [now1] keeps of a condition that a call at [now2],
    less than a minute later, would skip. *)
Lemma quiet_extends now1 now2 (r r' : Run World) c :
  now2 - now1 < 60000 -> extends now1 r r' -> quiet now2 r c -> quiet now2 r' c.
Proof.
  intros Hsoon (_ & Hk & Hl) [H|H]; [left; apply Hk, H|].
  destruct (Hl (marketId c)) as [E|E].
  - right. intros Hd. apply H. intros t Ht. apply Hd.
    unfold last_poll in *. rewrite (stamp_same_lookup _ _ _ E). exact Ht.
  - right. intros Hd.
    specialize (Hd now1 (stamp_own _ _ _ E)). lia.
Qed.

Lemma awaited_extends now (r r' : Run World) c :
  extends now r r' -> awaited now r c ->
  awaited now r' c \/ lastChecked (state r') !! marketId c = Some now.
Proof.
  intros (_ & _ & Hl) [Hkeep Hdue].
  destruct (Hl (marketId c)) as [E|E]; [left|right; exact E].
  split.
  - unfold keeps_stamp in *. rewrite E. exact Hkeep.
  - intros t Ht. apply Hdue. unfold last_poll in *.
    rewrite <- (stamp_same_lookup _ _ _ E). exact Ht.
Qed.

(** After its iteration, a condition that was due is recorded or its
    market carries the time stamp of the pass. *)
Lemma step_settles now r config :
  awaited now r config ->
  alertKey config ∈ triggeredAlerts (state (step now r config)) \/
  lastChecked (state (step now r config)) !! marketId config = Some now.
Proof.
  intros [Hkeep Hdue].
  destruct (step_cases now r config) as [[Hk|Hr]|w1 Hp|market w1 sent w2 Hp].
  - left. exact Hk.
  - contradiction.
  - right. cbn [polled state]. apply set_lastChecked_same, Hkeep.
  - right. cbn [state].
    destruct sent; cbn [push_triggered lastChecked polled state];
      apply set_lastChecked_same, Hkeep.
Qed.

Lemma run_loop_settles now1 now2 configs r :
  now2 - now1 < 60000 ->
  (forall c, c ∈ configs -> awaited now1 r c \/ quiet now2 r c) ->
  forall c, c ∈ configs -> quiet now2 (run_loop now1 configs r) c.
Proof.
  intros Hsoon. revert r.
  induction configs as [|c0 cs IH]; intros r H c Hc.
  { apply elem_of_nil in Hc. contradiction. }
  rewrite run_loop_cons.
  assert (Hstamp : forall (r' : Run World) c',
            lastChecked (state r') !! marketId c' = Some now1 ->
            quiet now2 r' c').
  { intros r' c' E. right. intros Hd.
    specialize (Hd now1 (stamp_own _ _ _ E)). lia. }
  apply elem_of_cons in Hc as [->|Hc].
  - apply (quiet_extends now1 now2 (step now1 r c0));
      [exact Hsoon|apply run_loop_extends|].
    destruct (H c0) as [Ha|Hq]; [left| |].
    + destruct (step_settles now1 r c0 Ha) as [Hk|Hl];
        [left; exact Hk|apply Hstamp, Hl].
    + apply (quiet_extends now1 now2 r);
        [exact Hsoon|apply step_extends|exact Hq].
  - apply IH; [|exact Hc]. intros c' Hc'.
    destruct (H c' (list_elem_of_further _ _ _ Hc')) as [Ha|Hq].
    + destruct (awaited_extends now1 r (step now1 r c0) c'
                  (step_extends now1 r c0) Ha) as [Ha'|Hl];
        [left; exact Ha'|right; apply Hstamp, Hl].
    + right. apply (quiet_extends now1 now2 r);
        [exact Hsoon|apply step_extends|exact Hq].
Qed.

(** C2 (amended). If every condition not yet recorded either is due at
    the first call, on a market whose time stamp is kept, or is still rate
    limited at the second call, then a second call less than a minute
    after the first makes no call, reports no alert and leaves the state,
    hence [triggeredAlerts], as the first call left it. *)
Theorem second_pass_idle now1 now2 st w :
  (forall c, c ∈ alertConfigs st -> alertKey c ∉ triggeredAlerts st ->
     (keeps_stamp st (marketId c) /\ due now1 st c) \/ ~ due now2 st c) ->
  now2 - now1 < 60000 ->
  let r1 := executeWorkflow now1 st w in
  let r2 := executeWorkflow now2 (state r1) (world r1) in
  alerts r2 = [] /\ trace r2 = [] /\
  state r2 = state r1 /\ world r2 = world r1.
Proof.
  intros Hdue Hsoon r1 r2.
  set (r0 := {| state := st; alerts := []; world := w; trace := [] |}).
  assert (Hset : forall c, c ∈ alertConfigs st -> quiet now2 r1 c).
  { apply (run_loop_settles now1 now2 (alertConfigs st) r0 Hsoon).
    intros c Hc.
    destruct (decide (alertKey c ∈ triggeredAlerts st)) as [Hk|Hk];
      [right; left; exact Hk|].
    destruct (Hdue c Hc Hk) as [Ha|Hq]; [left; exact Ha|right; right; exact Hq]. }
  assert (Ha : alertConfigs (state r1) = alertConfigs st).
  { apply (run_loop_extends now1 (alertConfigs st) r0). }
  assert (E : r2 = {| state := state r1; alerts := []; world := world r1;
                      trace := [] |}).
  { subst r2. unfold Engine.executeWorkflow. rewrite Ha.
    apply run_loop_idle. intros c Hc. exact (Hset c Hc). }
  rewrite E. repeat split.
Qed.

End StepFacts.

(** ** The engine on the scripted network *)

(** C10. In one pass a market whose time stamp is kept is fetched at most
    once, and the notifier is called for at most one condition on it.
    The market id [__proto__] is the exception: the assignment to
    [lastChecked] stores nothing, so every condition on it is fetched, and
    here two of them fire in one pass. *)
Theorem one_fetch_per_market :
  (forall (World : Type) (fetch : Request -> World -> option Response * World)
          (isoTime : World -> string) now st (w : World) id,
     keeps_stamp st id ->
     let t := trace (executeWorkflow fetch isoTime now st w) in
     (count (is_fetch_of id) t <= 1)%nat /\
     (count (is_notify_on id) t <= 1)%nat) /\
  (let r := executeWorkflow open_fetch scripted_clock 1700000000000
              proto_state 0%nat in
   trace r = [Fetched (proto_above 60); Notified (proto_above 60) true;
              Fetched (proto_above 50); Notified (proto_above 50) true] /\
   count (is_fetch_of "__proto__") (trace r) = 2%nat /\
   lastChecked (state r) = ∅ /\
   triggeredAlerts (state r)
     = ["__proto__-Yes-60-above"; "__proto__-Yes-50-above"]%string).
Proof.
  split.
  - intros World fetch isoTime now st w id Hkeep.
    apply one_fetch_when_kept, Hkeep.
  - vm_compute. repeat split.
Qed.

(** C2 as stated fails: a condition that the first call skipped because
    its market had been polled 59.999 s earlier is polled, and fires, by a
    second call one millisecond later. *)
Lemma second_pass_can_fire :
  let now1 := 1700000059999 in
  let now2 := 1700000060000 in
  let st := sample_state (Some 1700000000000) [] in
  let r1 := executeWorkflow (scripted_fetch true) scripted_clock now1 st 0%nat in
  let r2 := executeWorkflow (scripted_fetch true) scripted_clock now2
              (state r1) (world r1) in
  0 <= now2 - now1 < 60000 /\
  alerts r1 = [] /\ triggeredAlerts (state r1) = [] /\
  alerts r2 = ["Alert triggered: Will Trump win? - Yes at 65.0%"%string] /\
  triggeredAlerts (state r2) = ["M-Yes-60-above"%string].
Proof. vm_compute. repeat split; discriminate. Qed.

(** Nor does the second call stay idle for a condition on the market
    [__proto__]: its time stamp is not kept, and it is fetched by both
    calls. *)
Lemma second_pass_polls_proto :
  let now1 := 1700000000000 in
  let st := {| alertConfigs := [proto_above 70]; lastChecked := ∅;
               triggeredAlerts := [] |} in
  let r1 := executeWorkflow open_fetch scripted_clock now1 st 0%nat in
  let r2 := executeWorkflow open_fetch scripted_clock (now1 + 1000)
              (state r1) (world r1) in
  trace r1 = [Fetched (proto_above 70)] /\ state r1 = st /\
  trace r2 = [Fetched (proto_above 70)].
Proof. vm_compute. repeat split. Qed.

Ltac due_by_stamp :=
  let t := fresh "t" in let Ht := fresh "Ht" in
  intros t Ht; vm_compute in Ht; injection Ht as <-; lia.

Lemma second_pass_idle_witness :
  let now1 := 1700000000000 in
  let st := sample_state None [] in
  let r1 := executeWorkflow (scripted_fetch true) scripted_clock now1 st 0%nat in
  let r2 := executeWorkflow (scripted_fetch true) scripted_clock (now1 + 1000)
              (state r1) (world r1) in
  alerts r1 = ["Alert triggered: Will Trump win? - Yes at 65.0%"%string] /\
  alerts r2 = [] /\ trace r2 = [] /\
  state r2 = state r1 /\ world r2 = world r1.
Proof.
  split; [vm_compute; reflexivity|].
  apply (second_pass_idle (scripted_fetch true) scripted_clock).
  - intros c Hc _. apply list_elem_of_singleton in Hc. subst c.
    left. split; [left; discriminate|due_by_stamp].
  - lia.
Defined.

Lemma at_most_once_firing_witness :
  let r := run_passes (scripted_fetch true) scripted_clock
             [ {| pass_time := 1700000000000;
                  pass_configs := [trump_above_60] |};
               {| pass_time := 1700000300000;
                  pass_configs := [trump_above_60; trump_above_60] |} ]
             (sample_state None ["M-Yes-60-above"%string]) 0%nat in
  "M-Yes-60-above"%string ∈ triggeredAlerts (state r) /\
  count (concerns "M-Yes-60-above") (trace r) = 0%nat.
Proof.
  apply (at_most_once_firing (scripted_fetch true) scripted_clock).
  apply list_elem_of_here.
Defined.

Lemma firing_gated_on_notifier_witness :
  let r := fresh_run (sample_state None []) in
  let r' := step (scripted_fetch false) scripted_clock 1700000000000 r
              trump_above_60 in
  state r' = set_lastChecked (state r) "M" 1700000000000 /\
  alerts r' = [].
Proof.
  pose proof (firing_gated_on_notifier (scripted_fetch false) scripted_clock
                1700000000000 (fresh_run (sample_state None []))
                trump_above_60 (sample_market (Num 65 2)) 1%nat false 2%nat)
    as H.
  cbv zeta in H.
  destruct H as (_ & _ & H).
  - split; [apply not_elem_of_nil|due_by_stamp].
  - reflexivity.
  - reflexivity.
  - reflexivity.
  - reflexivity.
  - reflexivity.
  - destruct (H eq_refl) as (H1 & H2 & _). split; assumption.
Defined.

Lemma transient_skip_isolated_witness :
  let unknown := sample_config "X" "Yes" 60 above in
  let r0 := fresh_run (sample_state None []) in
  run_loop (scripted_fetch true) scripted_clock 1700000000000
    ([] ++ unknown :: [trump_above_60]) r0
  = run_loop (scripted_fetch true) scripted_clock 1700000000000
      [trump_above_60]
      (step (scripted_fetch true) scripted_clock 1700000000000 r0 unknown).
Proof.
  apply (transient_skip_isolated (scripted_fetch true) scripted_clock
           1700000000000 [] (sample_config "X" "Yes" 60 above)
           [trump_above_60] (fresh_run (sample_state None [])) None 1%nat).
  - split; [apply not_elem_of_nil|due_by_stamp].
  - reflexivity.
  - left. reflexivity.
Defined.

End EngineFacts.

(** * Further properties of the parser *)

Module ParserMoreFacts.
Import Regex Parser ParserVocabulary RegexFacts ParserFacts.
Local Open Scope string_scope.
Local Arguments String.append : simpl nomatch.

(** ** Direction detection *)

Lemma mentions_found keywords text :
  existsb (JS.includes (JS.toLowerCase text)) keywords = true <->
  mentions keywords text.
Proof. apply keyword_found. Qed.

(** X4. The direction is "below" as soon as a keyword of [BELOW_KEYWORDS]
    occurs anywhere in the text (as a substring, in any case), even when a
    keyword of [ABOVE_KEYWORDS] occurs too; it is "above" when only a
    keyword of [ABOVE_KEYWORDS] occurs, and undefined when none does. *)
Theorem detectDirection_below_first text :
  (mentions BELOW_KEYWORDS text -> detectDirection text = Some below) /\
  (~ mentions BELOW_KEYWORDS text -> mentions ABOVE_KEYWORDS text ->
   detectDirection text = Some above) /\
  (~ mentions BELOW_KEYWORDS text -> ~ mentions ABOVE_KEYWORDS text ->
   detectDirection text = None).
Proof.
  unfold detectDirection.
  destruct (existsb _ BELOW_KEYWORDS) eqn:Hb.
  - apply mentions_found in Hb. repeat split; intros; try reflexivity;
      contradiction.
  - assert (Hnb : ~ mentions BELOW_KEYWORDS text).
    { intros H. apply mentions_found in H. congruence. }
    destruct (existsb _ ABOVE_KEYWORDS) eqn:Ha.
    + apply mentions_found in Ha. repeat split; intros; try reflexivity;
        contradiction.
    + assert (Hna : ~ mentions ABOVE_KEYWORDS text).
      { intros H. apply mentions_found in H. congruence. }
      repeat split; intros; try reflexivity; contradiction.
Qed.

Lemma detectDirection_below_first_witness :
  detectDirection "Thunder goes above 60" = Some below.
Proof.
  apply (proj1 (detectDirection_below_first "Thunder goes above 60")).
  exists "under". split; [cbn; tauto|].
  exists "th", " goes above 60". reflexivity.
Defined.

(** ** A request needs a number *)

Lemma has_digit_append a b : has_digit (a ++ b) = has_digit a || has_digit b.
Proof.
  induction a as [|c a IH]; [reflexivity|]. cbn. rewrite IH, orb_assoc.
  reflexivity.
Qed.

Lemma has_digit_occurs w s :
  occurs w s -> has_digit w = true -> has_digit s = true.
Proof.
  intros (pre & post & ->) H. rewrite !has_digit_append, H.
  apply orb_true_r.
Qed.

Lemma lang_needs_digit ic r w :
  lang ic r w -> needs_digit r = true -> has_digit w = true.
Proof.
  induction 1 as [|c x Hc|k x Hk|r1 r2 w1 w2 _ IH1 _ IH2|r1 r2 w _ IH
                  |r1 r2 w _ IH|g r|g r w1 w2 _ _ _ _|n r w _ IH|];
    cbn [needs_digit]; intros Hn; try discriminate.
  - destruct k; try discriminate. cbn in Hk. cbn. rewrite Hk. reflexivity.
  - rewrite has_digit_append. apply orb_true_iff in Hn as [Hn|Hn];
      [rewrite IH1 by exact Hn|rewrite IH2 by exact Hn];
      [reflexivity|apply orb_true_r].
  - apply andb_true_iff in Hn as [Hn _]. apply IH, Hn.
  - apply andb_true_iff in Hn as [_ Hn]. apply IH, Hn.
  - apply IH, Hn.
Qed.

(** A pattern whose words all contain a digit finds nothing in a text
    without digits. *)
Lemma exec_needs_digit p text :
  needs_digit (body p) = true -> has_digit text = false -> exec p text = None.
Proof.
  intros Hn Ht. destruct (exec p text) as [m|] eqn:E; [|reflexivity].
  apply search_from_sound in E as (w & L & Hocc).
  apply lang_needs_digit in L; [|exact Hn].
  rewrite (has_digit_occurs w text Hocc L) in Ht. discriminate.
Qed.

Lemma parse_loop_needs_digit ps request url :
  Forall (fun pp => needs_digit (body (regex_of pp)) = true) ps ->
  has_digit request = false -> parse_loop ps request url = None.
Proof.
  intros Hps Ht. induction Hps as [|pp ps Hn _ IH]; [reflexivity|].
  cbn [parse_loop]. rewrite (exec_needs_digit _ _ Hn Ht). exact IH.
Qed.

Lemma extractPercentage_needs_digit ps text :
  Forall (fun p => needs_digit (body p) = true) ps ->
  has_digit text = false -> extractPercentage_loop ps text = None.
Proof.
  intros Hps Ht. induction Hps as [|p ps Hn _ IH]; [reflexivity|].
  cbn [extractPercentage_loop]. rewrite (exec_needs_digit _ _ Hn Ht). exact IH.
Qed.

Lemma parseAlertRequest_needs_digit request url :
  has_digit request = false -> parseAlertRequest request url = None.
Proof.
  intros Ht. unfold parseAlertRequest.
  rewrite parse_loop_needs_digit; [|repeat constructor|exact Ht].
  unfold extractPercentage.
  rewrite extractPercentage_needs_digit; [reflexivity|repeat constructor|exact Ht].
Qed.

Lemma has_digit_take n s : has_digit s = false -> has_digit (JS.take n s) = false.
Proof.
  revert n. induction s as [|c s IH]; intros n H; [destruct n; reflexivity|].
  cbn in H. apply orb_false_iff in H as [Hc Hs].
  destruct n as [|n]; [reflexivity|]. cbn. rewrite Hc, IH by exact Hs.
  reflexivity.
Qed.

Lemma has_digit_trimStart s :
  has_digit s = false -> has_digit (JS.trimStart s) = false.
Proof.
  induction s as [|c s IH]; intros H; [reflexivity|]. cbn [JS.trimStart].
  destruct (JS.is_white c); [|exact H].
  cbn in H. apply orb_false_iff in H as [_ Hs]. apply IH, Hs.
Qed.

Lemma has_digit_trimEnd s :
  has_digit s = false -> has_digit (JS.trimEnd s) = false.
Proof.
  induction s as [|c s IH]; intros H; [reflexivity|]. cbn [JS.trimEnd].
  cbn in H. apply orb_false_iff in H as [Hc Hs]. specialize (IH Hs).
  destruct (JS.trimEnd s) as [|c' t'].
  - destruct (JS.is_white c); [reflexivity|]. cbn. rewrite Hc. reflexivity.
  - cbn [has_digit]. rewrite Hc. exact IH.
Qed.

Lemma has_digit_trim s : has_digit s = false -> has_digit (JS.trim s) = false.
Proof. intros H. apply has_digit_trimEnd, has_digit_trimStart, H. Qed.

(** What follows a match is the end of the text matched. *)
Lemma match_at_suffix p before s i m :
  match_at p before s i = Some m -> exists w, s = w ++ after m.
Proof.
  unfold match_at.
  destruct (rmatch _ _ _ _) as [s1|] eqn:H; [|discriminate].
  intros E. injection E as <-. cbn [after].
  apply rmatch_sound in H as (w & s' & E & _ & E').
  injection E' as <-. exists w. exact E.
Qed.

Lemma split_loop_digits p fuel before s piece n :
  has_digit s = false -> has_digit piece = false ->
  Forall (fun part => has_digit part = false)
    (split_loop fuel p before s piece n).
Proof.
  revert before s piece n. induction fuel as [|fuel IH];
    intros before s piece n Hs Hp.
  { destruct s; cbn; repeat constructor; exact Hp. }
  destruct s as [|c t]; [cbn; repeat constructor; exact Hp|].
  rewrite split_loop_cons.
  assert (Ht : has_digit t = false).
  { cbn in Hs. apply orb_false_iff in Hs. apply Hs. }
  destruct (match_at p before (String c t) 0) as [m|] eqn:Hm.
  - destruct (matched m) as [|c' w'].
    + destruct n.
      * apply IH; assumption.
      * constructor; [apply has_digit_take, Hp|]. apply IH; assumption.
    + apply match_at_suffix in Hm as [w E].
      assert (Ha : has_digit (after m) = false).
      { rewrite E, has_digit_append in Hs. apply orb_false_iff in Hs.
        apply Hs. }
      constructor; [apply has_digit_take, Hp|]. apply IH; assumption.
  - apply IH; assumption.
Qed.

Lemma split_digits p text :
  has_digit text = false ->
  Forall (fun part => has_digit part = false) (split p text).
Proof.
  intros H. unfold split. destruct text as [|c t].
  - destruct (match_at p None "" 0); repeat constructor.
  - apply split_loop_digits; exact H.
Qed.

Lemma filter_map_none {A B} (f : A -> option B) l :
  Forall (fun x => f x = None) l -> filter_map f l = [].
Proof.
  induction 1 as [|x l Hx _ IH]; [reflexivity|]. cbn. rewrite Hx. exact IH.
Qed.

Lemma parseMultiConditionAlert_filter text url :
  parseMultiConditionAlert text url
  = filter_map (fun part => parseAlertRequest (JS.trim part) url)
      (split conjunction text).
Proof.
  unfold parseMultiConditionAlert.
  apply (collect_filter_map
           (fun part => parseAlertRequest (JS.trim part) url) _ []).
Qed.

(** X5. A request without a decimal digit is never parsed: every pattern,
    and every threshold format of the fallback, asks for a number. *)
Theorem request_needs_a_number text url :
  has_digit text = false ->
  parseAlertRequest text url = None /\
  parseMultiConditionAlert text url = [].
Proof.
  intros H. split; [apply parseAlertRequest_needs_digit, H|].
  rewrite parseMultiConditionAlert_filter. apply filter_map_none.
  eapply Forall_impl; [apply split_digits, H|]. cbn. intros part Hp.
  apply parseAlertRequest_needs_digit, has_digit_trim, Hp.
Qed.

Lemma request_needs_a_number_witness :
  parseAlertRequest "Alert me when Trump odds exceed sixty percent"
    "https://example.org/hook" = None /\
  parseMultiConditionAlert "Alert me when Trump odds exceed sixty percent"
    "https://example.org/hook" = [].
Proof. apply request_needs_a_number. reflexivity. Defined.

(** ** The alerts that the parser returns *)

Lemma span_digits_all s : all_digits (fst (span_digits s)) = true.
Proof.
  induction s as [|c s IH]; [reflexivity|]. cbn [span_digits].
  destruct (JS.is_digit c) eqn:Hc; [|reflexivity].
  destruct (span_digits s) as [d r]. cbn in *. rewrite Hc. exact IH.
Qed.

Lemma digits_value_nonneg acc s :
  all_digits s = true -> (0 <= acc)%Z -> (0 <= digits_value acc s)%Z.
Proof.
  revert acc. induction s as [|c s IH]; intros acc Hs Hacc; [exact Hacc|].
  cbn in Hs. apply andb_true_iff in Hs as [Hc Hs].
  cbn [digits_value]. apply IH; [exact Hs|].
  unfold JS.is_digit in Hc. apply andb_true_iff in Hc as [H1 H2].
  apply Nat.leb_le in H1, H2. unfold digit_value. lia.
Qed.

Lemma parseFloat_nonneg s x : parseFloat s = Some x -> (0 <= mantissa x)%Z.
Proof.
  unfold parseFloat.
  pose proof (span_digits_all s) as Hip.
  destruct (span_digits s) as [ip r]. cbn [fst] in Hip.
  set (fp := match r with String "." r' => fst (span_digits r') | _ => "" end).
  assert (Hfp : all_digits fp = true).
  { subst fp. destruct r as [|c r']; [reflexivity|].
    destruct (Ascii.eqb_spec c "."); [subst c; apply span_digits_all|].
    destruct c as [[] [] [] [] [] [] [] []]; try reflexivity. contradiction. }
  assert (Hx : forall y, Some (Num (digits_value 0 (ip ++ fp)) (String.length fp))
                 = Some y -> (0 <= mantissa y)%Z).
  { intros y E. injection E as <-. cbn.
    apply digits_value_nonneg; [|lia].
    rewrite NumberFacts.all_digits_append, Hip, Hfp. reflexivity. }
  destruct ip, fp; try discriminate; apply Hx.
Qed.

Lemma detectOutcome_label text :
  detectOutcome text = "Yes" \/ detectOutcome text = "No".
Proof.
  unfold detectOutcome. destruct (test explicitNo text); [right; reflexivity|].
  destruct (existsb _ NO_KEYWORDS); [right|left]; reflexivity.
Qed.

Lemma parse_loop_shape ps request url c :
  Forall (fun pp => forall m,
            (p_outcome (extractor pp m) = "Yes" \/
             p_outcome (extractor pp m) = "No") /\
            forall x, p_threshold (extractor pp m) = Some x ->
                      (0 <= mantissa x)%Z) ps ->
  parse_loop ps request url = Some c -> well_shaped url c.
Proof.
  intros Hps. induction Hps as [|pp ps Hpp _ IH]; [discriminate|].
  cbn [parse_loop]. destruct (exec (regex_of pp) request) as [m|]; [|exact IH].
  destruct (Hpp m) as [Ho Ht].
  destruct (p_threshold (extractor pp m)) as [th|]; [|exact IH].
  destruct (p_direction (extractor pp m)) as [dir|]; [|exact IH].
  intros E. injection E as <-. unfold well_shaped. cbn.
  split; [reflexivity|]. split; [reflexivity|]. split.
  - destruct Ho as [-> | ->]; [left|right]; reflexivity.
  - apply Ht. reflexivity.
Qed.

Lemma extractPercentage_nonneg ps text x :
  extractPercentage_loop ps text = Some x -> (0 <= mantissa x)%Z.
Proof.
  induction ps as [|p ps IH]; [discriminate|]. cbn [extractPercentage_loop].
  destruct (exec p text) as [m|]; [|exact IH].
  destruct (parseFloat (group 1 m)) as [value|] eqn:Hv; [|discriminate].
  apply parseFloat_nonneg in Hv.
  destruct (JS.includes (source p) "cents");
    [intros E; injection E as <-; exact Hv|].
  destruct (JS.includes (source p) "0\.");
    intros E; injection E as <-; [cbn; lia|exact Hv].
Qed.

Lemma parseAlertRequest_shape request url c :
  parseAlertRequest request url = Some c -> well_shaped url c.
Proof.
  unfold parseAlertRequest.
  destruct (parse_loop patterns request url) as [c'|] eqn:Hl.
  - intros E. injection E as <-. revert Hl. apply parse_loop_shape.
    unfold patterns.
    repeat (apply List.Forall_cons;
            [intros m; cbn; split;
               [apply detectOutcome_label|intros x; apply parseFloat_nonneg]|]).
    apply List.Forall_nil.
  - destruct (extractPercentage request) as [th|] eqn:Hp; [|discriminate].
    destruct (detectDirection request) as [dir|]; [|discriminate].
    intros E. injection E as <-. unfold well_shaped. cbn.
    split; [reflexivity|]. split; [reflexivity|].
    split; [apply detectOutcome_label|].
    eapply extractPercentage_nonneg. exact Hp.
Qed.

Lemma filter_map_In {A B} (f : A -> option B) l y :
  In y (filter_map f l) -> exists x, In x l /\ f x = Some y.
Proof.
  induction l as [|x l IH]; cbn; [contradiction|].
  destruct (f x) as [y'|] eqn:E.
  - intros [<-|H]; [exists x; auto|].
    destruct (IH H) as (x' & Hin & Hf). exists x'. auto.
  - intros H. destruct (IH H) as (x' & Hin & Hf). exists x'. auto.
Qed.

(** X6. Every alert returned by [parseAlertRequest] or
    [parseMultiConditionAlert] has an empty market id (the market is never
    resolved by the parser), the webhook it was given, the outcome "Yes" or
    "No", and a threshold that is not negative. *)
Theorem parsed_alert_shape request url c :
  parseAlertRequest request url = Some c \/
  In c (parseMultiConditionAlert request url) ->
  marketId c = "" /\ notifyUrl c = url /\
  (outcome c = "Yes" \/ outcome c = "No") /\
  (0 <= mantissa (threshold c))%Z.
Proof.
  intros [H|H].
  - apply parseAlertRequest_shape in H. exact H.
  - rewrite parseMultiConditionAlert_filter in H.
    apply filter_map_In in H as (part & _ & H).
    apply parseAlertRequest_shape in H. exact H.
Qed.

Lemma parsed_alert_shape_witness :
  exists c,
    parseAlertRequest "Trump > 150%" "https://example.org/hook" = Some c /\
    Number_toString (threshold c) = "150" /\
    marketId c = "" /\ notifyUrl c = "https://example.org/hook".
Proof.
  eexists. split; [vm_compute; reflexivity|]. split; [reflexivity|].
  match goal with
  | |- marketId ?c = _ /\ _ =>
      pose proof (parsed_alert_shape "Trump > 150%" "https://example.org/hook" c)
        as H
  end.
  destruct H as (H1 & H2 & _); [left; vm_compute; reflexivity|].
  split; [exact H1|exact H2].
Defined.

End ParserMoreFacts.

(** * Further properties of the engine *)

Module HistoryFacts.
Import Engine History EngineFacts Samples.

Section PassFacts.

Context {World : Type}.
Variable fetch : Request -> World -> option Response * World.
Variable isoTime : World -> string.

Local Abbreviation step := (Engine.step fetch isoTime).
Local Abbreviation run_loop := (Engine.run_loop fetch isoTime).
Local Abbreviation executeWorkflow := (Engine.executeWorkflow fetch isoTime).
Local Abbreviation run_pass := (Engine.run_pass fetch isoTime).
Local Abbreviation run_passes := (Engine.run_passes fetch isoTime).
Local Abbreviation timeline := (History.timeline fetch isoTime).
Local Abbreviation stamped := (@History.stamped World).
Local Abbreviation booked := (@History.booked World).

(** *** The time stamps written by a pass *)

Lemma stamped_poll now st0 r config w1 :
  stamped now st0 r -> polls now r config ->
  stamped now st0 (polled now r config w1) /\
  minute_old now st0 (marketId config).
Proof.
  intros [H1 H2] [_ Hrate].
  assert (Hold : minute_old now st0 (marketId config)).
  { destruct (H1 (marketId config)) as [E|[_ Hold]]; [|exact Hold].
    intros t Ht. apply Hrate. unfold last_poll.
    rewrite (stamp_same_lookup _ _ _ E). exact Ht. }
  assert (Hkeep : keeps_stamp st0 (marketId config) ->
                  keeps_stamp (state r) (marketId config)).
  { intros [Hk|[t Hk]]; [left; exact Hk|]. right.
    destruct (H1 (marketId config)) as [E|[E _]]; rewrite E;
      [exists t; exact Hk|exists now; reflexivity]. }
  split; [|exact Hold]. split.
  - intros id. cbn [polled state].
    destruct (decide (marketId config = id)) as [<-|Hne].
    + destruct (keeps_stamp_dec (state r) (marketId config)) as [Hk|Hk].
      * right. split; [apply set_lastChecked_same, Hk|exact Hold].
      * rewrite set_lastChecked_ignored by exact Hk. apply H1.
    + rewrite set_lastChecked_other by exact Hne. apply H1.
  - intros c Hc. cbn [polled state trace] in *.
    apply elem_of_app in Hc as [Hc|Hc].
    + destruct (H2 c Hc) as [Hl Hm]. split; [|exact Hm].
      intros Hk.
      destruct (set_lastChecked_cases (state r) (marketId config) now
                  (marketId c)) as [E|E]; rewrite E; [apply Hl, Hk|reflexivity].
    + apply list_elem_of_singleton in Hc. injection Hc as ->.
      split; [|exact Hold]. intros Hk.
      apply set_lastChecked_same, Hkeep, Hk.
Qed.

Lemma stamped_step now st0 r config :
  stamped now st0 r -> stamped now st0 (step now r config).
Proof.
  intros Hinv.
  destruct (step_cases fetch isoTime now r config)
    as [Hs|w1 Hp|market w1 sent w2 Hp].
  - exact Hinv.
  - apply stamped_poll; assumption.
  - destruct (stamped_poll now st0 r config w1 Hinv Hp) as [[H1 H2] _].
    split.
    + intros id. cbn [state]. destruct sent; apply H1.
    + intros c Hc. cbn [trace state] in *.
      assert (Hc' : Fetched c ∈ trace (polled now r config w1)).
      { cbn [polled trace]. rewrite app_assoc in Hc.
        apply elem_of_app in Hc as [Hc|Hc]; [exact Hc|].
        apply list_elem_of_singleton in Hc. discriminate. }
      destruct sent; apply H2, Hc'.
Qed.

Lemma stamped_pass now st w :
  stamped now st (executeWorkflow now st w).
Proof.
  unfold Engine.executeWorkflow. apply run_loop_invariant.
  - intros r0 c. apply stamped_step.
  - split; [intros id; left; reflexivity|].
    intros c Hc. cbn in Hc. apply elem_of_nil in Hc. contradiction.
Qed.

Lemma count_found (p : Event -> bool) t i e :
  t !! i = Some e -> p e = true -> (1 <= count p t)%nat.
Proof.
  revert i. unfold count. induction t as [|e' t IH]; intros i Hi He.
  { rewrite lookup_nil in Hi. discriminate. }
  cbn [List.filter]. destruct i as [|i]; cbn in Hi.
  - injection Hi as ->. rewrite He. cbn. lia.
  - specialize (IH i Hi He). destruct (p e'); cbn; lia.
Qed.

Lemma count_two (p : Event -> bool) t i j e1 e2 :
  t !! i = Some e1 -> t !! j = Some e2 -> (i < j)%nat ->
  p e1 = true -> p e2 = true -> (2 <= count p t)%nat.
Proof.
  revert i j. induction t as [|e t IH]; intros i j Hi Hj Hlt H1 H2.
  { rewrite lookup_nil in Hi. discriminate. }
  destruct j as [|j]; [lia|]. cbn in Hj.
  change (count p (e :: t))
    with (length (if p e then e :: List.filter p t else List.filter p t)).
  destruct i as [|i]; cbn in Hi.
  - injection Hi as ->. rewrite H1. cbn [length].
    pose proof (count_found p t j e2 Hj H2) as H. unfold count in H. lia.
  - assert (Hlt' : (i < j)%nat) by lia.
    specialize (IH i j Hi Hj Hlt' H1 H2). unfold count in IH.
    destruct (p e); cbn [length]; lia.
Qed.

Lemma one_fetch now st w id :
  keeps_stamp st id ->
  (count (is_fetch_of id) (trace (executeWorkflow now st w)) <= 1)%nat.
Proof.
  intros Hkeep.
  assert (H : polled_once now id (executeWorkflow now st w)).
  { unfold Engine.executeWorkflow. apply run_loop_invariant.
    - intros r0 c. apply polled_once_step.
    - split; [exact Hkeep|]. split; [left; reflexivity|]. cbn. lia. }
  destruct H as (_ & [H0|[H1 _]] & _); lia.
Qed.

(** *** The calls of successive passes *)

Lemma timeline_fold passes (r : Run World) :
  trace (fold_left run_pass passes r)
  = trace r ++ map snd (timeline passes (state r) (world r)).
Proof.
  revert r. induction passes as [|p ps IH]; intros r;
    cbn [fold_left History.timeline].
  - cbn. rewrite app_nil_r. reflexivity.
  - rewrite IH. unfold Engine.run_pass. cbn [state world trace].
    rewrite map_app, map_map, <- app_assoc. f_equal. f_equal.
    rewrite <- (map_id (trace _)) at 1. apply map_ext. reflexivity.
Qed.

(** The timeline is the record of calls of [run_passes], with times. *)
Lemma timeline_calls passes st w :
  map snd (timeline passes st w) = trace (run_passes passes st w).
Proof. unfold Engine.run_passes. rewrite timeline_fold. reflexivity. Qed.

Lemma lookup_app_cases {A} (l1 l2 : list A) i x :
  (l1 ++ l2) !! i = Some x ->
  l1 !! i = Some x \/ ((length l1 <= i)%nat /\ l2 !! (i - length l1)%nat = Some x).
Proof.
  intros H. destruct (decide (i < length l1)%nat) as [Hlt|Hge].
  - left. rewrite lookup_app_l in H by exact Hlt. exact H.
  - right. split; [lia|]. rewrite lookup_app_r in H by lia. exact H.
Qed.

Lemma timeline_spaced passes : forall st w,
  (forall i a c, timeline passes st w !! i = Some (a, Fetched c) ->
     minute_old a st (marketId c)) /\
  (forall i j a b c1 c2,
     timeline passes st w !! i = Some (a, Fetched c1) ->
     timeline passes st w !! j = Some (b, Fetched c2) ->
     (i < j)%nat -> marketId c1 = marketId c2 ->
     keeps_stamp st (marketId c1) -> 60000 <= b - a).
Proof.
  induction passes as [|p ps IH]; intros st w.
  { split; intros; cbn in *; rewrite lookup_nil in *; discriminate. }
  cbn [History.timeline].
  set (now := pass_time p).
  set (st0 := with_configs st (pass_configs p)).
  set (r := executeWorkflow now st0 w).
  destruct (stamped_pass now st0 w) as [H1 H2]. fold r in H1, H2.
  destruct (IH (state r) (world r)) as [IHa IHb].
  assert (Hst0 : forall id, stamp st0 id = stamp st id) by reflexivity.
  assert (Hhere : forall i a c,
            map (pair now) (trace r) !! i = Some (a, Fetched c) ->
            a = now /\ trace r !! i = Some (Fetched c)).
  { intros i a c Hi. rewrite list_lookup_fmap in Hi.
    destruct (trace r !! i) as [e|]; [|discriminate].
    cbn in Hi. injection Hi as <- ->. auto. }
  assert (Hfirst : forall i a c,
            map (pair now) (trace r) !! i = Some (a, Fetched c) ->
            a = now /\
            (keeps_stamp st (marketId c) ->
             lastChecked (state r) !! marketId c = Some now) /\
            minute_old now st (marketId c)).
  { intros i a c Hi. apply Hhere in Hi as [-> Hi]. split; [reflexivity|].
    apply (H2 c). eapply list_elem_of_lookup_2, Hi. }
  assert (Hlater : forall i a c,
            timeline ps (state r) (world r) !! i = Some (a, Fetched c) ->
            minute_old a st (marketId c) /\
            (lastChecked (state r) !! marketId c = Some now ->
             60000 <= a - now)).
  { intros i a c Hi. apply IHa in Hi.
    destruct (H1 (marketId c)) as [E|[E Hold]].
    - split.
      + intros t Ht. apply Hi. rewrite (stamp_same_lookup _ _ _ E). exact Ht.
      + intros E'. apply Hi, stamp_own, E'.
    - pose proof (Hi now (stamp_own _ _ _ E)) as Hnow.
      split; [|intros _; exact Hnow].
      intros t Ht. specialize (Hold t Ht). lia. }
  assert (Hkept : forall id, keeps_stamp st id -> keeps_stamp (state r) id).
  { intros id [Hk|[t Hk]]; [left; exact Hk|]. right.
    destruct (H1 id) as [E|[E _]]; rewrite E;
      [exists t; exact Hk|exists now; reflexivity]. }
  split.
  - intros i a c Hi. apply lookup_app_cases in Hi as [Hi|[_ Hi]].
    + apply Hfirst in Hi as (-> & _ & H). exact H.
    + apply Hlater in Hi. apply Hi.
  - intros i j a b c1 c2 Hi Hj Hlt Hm Hkeep.
    apply lookup_app_cases in Hi as [Hi|[Hil Hi]];
    apply lookup_app_cases in Hj as [Hj|[Hjl Hj]].
    + exfalso. apply Hhere in Hi as [_ Hi]. apply Hhere in Hj as [_ Hj].
      pose proof (one_fetch now st0 w (marketId c1) Hkeep) as Hone.
      fold r in Hone.
      pose proof (count_two (is_fetch_of (marketId c1)) (trace r) i j _ _
                    Hi Hj Hlt) as Htwo.
      cbn [is_fetch_of] in Htwo.
      rewrite !bool_decide_eq_true_2 in Htwo by congruence.
      specialize (Htwo eq_refl eq_refl). lia.
    + apply Hfirst in Hi as (-> & Hl & _). apply Hlater in Hj as [_ Hj].
      apply Hj. rewrite <- Hm. apply Hl, Hkeep.
    + exfalso. apply lookup_lt_Some in Hj. lia.
    + eapply IHb; [exact Hi|exact Hj|lia|exact Hm|apply Hkept, Hkeep].
Qed.

(** X1. Whatever the passes, their times and the alerts listed at each:
    a market is fetched only when the time stamp read for it in the
    starting state, if it is a number, is a minute old; and two fetches of
    a market whose time stamp is kept (any market but [__proto__]) are a
    minute of [Date.now()] or more apart. *)
Theorem polls_a_minute_apart passes st w :
  (forall i a c t,
     timeline passes st w !! i = Some (a, Fetched c) ->
     stamp st (marketId c) = Some t -> 60000 <= a - t) /\
  (forall i j a b c1 c2,
     timeline passes st w !! i = Some (a, Fetched c1) ->
     timeline passes st w !! j = Some (b, Fetched c2) ->
     (i < j)%nat -> marketId c1 = marketId c2 ->
     keeps_stamp st (marketId c1) -> 60000 <= b - a).
Proof.
  destruct (timeline_spaced passes st w) as [Ha Hb]. split.
  - intros i a c t Hi Ht. exact (Ha i a c Hi t Ht).
  - exact Hb.
Qed.

(** *** What a pass records *)

Lemma fired_keys_app t1 t2 :
  fired_keys (t1 ++ t2) = fired_keys t1 ++ fired_keys t2.
Proof.
  induction t1 as [|e t1 IH]; [reflexivity|].
  destruct e as [c|c [|]]; cbn; rewrite IH; reflexivity.
Qed.

Lemma booked_step st now r config :
  booked st r -> booked st (step now r config).
Proof.
  intros (Ha & Hk & Hn & Hd).
  destruct (step_cases fetch isoTime now r config)
    as [Hs|w1 Hp|market w1 sent w2 Hp].
  - repeat split; assumption.
  - unfold booked, polled.
    cbn [state trace alerts].
    rewrite set_lastChecked_configs, set_lastChecked_triggered.
    rewrite fired_keys_app. cbn [fired_keys]. rewrite app_nil_r.
    repeat split; assumption.
  - unfold booked. cbn [state trace alerts].
    rewrite !fired_keys_app. cbn [fired_keys app].
    destruct Hp as [Hfresh _].
    destruct sent;
      cbn [push_triggered polled state alertConfigs
           triggeredAlerts fired_keys];
      rewrite set_lastChecked_configs, set_lastChecked_triggered.
    + split; [exact Ha|]. split; [rewrite Hk, app_assoc; reflexivity|].
      split; [rewrite !length_app, Hn; reflexivity|].
      intros Hnd. apply NoDup_app. split; [apply Hd, Hnd|].
      split; [|apply NoDup_singleton].
      intros key Hin Hin'. apply list_elem_of_singleton in Hin'. subst key.
      contradiction.
    + rewrite app_nil_r. repeat split; assumption.
Qed.

(** X2. A pass leaves the list of alerts as it was, appends to
    [triggeredAlerts] exactly the keys of the notifier calls that
    succeeded, in order, returns one description per key appended, and
    never records a key twice. *)
Theorem pass_bookkeeping now st w :
  let r := executeWorkflow now st w in
  alertConfigs (state r) = alertConfigs st /\
  triggeredAlerts (state r) = triggeredAlerts st ++ fired_keys (trace r) /\
  length (alerts r) = length (fired_keys (trace r)) /\
  (NoDup (triggeredAlerts st) -> NoDup (triggeredAlerts (state r))).
Proof.
  intros r. subst r. unfold Engine.executeWorkflow.
  apply (run_loop_invariant fetch isoTime (booked st)).
  - intros r0 c. apply booked_step.
  - unfold booked. cbn. rewrite app_nil_r. auto.
Qed.

(** *** Every notifier call follows its fetch *)

Lemma paired_fetched t c : paired t -> paired (t ++ [Fetched c]).
Proof.
  induction 1 as [|c0 t _ IH|c0 sent0 t _ IH]; cbn.
  - apply paired_fetch, paired_nil.
  - apply paired_fetch, IH.
  - apply paired_notify, IH.
Qed.

Lemma paired_notified t c sent :
  paired t -> paired (t ++ [Fetched c] ++ [Notified c sent]).
Proof.
  induction 1 as [|c0 t _ IH|c0 sent0 t _ IH]; cbn.
  - apply paired_notify, paired_nil.
  - apply paired_fetch, IH.
  - apply paired_notify, IH.
Qed.

Lemma paired_step now r config :
  paired (trace r) -> paired (trace (step now r config)).
Proof.
  intros H.
  destruct (step_cases fetch isoTime now r config)
    as [Hs|w1 Hp|market w1 sent w2 Hp].
  - exact H.
  - apply paired_fetched, H.
  - apply paired_notified, H.
Qed.

(** X3. Over any sequence of passes the webhook is only called right after
    a fetch made for the same condition: the record of calls is a sequence
    of fetches, each followed by at most one notifier call, for the
    condition fetched. *)
Theorem notifier_follows_fetch passes st w :
  paired (trace (run_passes passes st w)).
Proof.
  apply (run_passes_invariant fetch isoTime (fun r => paired (trace r))).
  - intros now r c. apply paired_step.
  - intros r configs H. exact H.
  - constructor.
Qed.

End PassFacts.

(** *** On the scripted network *)

Lemma polls_a_minute_apart_witness :
  60000 <= 1700000060000 - 1700000000000 /\
  60000 <= 1700000000000 - 0.
Proof.
  pose proof (polls_a_minute_apart (scripted_fetch false) scripted_clock
                [ {| pass_time := 1700000000000;
                     pass_configs := [trump_above_60] |};
                  {| pass_time := 1700000060000;
                     pass_configs := [trump_above_60] |} ]
                (sample_state None []) 0%nat) as [Hfirst Hnext].
  split.
  - apply (Hnext 0 2 _ _ trump_above_60 trump_above_60)%nat;
      [reflexivity|reflexivity|lia|reflexivity|left; discriminate].
  - apply (Hfirst 0%nat _ trump_above_60); reflexivity.
Defined.

(** On the market [__proto__] two fetches can come in one pass. *)
Lemma proto_polled_twice :
  timeline open_fetch scripted_clock
    [ {| pass_time := 1700000000000;
         pass_configs := [proto_above 70; proto_above 80] |} ]
    proto_state 0%nat
  = [ (1700000000000, Fetched (proto_above 70));
      (1700000000000, Fetched (proto_above 80)) ].
Proof. vm_compute. reflexivity. Qed.

Lemma pass_bookkeeping_witness :
  let r := executeWorkflow (scripted_fetch true) scripted_clock 1700000000000
             (sample_state None []) 0%nat in
  NoDup (triggeredAlerts (state r)).
Proof.
  apply (pass_bookkeeping (scripted_fetch true) scripted_clock 1700000000000
           (sample_state None []) 0%nat).
  apply NoDup_nil. exact I.
Defined.

End HistoryFacts.

(** * Properties of the doubles *)

Module DoubleFacts.
Local Open Scope Z_scope.

Lemma shr_1_nonneg mrs : 0 <= shr_m mrs -> 0 <= shr_m (shr_1 mrs).
Proof.
  destruct mrs as [m r s]. destruct m as [|[p|p|]|p]; cbn; lia.
Qed.

Lemma iter_shr_1_nonneg p mrs :
  0 <= shr_m mrs -> 0 <= shr_m (SpecFloat.iter_pos shr_1 p mrs).
Proof.
  revert mrs. induction p as [p IH|p IH|]; intros mrs H; cbn.
  - apply IH, IH, shr_1_nonneg, H.
  - apply IH, IH, H.
  - apply shr_1_nonneg, H.
Qed.

Lemma shr_fexp_nonneg m e l :
  0 <= m -> 0 <= shr_m (fst (shr_fexp Double.prec Double.emax m e l)).
Proof.
  intros H. unfold shr_fexp, shr.
  assert (H0 : 0 <= shr_m (shr_record_of_loc m l)).
  { destruct l as [|[]]; exact H. }
  destruct (_ - e) as [|p|p]; cbn [fst]; [exact H0| |exact H0].
  apply iter_shr_1_nonneg, H0.
Qed.

Lemma round_nearest_even_nonneg m l : 0 <= m -> 0 <= round_nearest_even m l.
Proof.
  intros H. destruct l as [|[]]; cbn; try lia. destruct (Z.even m); lia.
Qed.

(** Rounding keeps the sign and never gives NaN. *)
Lemma binary_round_aux_nonneg m e l :
  0 <= m ->
  Double.geb (binary_round_aux Double.prec Double.emax false m e l) Double.zero
  = true.
Proof.
  intros H. unfold binary_round_aux.
  pose proof (shr_fexp_nonneg m e l H) as H1.
  destruct (shr_fexp Double.prec Double.emax m e l) as [mrs' e'].
  cbn [fst] in H1.
  pose proof (shr_fexp_nonneg _ e' loc_Exact
                (round_nearest_even_nonneg _ (loc_of_shr_record mrs') H1)) as H2.
  destruct (shr_fexp Double.prec Double.emax _ e' loc_Exact) as [mrs'' e''].
  cbn [fst] in H2.
  destruct (shr_m mrs'') as [|q|q]; [reflexivity| |lia].
  destruct (e'' <=? Double.emax - Double.prec); reflexivity.
Qed.

(** The double of a whole number that is not negative is a number, and
    not negative. *)
Lemma of_Z_nonneg n :
  0 <= n -> Double.geb (Double.of_Z n) Double.zero = true.
Proof.
  intros H. unfold Double.of_Z, binary_normalize.
  destruct n as [|p|p]; [reflexivity| |lia].
  unfold binary_round. destruct (shl_align _ _ _) as [mz ez].
  apply binary_round_aux_nonneg. lia.
Qed.

Example of_Z_examples :
  Double.toString (Double.of_Z 60) = "60"%string /\
  Double.toString (Double.of_Z 9007199254740993) = "9007199254740992"%string /\
  Double.of_Z (2 ^ 1024 - 2 ^ 970 - 1) = S754_finite false (2 ^ 53 - 1) 971 /\
  Double.of_Z (2 ^ 1024 - 2 ^ 970) = S754_infinity false /\
  Double.of_Z (10 ^ 309 - 1) = S754_infinity false.
Proof. vm_compute. repeat split. Qed.

End DoubleFacts.

(** * Properties of the global functions *)

Module GlobalsFacts.
Import Globals RegexFacts NumberFacts.
Local Open Scope string_scope.
Local Arguments String.append : simpl nomatch.

Example mathInt_examples :
  map mathInt ["42"; "  42"; "-7"; "+7"; "3abc"; "1.9"; "0x1F"; "0x"; "";
               "abc"; "-"; "007"; "1e3"; "-0"; "-0x1f"]
  = [Some 42; Some 42; Some (-7); Some 7; Some 3; Some 1; Some 31; None; None;
     None; None; Some 7; Some 1; Some 0; Some (-31)]%Z.
Proof. reflexivity. Qed.

Example parseInt_examples :
  map parseInt ["42"; "-7"; "3abc"; "0x1F"; "abc"; ""; "0"; "-0";
                "9007199254740993"]
  = [Double.of_Z 42; Double.of_Z (-7); Double.of_Z 3; Double.of_Z 31;
     Double.nan; Double.nan; S754_zero false; S754_zero true;
     Double.of_Z 9007199254740992].
Proof. vm_compute. reflexivity. Qed.

Lemma span_digits_append ds rest :
  all_digits ds = true ->
  match rest with String c _ => JS.is_digit c = false | EmptyString => True end ->
  span_digits (ds ++ rest) = (ds, rest).
Proof.
  intros Hd Hr. induction ds as [|c ds IH]; cbn.
  - destruct rest as [|c r]; [reflexivity|]. cbn. rewrite Hr. reflexivity.
  - cbn in Hd. apply andb_true_iff in Hd as [Hc Hd]. rewrite Hc, (IH Hd).
    reflexivity.
Qed.

Lemma digits_of_cases n :
  (0 <= n)%Z ->
  exists c t, digits_of n = String c t /\ JS.is_digit c = true /\
    (n = 0%Z /\ c = "0"%char /\ t = "" \/
     (0 < n)%Z /\ Ascii.eqb c "0" = false).
Proof.
  intros Hn. pose proof (digits_of_all_digits n Hn) as Hall.
  destruct (Z.eq_dec n 0) as [->|Hne].
  - exists "0"%char, "". split; [reflexivity|]. split; [reflexivity|]. left. auto.
  - pose proof (digits_of_head n ltac:(lia)) as Hh.
    destruct (digits_of n) as [|c t]; [discriminate|].
    cbn in Hall, Hh. apply andb_true_iff in Hall as [Hc _].
    exists c, t. split; [reflexivity|]. split; [exact Hc|]. right.
    split; [lia|]. apply negb_true_iff. exact Hh.
Qed.

Lemma digit_not_white c : JS.is_digit c = true -> JS.is_white c = false.
Proof.
  unfold JS.is_digit, JS.is_white. intros H.
  apply andb_true_iff in H as [H1 H2]. apply Nat.leb_le in H1, H2.
  apply orb_false_iff. split; [apply orb_false_iff; split|].
  - apply andb_false_iff. right. apply Nat.leb_gt. lia.
  - apply Nat.eqb_neq. lia.
  - apply Nat.eqb_neq. lia.
Qed.

(** [parseInt] reads back the decimal digits of a natural number, and
    ignores what follows them. *)
Lemma mathInt_digits n rest :
  (0 <= n)%Z -> ends_integer rest = true ->
  mathInt (digits_of n ++ rest) = Some n.
Proof.
  intros Hn Hr.
  assert (Hrest : match rest with
                  | String c _ => JS.is_digit c = false
                  | EmptyString => True
                  end).
  { destruct rest as [|c r]; [exact I|]. cbn in Hr.
    apply negb_true_iff, orb_false_iff in Hr as [Hr _].
    apply orb_false_iff in Hr as [Hr _]. exact Hr. }
  pose proof (span_digits_append (digits_of n) rest
                (digits_of_all_digits n Hn) Hrest) as Hspan.
  pose proof (digits_of_value n Hn) as Hval.
  destruct (digits_of_cases n Hn) as (c & t & E & Hc & Hcase).
  rewrite E in *. unfold mathInt. cbn [String.append JS.trimStart].
  rewrite (digit_not_white c Hc).
  assert (Hsign : c <> "-"%char /\ c <> "+"%char).
  { split; intros ->; discriminate. }
  destruct Hsign as [Hm Hp].
  assert (E1 : match String c (t ++ rest) with
               | String "-" t0 => ((-1)%Z, t0)
               | String "+" t0 => (1%Z, t0)
               | _ => (1%Z, String c (t ++ rest))
               end = (1%Z, String c (t ++ rest))).
  { destruct c as [[] [] [] [] [] [] [] []]; try reflexivity; contradiction. }
  rewrite E1.
  assert (E2 : match String c (t ++ rest) with
               | String "0" (String "x" t0) => (true, t0)
               | String "0" (String "X" t0) => (true, t0)
               | _ => (false, String c (t ++ rest))
               end = (false, String c (t ++ rest))).
  { destruct Hcase as [(_ & -> & ->)|[_ Hnz]].
    - destruct rest as [|x r]; [reflexivity|]. cbn in Hr.
      apply negb_true_iff, orb_false_iff in Hr as [Hr HX].
      apply orb_false_iff in Hr as [_ Hx]. cbn.
      destruct x as [[] [] [] [] [] [] [] []]; try reflexivity; discriminate.
    - destruct c as [[] [] [] [] [] [] [] []]; try reflexivity; discriminate. }
  rewrite E2. change (String c (t ++ rest)) with (String c t ++ rest).
  rewrite Hspan. cbn [fst]. rewrite Hval. f_equal. lia.
Qed.

End GlobalsFacts.

(** * Properties of the payment module *)

Module PaymentFacts.
Import Globals X402 RegexFacts NumberFacts.
Local Open Scope Z_scope.

(** ** Bulk prices *)

Example bulk_total_examples :
  map (fun n => Double.toString (bulk_total n)) [1; 4; 5; 9; 10; 11; 100]
  = ["0.01"; "0.04"; "0.045000000000000005"; "0.08100000000000002"; "0.08";
     "0.088"; "0.8"]%string.
Proof. vm_compute. reflexivity. Qed.




(** ** Verifying a payment *)

Section VerifyFacts.

Context {World : Type}.
Variable env_PAYMENT_RECEIVER : option string.
Variable getTransactionReceipt : string -> World -> Lookup * World.
Variable parseLog : Log -> Parsed.

Local Abbreviation PAYMENT_RECEIVER := (X402.PAYMENT_RECEIVER env_PAYMENT_RECEIVER).
Local Abbreviation scan_logs := (X402.scan_logs env_PAYMENT_RECEIVER parseLog).
Local Abbreviation verifyPayment :=
  (X402.verifyPayment env_PAYMENT_RECEIVER getTransactionReceipt parseLog).
Local Abbreviation payment_of := (X402.payment_of env_PAYMENT_RECEIVER parseLog).
Local Abbreviation pays := (X402.pays env_PAYMENT_RECEIVER parseLog).
Local Abbreviation first_payment :=
  (X402.first_payment env_PAYMENT_RECEIVER parseLog).

Lemma payment_of_pays expected log args :
  payment_of expected log = Some args <-> pays expected log args.
Proof.
  unfold X402.payment_of, X402.pays, same_address.
  destruct (String.eqb_spec (JS.toLowerCase (address log))
              (JS.toLowerCase USDC_ADDRESS_BASE)) as [Ea|Ea].
  - destruct (parseLog log) as [args'| |].
    + destruct (String.eqb_spec (JS.toLowerCase (to args'))
                  (JS.toLowerCase PAYMENT_RECEIVER)) as [Et|Et]; cbn [andb].
      * destruct (Z.leb_spec expected (value args')) as [Hv|Hv].
        -- split; [intros E; injection E as <-; auto|].
           intros (_ & E & _). injection E as <-. reflexivity.
        -- split; [discriminate|]. intros (_ & E & _ & Hv').
           injection E as <-. lia.
      * split; [discriminate|]. intros (_ & E & Et' & _).
        injection E as <-. contradiction.
    + split; [discriminate|]. intros (_ & E & _). discriminate.
    + split; [discriminate|]. intros (_ & E & _). discriminate.
  - split; [discriminate|]. intros (Ea' & _). contradiction.
Qed.

Lemma scan_logs_cons proof expected found log logs :
  scan_logs proof expected found (log :: logs) =
    match payment_of expected log with
    | Some args =>
        match PaymentProof.payer proof with
        | Some payer =>
            if String.eqb (JS.toLowerCase (from args)) (JS.toLowerCase payer)
            then PaymentFound else PayerMismatch
        | None => scan_logs proof expected true logs
        end
    | None => scan_logs proof expected found logs
    end.
Proof.
  cbn [X402.scan_logs]. unfold X402.payment_of.
  destruct (String.eqb (JS.toLowerCase (address log)) _); cbn [negb];
    [|reflexivity].
  destruct (parseLog log) as [args| |]; try reflexivity.
  destruct (String.eqb (JS.toLowerCase (to args)) _); cbn [andb];
    [|reflexivity].
  destruct (expected <=? value args); [|reflexivity].
  destruct (PaymentProof.payer proof) as [payer|]; [|reflexivity].
  destruct (String.eqb (JS.toLowerCase (from args)) _); reflexivity.
Qed.

(** With a payer in the proof, the first log that pays decides. *)
Lemma scan_logs_payer proof expected payer logs :
  PaymentProof.payer proof = Some payer ->
  scan_logs proof expected false logs = PaymentFound <->
  exists args, first_payment expected logs args /\
               same_address (from args) payer.
Proof.
  intros Hp. induction logs as [|log logs IH].
  - cbn. split; [discriminate|].
    intros (args & (before & l & after & E & _) & _).
    destruct before; discriminate.
  - rewrite scan_logs_cons, Hp.
    destruct (payment_of expected log) as [args|] eqn:Hpay.
    + apply payment_of_pays in Hpay.
      destruct (String.eqb_spec (JS.toLowerCase (from args))
                  (JS.toLowerCase payer)) as [Ef|Ef].
      * split; [|reflexivity]. intros _. exists args. split; [|exact Ef].
        exists [], log, logs. split; [reflexivity|]. split; [|exact Hpay].
        intros l a Hl. apply elem_of_nil in Hl. contradiction.
      * split; [discriminate|].
        intros (args' & (before & l & after & E & Hnone & Hl) & Hsame).
        destruct before as [|l0 before]; cbn in E; injection E as E0 E'.
        -- subst l. destruct Hpay as (_ & E1 & _), Hl as (_ & E2 & _).
           rewrite E1 in E2. injection E2 as <-. contradiction.
        -- subst l0. exfalso.
           apply (Hnone log args); [apply list_elem_of_here|exact Hpay].
    + rewrite IH. split.
      * intros (args & (before & l & after & E & Hnone & Hl) & Hsame).
        exists args. split; [|exact Hsame].
        exists (log :: before), l, after. split; [rewrite E; reflexivity|].
        split; [|exact Hl]. intros l' a Hin.
        apply elem_of_cons in Hin as [->|Hin]; [|apply Hnone, Hin].
        intros Hpays. apply payment_of_pays in Hpays. congruence.
      * intros (args & (before & l & after & E & Hnone & Hl) & Hsame).
        exists args. split; [|exact Hsame].
        destruct before as [|l0 before]; cbn in E; injection E as E0 E'.
        -- subst l. apply payment_of_pays in Hl. congruence.
        -- subst l0. exists before, l, after. split; [exact E'|].
           split; [|exact Hl]. intros l' a Hin. apply Hnone.
           apply list_elem_of_further, Hin.
Qed.

(** Without a payer, any log that pays is enough. *)
Lemma scan_logs_no_payer proof expected found logs :
  PaymentProof.payer proof = None ->
  scan_logs proof expected found logs = PaymentFound <->
  found = true \/ exists log args, log ∈ logs /\ pays expected log args.
Proof.
  intros Hp. revert found. induction logs as [|log logs IH]; intros found.
  - cbn. destruct found; split; try discriminate; auto.
    intros [H|(log & args & Hin & _)]; [discriminate|].
    apply elem_of_nil in Hin. contradiction.
  - rewrite scan_logs_cons, Hp.
    destruct (payment_of expected log) as [args|] eqn:Hpay.
    + rewrite IH. split; [|auto]. intros _. right. exists log, args.
      split; [apply list_elem_of_here|apply payment_of_pays, Hpay].
    + rewrite IH. split.
      * intros [H|(l & a & Hin & Hl)]; [left; exact H|right].
        exists l, a. split; [apply list_elem_of_further, Hin|exact Hl].
      * intros [H|(l & a & Hin & Hl)]; [left; exact H|right].
        apply elem_of_cons in Hin as [->|Hin].
        -- apply payment_of_pays in Hl. congruence.
        -- exists l, a. auto.
Qed.

(** X9. [verifyPayment] accepts exactly when the proof names the Base
    chain, the receipt of its transaction is found with status 1 and the
    block number of the proof, and the first log that is a USDC transfer
    to the receiver of at least the expected amount comes from the payer
    of the proof (addresses compared without case).  When the proof has no
    payer, any such transfer is accepted, whoever sent it.  A proof for
    another chain is rejected without asking the RPC node. *)
Theorem verifyPayment_accepts proof expected w :
  (valid (fst (verifyPayment proof expected w)) = true <->
   PaymentProof.chainId proof = BASE_CHAIN_ID /\
   exists receipt,
     fst (getTransactionReceipt (PaymentProof.transactionHash proof) w)
       = Found receipt /\
     Receipt.status receipt = Some 1 /\
     Receipt.blockNumber receipt = PaymentProof.blockNumber proof /\
     match PaymentProof.payer proof with
     | Some payer =>
         exists args, first_payment expected (Receipt.logs receipt) args /\
                      same_address (from args) payer
     | None =>
         exists log args, log ∈ Receipt.logs receipt /\ pays expected log args
     end) /\
  (PaymentProof.chainId proof <> BASE_CHAIN_ID ->
   verifyPayment proof expected w
     = (rejected "Invalid chain ID - must be Base", w)).
Proof.
  unfold X402.verifyPayment. split.
  - destruct (Z.eqb_spec (PaymentProof.chainId proof) BASE_CHAIN_ID) as [Ec|Ec];
      cbn [negb]; [|split; [discriminate|intros [E _]; contradiction]].
    destruct (getTransactionReceipt (PaymentProof.transactionHash proof) w)
      as [[receipt| |e] w'] eqn:Hr; cbn [fst].
    2,3: split; [discriminate|intros (_ & r & E & _); discriminate].
    destruct (bool_decide_reflect (Receipt.status receipt = Some 1)) as [Es|Es];
      cbn [negb].
    2: { split; [discriminate|]. intros (_ & r & E & Es' & _).
         injection E as <-. contradiction. }
    destruct (Z.eqb_spec (Receipt.blockNumber receipt)
                (PaymentProof.blockNumber proof)) as [Eb|Eb]; cbn [negb].
    2: { split; [discriminate|]. intros (_ & r & E & _ & Eb' & _).
         injection E as <-. contradiction. }
    assert (Hscan : scan_logs proof expected false (Receipt.logs receipt)
                    = PaymentFound
              <-> match PaymentProof.payer proof with
                  | Some payer =>
                      exists args,
                        first_payment expected (Receipt.logs receipt) args /\
                        same_address (from args) payer
                  | None =>
                      exists log args, log ∈ Receipt.logs receipt /\
                                       pays expected log args
                  end).
    { destruct (PaymentProof.payer proof) as [payer|] eqn:Hp.
      - apply scan_logs_payer, Hp.
      - rewrite (scan_logs_no_payer _ _ _ _ Hp). split; [|auto].
        intros [H|H]; [discriminate|exact H]. }
    destruct (scan_logs proof expected false (Receipt.logs receipt));
      cbn [fst valid rejected].
    + split; [|reflexivity]. intros _. split; [exact Ec|].
      exists receipt. repeat split; try assumption. apply Hscan. reflexivity.
    + split; [discriminate|]. intros (_ & r & E & _ & _ & H).
      injection E as <-. apply Hscan in H. discriminate.
    + split; [discriminate|]. intros (_ & r & E & _ & _ & H).
      injection E as <-. apply Hscan in H. discriminate.
  - intros Hc.
    destruct (Z.eqb_spec (PaymentProof.chainId proof) BASE_CHAIN_ID);
      [contradiction|reflexivity].
Qed.

End VerifyFacts.

End PaymentFacts.

(** * Properties of the market search *)

Module SearchFacts.
Import Search RegexFacts.

Section SearchFacts.

Context {World : Type}.
Variable fetchGamma : string -> World -> option GammaResponse.t * World.

Local Abbreviation searchMarkets := (Search.searchMarkets fetchGamma).
Local Abbreviation listed := (Search.listed fetchGamma).

Lemma text_includes_contains text query :
  text_includes text (JS.toLowerCase query) = true <-> contains text query.
Proof.
  unfold text_includes, contains. destruct text as [t|].
  - rewrite includes_spec. split; [intros H; exists t; auto|].
    intros (t' & E & H). injection E as <-. exact H.
  - split; [discriminate|]. intros (t' & E & _). discriminate.
Qed.

Lemma filter_sublist {A} (f : A -> bool) l : sublist (List.filter f l) l.
Proof.
  induction l as [|x l IH]; cbn; [constructor|].
  destruct (f x); [apply sublist_skip|apply sublist_cons]; exact IH.
Qed.

Lemma searchMarkets_listed query w :
  fst (searchMarkets query w)
  = map found
      (List.filter
         (fun m => text_includes (GammaMarket.question m) (JS.toLowerCase query)
                   || text_includes (GammaMarket.description m)
                        (JS.toLowerCase query))
         (listed w)).
Proof.
  unfold Search.searchMarkets, Search.listed.
  destruct (fetchGamma search_url w) as [[response|] w']; [|reflexivity].
  destruct (GammaResponse.ok response); [|reflexivity]. cbn [negb].
  destruct (GammaResponse.json response); reflexivity.
Qed.

(** X10. [searchMarkets] returns, in the order of the Gamma API, the
    markets whose question or description contains the query, whatever the
    case of either; it returns nothing when the request fails, is answered
    with an error status, or has no JSON array. *)
Theorem searchMarkets_relevant query w :
  let result := fst (searchMarkets query w) in
  sublist result (map found (listed w)) /\
  (forall m, m ∈ result <->
     exists g, g ∈ listed w /\ relevant query g /\ m = found g) /\
  ((fst (fetchGamma search_url w) = None \/
    exists response, fst (fetchGamma search_url w) = Some response /\
      (GammaResponse.ok response = false \/
       GammaResponse.json response = None)) ->
   result = []).
Proof.
  intros result. subst result. rewrite searchMarkets_listed.
  split; [|split].
  - apply (fmap_sublist found), filter_sublist.
  - intros m. rewrite list_elem_of_fmap. split.
    + intros (g & -> & Hin). apply list_elem_of_In, List.filter_In in Hin.
      destruct Hin as [Hin Hf]. exists g. split; [apply list_elem_of_In, Hin|].
      split; [|reflexivity]. apply orb_true_iff in Hf.
      destruct Hf as [Hf|Hf]; [left|right]; apply text_includes_contains, Hf.
    + intros (g & Hin & Hrel & ->). exists g. split; [reflexivity|].
      apply list_elem_of_In, List.filter_In. split; [apply list_elem_of_In, Hin|].
      apply orb_true_iff.
      destruct Hrel as [H|H]; [left|right]; apply text_includes_contains, H.
  - intros Hfail.
    assert (E : listed w = []).
    { unfold Search.listed.
      destruct (fetchGamma search_url w) as [[response|] w']; [|reflexivity].
      cbn [fst] in Hfail.
      destruct Hfail as [H|(r & E & [H|H])]; [discriminate| |];
        injection E as <-; rewrite H; [reflexivity|].
      destruct (GammaResponse.ok response); reflexivity. }
    rewrite E. reflexivity.
Qed.

(** The first market found is the first listed market that is relevant. *)
Lemma searchMarkets_first query w first rest :
  fst (searchMarkets query w) = first :: rest ->
  exists before g after,
    listed w = before ++ g :: after /\
    (forall g', g' ∈ before -> ~ relevant query g') /\
    relevant query g /\ first = found g.
Proof.
  rewrite searchMarkets_listed. generalize (listed w). intros l.
  induction l as [|g l IH]; cbn [List.filter map]; [discriminate|].
  destruct (text_includes (GammaMarket.question g) _
            || text_includes (GammaMarket.description g) _) eqn:Hf.
  - cbn [map]. intros E. injection E as <- _. exists [], g, l.
    split; [reflexivity|]. split.
    + intros g' Hin. apply elem_of_nil in Hin. contradiction.
    + split; [|reflexivity]. apply orb_true_iff in Hf.
      destruct Hf as [Hf|Hf]; [left|right]; apply text_includes_contains, Hf.
  - intros E. destruct (IH E) as (before & g0 & after & -> & Hnone & Hrel & Hfirst).
    exists (g :: before), g0, after. split; [reflexivity|].
    split; [|auto]. intros g' Hin.
    apply elem_of_cons in Hin as [->|Hin]; [|apply Hnone, Hin].
    intros [H|H]; apply text_includes_contains in H; rewrite H in Hf;
      [discriminate|rewrite orb_true_r in Hf; discriminate].
Qed.

End SearchFacts.

End SearchFacts.

(** * Properties of the HTTP handlers *)

Module ApiFacts.
Import Globals Api GlobalsFacts SearchFacts.
Local Open Scope Z_scope.

(** ** Deleting an alert *)

Lemma get_alerts_lookup state i :
  AlertList.alerts (get_alerts state) !! i
  = (fun c => ListedAlert.mk i c (Engine.triggered state c))
      <$> alertConfigs state !! i.
Proof. apply list_lookup_imap. Qed.

Lemma delete_alert_at state i param :
  mathInt param = Some (Z.of_nat i) ->
  (i < length (alertConfigs state))%nat ->
  delete_alert param state
  = (Deleted, Engine.with_configs state (delete i (alertConfigs state))).
Proof.
  intros Hp Hi. unfold delete_alert. rewrite Hp.
  destruct (Z.ltb_spec (Z.of_nat i) 0) as [H|_]; [lia|].
  destruct (Z.leb_spec (Z.of_nat (length (alertConfigs state))) (Z.of_nat i))
    as [H|_]; [lia|].
  cbn [orb]. rewrite Nat2Z.id. reflexivity.
Qed.

(** X7. [DELETE /alerts/:id] reads the leading integer of the parameter
    (what follows the digits is ignored).  When it names a listed alert,
    that alert alone is removed and the alerts after it move one position
    down, so that [GET /alerts] shows them with an id one less; the stamps
    and the recorded keys are kept. *)
Theorem delete_alert_by_id state i rest c :
  alertConfigs state !! i = Some c ->
  ends_integer rest = true ->
  let state' := Engine.with_configs state (delete i (alertConfigs state)) in
  delete_alert (String.append (digits_of (Z.of_nat i)) rest) state
    = (Deleted, state') /\
  AlertList.count (get_alerts state')
    = pred (AlertList.count (get_alerts state)) /\
  (forall j, (j < i)%nat ->
     AlertList.alerts (get_alerts state') !! j
     = AlertList.alerts (get_alerts state) !! j) /\
  (forall j, (i <= j)%nat ->
     AlertList.alerts (get_alerts state') !! j
     = renumbered <$> AlertList.alerts (get_alerts state) !! S j).
Proof.
  intros Hc Hrest state'.
  assert (Hi : (i < length (alertConfigs state))%nat).
  { eapply lookup_lt_Some, Hc. }
  split; [|split; [|split]].
  - apply delete_alert_at; [|exact Hi].
    apply mathInt_digits; [lia|exact Hrest].
  - cbn. rewrite length_delete by (exists c; exact Hc). lia.
  - intros j Hj. rewrite !get_alerts_lookup. subst state'.
    cbn [alertConfigs Engine.with_configs].
    rewrite list_lookup_delete_lt by exact Hj. reflexivity.
  - intros j Hj. rewrite !get_alerts_lookup. subst state'.
    cbn [alertConfigs Engine.with_configs].
    rewrite list_lookup_delete_ge by exact Hj.
    destruct (alertConfigs state !! S j); reflexivity.
Qed.

Lemma delete_alert_by_id_witness :
  let state := {| alertConfigs := [Samples.hyphen_left; Samples.trump_above_60;
                                   Samples.hyphen_right];
                  lastChecked := ∅;
                  triggeredAlerts := ["M-Yes-60-above"%string] |} in
  fst (delete_alert "1.5" state) = Deleted /\
  map ListedAlert.config
    (AlertList.alerts (get_alerts (snd (delete_alert "1.5" state))))
    = [Samples.hyphen_left; Samples.hyphen_right].
Proof.
  intros state.
  destruct (delete_alert_by_id state 1 ".5" Samples.trump_above_60
              eq_refl eq_refl) as [E _].
  change (String.append (digits_of (Z.of_nat 1)) ".5") with "1.5"%string in E.
  rewrite E. split; reflexivity.
Defined.

Section HandlerFacts.

Context {World : Type}.
Variable fetch : Engine.Request -> World -> option Engine.Response * World.
Variable fetchGamma : string -> World -> option Search.GammaResponse.t * World.
Variable env_PAYMENT_RECEIVER : option string.
Variable getTransactionReceipt : string -> World -> X402.Lookup * World.
Variable parseLog : X402.Log -> X402.Parsed.
Variable randomNonce : World -> string * World.
Variable dateNow : World -> Z * World.
Variable JSON_parse : string -> option X402.PaymentProof.t.

Local Abbreviation request_payment :=
  (Api.request_payment env_PAYMENT_RECEIVER randomNonce dateNow).
Local Abbreviation create_alert := (Api.create_alert fetch fetchGamma).
Local Abbreviation post_alerts :=
  (Api.post_alerts fetch fetchGamma env_PAYMENT_RECEIVER
     getTransactionReceipt parseLog randomNonce dateNow JSON_parse).
Local Abbreviation listed := (Search.listed fetchGamma).

(** ** Pending payments *)

(** X11. A request without a payment proof is answered 402 with a payment
    request for 10000 units of USDC that expires an hour after the first
    reading of the clock.  The request is recorded under its nonce, and
    afterwards no pending payment is left whose expiry lies before the
    second reading of the clock (in seconds); the other pending payments
    are as they were.  The alerts, stamps and recorded keys are not
    touched. *)
Theorem request_payment_pending body state w :
  let '(nonce, w1) := randomNonce w in
  let '(millis1, w2) := dateNow w1 in
  let '(millis2, w3) := dateNow w2 in
  let now := millis2 / 1000 in
  let '(reply, state', w') := request_payment body state w in
  exists headers request,
    reply = PaymentRequiredReply headers request /\
    X402.PaymentRequest.nonce request = nonce /\
    X402.PaymentRequest.expiry request = millis1 / 1000 + 3600 /\
    X402.PaymentRequest.maxAmountRequired request = X402.ALERT_PRICE_USDC /\
    w' = w3 /\ engine state' = engine state /\
    (forall n p, pendingPayments state' !! n = Some p ->
       now <= PendingPayment.expiry p) /\
    (now <= millis1 / 1000 + 3600 ->
     pendingPayments state' !! nonce
       = Some (PendingPayment.mk nonce body (millis1 / 1000 + 3600))) /\
    (forall n, n <> nonce ->
       pendingPayments state' !! n
       = match pendingPayments state !! n with
         | Some p => if decide (PendingPayment.expiry p < now) then None
                     else Some p
         | None => None
         end).
Proof.
  unfold Api.request_payment, X402.createPaymentRequired.
  destruct (randomNonce w) as [nonce w1].
  destruct (dateNow w1) as [millis1 w2].
  destruct (dateNow w2) as [millis2 w3]. cbn zeta.
  cbn [X402.PaymentRequired.body X402.PaymentRequired.headers
       X402.PaymentRequest.nonce X402.PaymentRequest.expiry].
  eexists _, _. split; [reflexivity|]. cbn.
  repeat (split; [reflexivity|]).
  split; [|split].
  - intros n p Hp. apply map_lookup_filter_Some in Hp as [_ Hp].
    cbn in Hp. unfold expired in Hp. lia.
  - intros Hfresh. apply map_lookup_filter_Some. split.
    + apply lookup_insert_eq.
    + cbn. unfold expired. cbn. lia.
  - intros n Hn. rewrite map_lookup_filter, lookup_insert_ne by congruence.
    destruct (pendingPayments state !! n) as [p|]; [|reflexivity]. cbn.
    unfold expired. destruct (decide (PendingPayment.expiry p < millis2 / 1000));
      case_guard; try reflexivity; contradiction.
Qed.

(** ** Creating an alert *)

Lemma delete_last {A} (l : list A) x : delete (length l) (l ++ [x]) = l.
Proof.
  induction l as [|y l IH]; [reflexivity|].
  change (y :: delete (length l) (l ++ [x]) = y :: l). rewrite IH. reflexivity.
Qed.

Lemma create_alert_cases body state w :
  let '(reply, state', w') := create_alert body state w in
  match created_id reply with
  | Some id =>
      exists c, id = Z.of_nat (length (alertConfigs (engine state))) /\
                state' = push_config state c
  | None => state' = state
  end.
Proof.
  unfold Api.create_alert.
  assert (Hid : forall c,
            last_id (push_config state c)
            = Z.of_nat (length (alertConfigs (engine state)))).
  { intros c. unfold last_id. cbn. rewrite length_app. cbn. lia. }
  destruct (truthy (AlertBody.naturalLanguage body)) as [text|] eqn:Ht,
           (truthy (AlertBody.marketId body)) as [id|] eqn:Hm.
  1,3,4:
    destruct (nonzero (AlertBody.threshold body)) as [th|];
    destruct (truthy (Some (AlertBody.notifyUrl body))) as [url|];
    try reflexivity;
    try (destruct (Engine.fetchMarketData fetch _ w) as [[market|] w1];
         [cbn [created_id]; eexists; split; [apply Hid|reflexivity]
         |reflexivity]).
  destruct (Parser.parseAlertRequest text (AlertBody.notifyUrl body))
    as [parsed|]; [|reflexivity].
  destruct (Search.searchMarkets fetchGamma text w) as [[|first rest] w1];
    [reflexivity|].
  cbn [created_id]. eexists. split; [apply Hid|reflexivity].
Qed.

(** X12. When the paid branch of [POST /alerts] creates an alert, its id
    is the position at which [GET /alerts] lists it, after the alerts that
    were there; it is listed as triggered when its key was already
    recorded; and deleting that id gives back the alerts as they were.
    With any other answer the state is unchanged. *)
Theorem created_alert_listed body state w :
  let '(reply, state', w') := create_alert body state w in
  match created_id reply with
  | Some id =>
      exists c,
        alertConfigs (engine state') = alertConfigs (engine state) ++ [c] /\
        lastChecked (engine state') = lastChecked (engine state) /\
        triggeredAlerts (engine state') = triggeredAlerts (engine state) /\
        pendingPayments state' = pendingPayments state /\
        AlertList.alerts (get_alerts (engine state')) !! Z.to_nat id
          = Some (ListedAlert.mk (Z.to_nat id) c
                    (Engine.triggered (engine state) c)) /\
        delete_alert (digits_of id) (engine state') = (Deleted, engine state)
  | None => state' = state
  end.
Proof.
  pose proof (create_alert_cases body state w) as H.
  destruct (create_alert body state w) as [[reply state'] w'].
  destruct (created_id reply) as [id|]; [|exact H].
  destruct H as (c & -> & ->). exists c.
  cbn [push_config engine pendingPayments Engine.with_configs alertConfigs
       lastChecked triggeredAlerts].
  repeat (split; [reflexivity|]). rewrite Nat2Z.id. split.
  - rewrite get_alerts_lookup. cbn [alertConfigs Engine.with_configs].
    rewrite lookup_app_r by lia. rewrite Nat.sub_diag. reflexivity.
  - rewrite <- (RegexFacts.append_nil_r (digits_of _)).
    rewrite (delete_alert_at _ (length (alertConfigs (engine state)))).
    + cbn [alertConfigs Engine.with_configs]. rewrite delete_last.
      f_equal. destruct (engine state). reflexivity.
    + apply mathInt_digits; [lia|reflexivity].
    + cbn. rewrite length_app. cbn. lia.
Qed.

(** X13. An alert created from natural language takes the first market of
    the Gamma list whose question or description contains the whole
    request text (whatever the case): without such a market none is
    created. *)
Theorem natural_language_needs_whole_text body state w id market o th d
    state' w' :
  create_alert body state w
    = (CreatedFromText id market o th d, state', w') ->
  exists text parsed before g after,
    truthy (AlertBody.naturalLanguage body) = Some text /\
    Parser.parseAlertRequest text (AlertBody.notifyUrl body) = Some parsed /\
    listed w = before ++ g :: after /\
    (forall g', g' ∈ before -> ~ Search.relevant text g') /\
    Search.relevant text g /\
    market = Search.GammaMarket.question g /\
    state' = push_config state
               {| marketId := Search.GammaMarket.conditionId g;
                  outcome := outcome parsed;
                  threshold := threshold parsed;
                  direction := direction parsed;
                  notifyUrl := AlertBody.notifyUrl body |}.
Proof.
  unfold Api.create_alert.
  destruct (truthy (AlertBody.naturalLanguage body)) as [text|] eqn:Ht,
           (truthy (AlertBody.marketId body)) as [mid|] eqn:Hm.
  1,3,4:
    destruct (nonzero (AlertBody.threshold body)) as [t|];
    destruct (truthy (Some (AlertBody.notifyUrl body))) as [url|];
    try discriminate;
    destruct (Engine.fetchMarketData fetch _ w) as [[m|] w1]; discriminate.
  destruct (Parser.parseAlertRequest text (AlertBody.notifyUrl body))
    as [parsed|] eqn:Hp; [|discriminate].
  destruct (Search.searchMarkets fetchGamma text w) as [[|first rest] w1]
    eqn:Hs; [discriminate|].
  intros E. injection E as _ <- _ _ _ <- _.
  assert (Hs' : fst (Search.searchMarkets fetchGamma text w) = first :: rest)
    by (rewrite Hs; reflexivity).
  apply searchMarkets_first in Hs'
    as (before & g & after & El & Hnone & Hrel & ->).
  exists text, parsed, before, g, after.
  repeat (split; [assumption||reflexivity|]). reflexivity.
Qed.

(** X14. A payment proof is never compared with the payment requests that
    were issued: whatever the pending payments are, a request with a proof
    gets the same answer and creates the same alert, and the pending
    payments stay as they were. *)
Theorem proof_ignores_pending body header engine0 pending pending' w :
  truthy (Some header) = Some header ->
  let run p := post_alerts body (Some header)
                 {| engine := engine0; pendingPayments := p |} w in
  fst (fst (run pending)) = fst (fst (run pending')) /\
  engine (snd (fst (run pending))) = engine (snd (fst (run pending'))) /\
  snd (run pending) = snd (run pending') /\
  pendingPayments (snd (fst (run pending))) = pending.
Proof.
  intros Hh run. subst run. unfold Api.post_alerts. rewrite Hh.
  destruct (JSON_parse header) as [proof|]; [|repeat split].
  destruct (X402.verifyPayment _ _ _ proof X402.ALERT_PRICE w)
    as [verification w1].
  destruct (X402.valid verification); cbn [negb]; [|repeat split].
  unfold Api.create_alert.
  destruct (truthy (AlertBody.naturalLanguage body)) as [text|],
           (truthy (AlertBody.marketId body)) as [mid|].
  1,3,4:
    destruct (nonzero (AlertBody.threshold body)) as [t|];
    destruct (truthy (Some (AlertBody.notifyUrl body))) as [url|];
    try (repeat split; fail);
    destruct (Engine.fetchMarketData fetch _ w1) as [[m|] w2]; repeat split.
  destruct (Parser.parseAlertRequest text (AlertBody.notifyUrl body))
    as [parsed|]; [|repeat split].
  destruct (Search.searchMarkets fetchGamma text w1) as [[|first rest] w2];
    repeat split.
Qed.

End HandlerFacts.

(** *** On the scripted service *)

Import X402 Samples ApiSamples.
Local Open Scope string_scope.

Lemma natural_language_needs_whole_text_witness :
  exists text parsed before g after,
    truthy (AlertBody.naturalLanguage text_body) = Some text /\
    Parser.parseAlertRequest text (AlertBody.notifyUrl text_body)
      = Some parsed /\
    Search.listed scripted_gamma 0%nat = (before ++ g :: after)%list /\
    (forall g', g' ∈ before -> ~ Search.relevant text g') /\
    Search.relevant text g /\
    Some "Will Trump win?" = Search.GammaMarket.question g /\
    snd (fst (Api.create_alert (scripted_fetch true) scripted_gamma
                text_body empty_service 0%nat))
    = push_config empty_service
        {| marketId := Search.GammaMarket.conditionId g;
           outcome := outcome parsed;
           threshold := threshold parsed;
           direction := direction parsed;
           notifyUrl := AlertBody.notifyUrl text_body |}.
Proof.
  apply (natural_language_needs_whole_text
           (scripted_fetch true) scripted_gamma text_body empty_service 0%nat
           1 (Some "Will Trump win?") "Yes" (Num 60 0) above _ 1%nat).
  vm_compute. reflexivity.
Defined.

Lemma proof_ignores_pending_witness :
  let run p :=
    Api.post_alerts (scripted_fetch true) scripted_gamma None
      scripted_receipt scripted_parseLog scripted_nonce scripted_now
      scripted_JSON text_body (Some "anonymous")
      {| engine := sample_state None []; pendingPayments := p |} 0%nat in
  created_id (fst (fst (run ∅))) = Some 1 /\
  fst (fst (run ∅)) = fst (fst (run one_pending)) /\
  engine (snd (fst (run ∅))) = engine (snd (fst (run one_pending))) /\
  snd (run ∅) = snd (run one_pending) /\
  pendingPayments (snd (fst (run ∅))) = ∅.
Proof.
  split; [vm_compute; reflexivity|].
  apply (proof_ignores_pending
           (scripted_fetch true) scripted_gamma None
           scripted_receipt scripted_parseLog scripted_nonce scripted_now
           scripted_JSON text_body "anonymous" (sample_state None [])
           ∅ one_pending 0%nat).
  reflexivity.
Defined.

End ApiFacts.

(** * Properties of the keyword extraction *)

Module KeywordsFacts.
Import Regex RegexOps Parser Keywords KeywordsVocabulary RegexFacts.
Local Open Scope string_scope.
Local Arguments String.append : simpl nomatch.

Example extractSubject_examples :
  map extractSubject
    ["Alert me when Trump election odds exceed 60%";
     "Notify when Bitcoin ETF approval drops below 30%";
     "If inflation falls under 25%, let me know";
     "Watch when No hits 40 cents on AI regulation";
     "Trump above 60% Biden";
     "exceeds 5"]
  = ["Trump election odds"; "Bitcoin ETF approval drops";
     "If inflation falls"; "Noon AI regulation"; "TrumpBiden"; "exceeds 5"].
Proof. vm_compute. reflexivity. Qed.

Example extractSearchKeywords_examples :
  map extractSearchKeywords
    ["Alert me when Trump election odds exceed 60%";
     "Tell me if recession probability goes above 55%";
     "Watch when No hits 40 cents on AI regulation";
     "Alert me about Bitcoin odds";
     "the weather today"]
  = [["Trump"; "odds exceed 60%"; "Alert me when Trump"];
     ["probability goes above 55%"];
     ["Noon"; "AI regulation"];
     ["Bitcoin"];
     ["weather"; "today"]].
Proof. vm_compute. reflexivity. Qed.

(** ** White-space runs *)

Lemma after_white_rest before s cs :
  String.length (rest (after_white before s cs))
  = (String.length s - white_prefix s)%nat.
Proof.
  revert before. induction s as [|c t IH]; intros before; [reflexivity|].
  cbn [after_white white_prefix]. destruct (JS.is_white c).
  - rewrite IH. reflexivity.
  - cbn. lia.
Qed.

Lemma white_prefix_le s : (white_prefix s <= String.length s)%nat.
Proof.
  induction s as [|c t IH]; [reflexivity|]. cbn.
  destruct (JS.is_white c); lia.
Qed.

Lemma white_star ic fuel before s cs :
  (String.length s <= fuel)%nat ->
  star_loop (rmatch ic (Cls Space)) true Some fuel (MState before s cs)
  = Some (after_white before s cs).
Proof.
  revert before s. induction fuel as [|fuel IH]; intros before s Hfuel.
  - destruct s; [reflexivity|cbn in Hfuel; lia].
  - cbn [star_loop rmatch]. unfold step_char. cbn [rest].
    destruct s as [|c t]; [reflexivity|]. cbn [in_class after_white].
    destruct (JS.is_white c); [|reflexivity].
    unfold remaining. cbn [rest caps String.length].
    rewrite (proj2 (Nat.ltb_lt _ _)) by lia.
    rewrite IH by (cbn in Hfuel; lia). reflexivity.
Qed.

Lemma white_run_match before s :
  amatch_at white_run before s 0 =
    match white_prefix s with
    | O => None
    | S _ =>
        Some (MatchResult 0
                (JS.take (String.length s
                          - String.length (rest (after_white before s [])))
                   s)
                [] (rest (after_white before s [])))
    end.
Proof.
  unfold amatch_at, white_run. cbn [abody aignoreCase amatch].
  unfold spaces1, Plus. cbn [rmatch]. unfold step_char. cbn [rest].
  destruct s as [|c t]; [reflexivity|]. cbn [in_class white_prefix after_white].
  destruct (JS.is_white c) eqn:Hc; [|reflexivity].
  unfold remaining at 1. cbn [rest caps].
  pose proof (white_star false (String.length t) (Some c) t [] (le_n _)) as W.
  cbn [rmatch] in W. unfold step_char in W. cbn [in_class] in W.
  rewrite W. clear W.
  assert (Hcaps : forall b u cs, caps (after_white b u cs) = cs).
  { intros b u cs. revert b. induction u as [|x u IH]; intros b; [reflexivity|].
    cbn. destruct (JS.is_white x); [apply IH|reflexivity]. }
  unfold consumed, remaining. cbn [rest]. rewrite Hcaps. reflexivity.
Qed.

Lemma white_run_scan s :
  (forall before, replace_scan white_run " " before s 0 = collapse false s) /\
  (forall before,
     replace_scan white_run " " before s (white_prefix s) = collapse true s).
Proof.
  induction s as [|c t [IH0 IH1]].
  - split; intros before; reflexivity.
  - assert (H0 : forall before,
              replace_scan white_run " " before (String c t) 0
              = collapse false (String c t)).
    { intros before. cbn [replace_scan]. rewrite white_run_match.
      cbn [white_prefix collapse]. destruct (JS.is_white c) eqn:Hc.
      - cbn [matched]. rewrite NumberFacts.length_take by lia.
        rewrite after_white_rest. cbn [white_prefix String.length].
        rewrite Hc.
        pose proof (white_prefix_le t) as Hle.
        replace (S (String.length t) - (S (String.length t) - S (white_prefix t)))%nat
          with (S (white_prefix t)) by lia.
        rewrite IH1. reflexivity.
      - rewrite IH0. reflexivity. }
    split; [exact H0|]. intros before. cbn [white_prefix].
    destruct (JS.is_white c) eqn:Hc.
    + cbn [replace_scan collapse]. rewrite Hc. apply IH1.
    + rewrite H0. cbn [collapse]. rewrite Hc. reflexivity.
Qed.

(** [text.replace(/\s+/g, ' ')] replaces every run of white space by one
    space. *)
Lemma replace_all_white s : replace_all white_run " " s = collapse false s.
Proof. apply white_run_scan. Qed.

Lemma collapse_single_spaced s :
  single_spaced (collapse false s) = true /\
  single_spaced (collapse true s) = true /\
  starts_black (collapse true s) = true.
Proof.
  induction s as [|c t (IH0 & IH1 & IHb)]; [repeat split|].
  cbn [collapse]. destruct (JS.is_white c) eqn:Hc.
  - split; [|split; assumption]. cbn [single_spaced].
    rewrite IH1, IHb. reflexivity.
  - cbn [single_spaced starts_black]. rewrite Hc, IH0. repeat split.
Qed.

(** ** Trimming *)

Lemma single_spaced_tail c t :
  single_spaced (String c t) = true -> single_spaced t = true.
Proof. cbn. intros H. apply andb_true_iff in H. apply H. Qed.

Lemma single_spaced_trimStart s :
  single_spaced s = true -> single_spaced (JS.trimStart s) = true.
Proof.
  induction s as [|c t IH]; [reflexivity|]. intros H. cbn [JS.trimStart].
  destruct (JS.is_white c); [|exact H]. apply IH.
  eapply single_spaced_tail, H.
Qed.

Lemma trimEnd_starts s :
  starts_black s = true -> starts_black (JS.trimEnd s) = true.
Proof.
  destruct s as [|c t]; [reflexivity|]. cbn [starts_black JS.trimEnd].
  intros Hc. destruct (JS.trimEnd t).
  - apply negb_true_iff in Hc. rewrite Hc. cbn. rewrite Hc. reflexivity.
  - cbn. exact Hc.
Qed.

Lemma trimEnd_empty_black s :
  JS.trimEnd s = "" -> starts_black s = true -> s = "".
Proof.
  destruct s as [|c t]; [reflexivity|]. cbn [JS.trimEnd starts_black].
  intros H Hc. apply negb_true_iff in Hc. rewrite Hc in H.
  destruct (JS.trimEnd t); discriminate.
Qed.

Lemma single_spaced_trimEnd s :
  single_spaced s = true -> single_spaced (JS.trimEnd s) = true.
Proof.
  induction s as [|c t IH]; [reflexivity|]. intros H.
  pose proof (single_spaced_tail c t H) as Ht. specialize (IH Ht).
  cbn [JS.trimEnd]. destruct (JS.trimEnd t) as [|c' t'] eqn:E.
  - destruct (JS.is_white c) eqn:Hc; [reflexivity|]. cbn. rewrite Hc.
    reflexivity.
  - change (single_spaced (String c (String c' t')))
      with ((negb (JS.is_white c)
             || (Ascii.eqb c " " && starts_black (String c' t')))
            && single_spaced (String c' t')).
    rewrite IH, andb_true_r. cbn [single_spaced] in H.
    apply andb_true_iff in H as [H _]. apply orb_true_iff in H as [H|H].
    + rewrite H. reflexivity.
    + apply andb_true_iff in H as [Hsp Hb]. rewrite Hsp.
      pose proof (trimEnd_starts t Hb) as Hb'. rewrite E in Hb'.
      rewrite Hb', orb_true_r. reflexivity.
Qed.

Lemma trimStart_black s : starts_black (JS.trimStart s) = true.
Proof.
  induction s as [|c t IH]; [reflexivity|]. cbn [JS.trimStart].
  destruct (JS.is_white c) eqn:Hc; [exact IH|]. cbn. rewrite Hc. reflexivity.
Qed.

Lemma trimStart_id s : starts_black s = true -> JS.trimStart s = s.
Proof.
  destruct s as [|c t]; [reflexivity|]. cbn. intros H.
  apply negb_true_iff in H. rewrite H. reflexivity.
Qed.

Lemma trimEnd_cons c s :
  JS.trimEnd s <> "" -> JS.trimEnd (String c s) = String c (JS.trimEnd s).
Proof.
  intros H. cbn [JS.trimEnd]. destruct (JS.trimEnd s); [contradiction|].
  reflexivity.
Qed.

Lemma trimEnd_idem s : JS.trimEnd (JS.trimEnd s) = JS.trimEnd s.
Proof.
  induction s as [|c t IH]; [reflexivity|].
  destruct (JS.trimEnd t) as [|c' t'] eqn:E.
  - cbn [JS.trimEnd]. rewrite E.
    destruct (JS.is_white c) eqn:Hc; [reflexivity|]. cbn. rewrite Hc.
    reflexivity.
  - rewrite (trimEnd_cons c t) by (rewrite E; discriminate). rewrite E.
    rewrite trimEnd_cons by (rewrite IH; discriminate). rewrite IH.
    reflexivity.
Qed.

(** Trimming twice is trimming once. *)
Lemma trim_idem s : JS.trim (JS.trim s) = JS.trim s.
Proof.
  unfold JS.trim.
  rewrite (trimStart_id (JS.trimEnd (JS.trimStart s))).
  - apply trimEnd_idem.
  - apply trimEnd_starts, trimStart_black.
Qed.

Lemma single_spaced_trim s :
  single_spaced s = true -> single_spaced (JS.trim s) = true.
Proof.
  intros H. apply single_spaced_trimEnd, single_spaced_trimStart, H.
Qed.

(** X15. [extractSubject] never answers the empty string for a text that
    is not empty; and when its answer is not the text itself, the answer
    is trimmed and its only white space is single spaces between other
    characters. *)
Theorem extractSubject_normalised text :
  (extractSubject text = "" <-> text = "") /\
  (extractSubject text = text \/
   (JS.trim (extractSubject text) = extractSubject text /\
    single_spaced (extractSubject text) = true)).
Proof.
  unfold extractSubject.
  set (c3 := replace trailing_phrase ""
               (replace_all threshold_phrase "" (replace alert_prefix "" text))).
  rewrite replace_all_white.
  destruct (JS.trim (collapse false c3)) as [|x r] eqn:E.
  - cbn [or_string]. split; [reflexivity|]. left. reflexivity.
  - cbn [or_string]. split; [split; [discriminate|]|].
    + intros ->. subst c3. vm_compute in E. discriminate.
    + right. rewrite <- E. split; [apply trim_idem|].
      apply single_spaced_trim, collapse_single_spaced.
Qed.

(** ** Keywords *)

Lemma unique_elem x l : x ∈ unique l <-> x ∈ l.
Proof.
  induction l as [|y l IH]; [reflexivity|]. cbn [unique].
  rewrite !elem_of_cons, <- IH. split.
  - intros [->|H]; [left; reflexivity|].
    apply list_elem_of_In, List.filter_In in H as [H _].
    right. apply list_elem_of_In, H.
  - intros [->|H]; [left; reflexivity|].
    destruct (String.eqb_spec y x) as [->|Hne]; [left; reflexivity|].
    right. apply list_elem_of_In, List.filter_In.
    split; [apply list_elem_of_In, H|].
    apply negb_true_iff, String.eqb_neq. exact Hne.
Qed.

Lemma NoDup_filter_bool {A} (f : A -> bool) l :
  NoDup l -> NoDup (List.filter f l).
Proof.
  induction 1 as [|x l Hx _ IH]; cbn; [constructor|].
  destruct (f x); [|exact IH]. constructor; [|exact IH].
  intros Hin. apply Hx. apply list_elem_of_In, List.filter_In in Hin as [Hin _].
  apply list_elem_of_In, Hin.
Qed.

Lemma unique_NoDup l : NoDup (unique l).
Proof.
  induction l as [|x l IH]; cbn [unique]; constructor.
  - intros Hin. apply list_elem_of_In, List.filter_In in Hin as [_ Hin].
    rewrite String.eqb_refl in Hin. discriminate.
  - apply NoDup_filter_bool, IH.
Qed.

Lemma unique_length l : (length (unique l) <= length l)%nat.
Proof.
  induction l as [|x l IH]; [reflexivity|]. cbn [unique length].
  pose proof (List.filter_length_le (fun y => negb (String.eqb x y)) (unique l)).
  lia.
Qed.

(** X16. [extractSearchKeywords] returns each keyword once; every keyword
    is a capitalised phrase of the subject, the trimmed capture of a topic
    pattern or, when there is neither, one of the first three words of
    the subject that are longer than three characters. *)
Theorem extractSearchKeywords_distinct request :
  let subject := extractSubject request in
  let keywords := extractSearchKeywords request in
  NoDup keywords /\
  (forall kw, kw ∈ keywords ->
     kw ∈ default [] (match_all named_entity subject) \/
     kw ∈ topics request \/
     (match_all named_entity subject = None /\ topics request = [] /\
      kw ∈ long_words subject /\ (3 < String.length kw)%nat)) /\
  (match_all named_entity subject = None -> topics request = [] ->
   (length keywords <= 3)%nat).
Proof.
  intros subject keywords. subst keywords. unfold extractSearchKeywords.
  fold subject. split; [apply unique_NoDup|]. split.
  - intros kw Hkw. apply (proj1 (unique_elem _ _)) in Hkw.
    destruct (default [] (match_all named_entity subject)
                ++ topics request)%list as [|k ks] eqn:E.
    + apply app_eq_nil in E as [E1 E2]. right. right.
      assert (Hnone : match_all named_entity subject = None).
      { destruct (match_all named_entity subject) as [l|] eqn:Hm;
          [|reflexivity].
        unfold match_all in Hm. cbn in E1. subst l.
        destruct (match_scan named_entity None subject 0); discriminate. }
      split; [exact Hnone|]. split; [exact E2|].
      assert (Hin : kw ∈ long_words subject).
      { apply elem_of_take in Hkw as (i & Hi & _).
        eapply list_elem_of_lookup_2, Hi. }
      split; [exact Hin|].
      unfold long_words in Hin.
      apply list_elem_of_In, List.filter_In in Hin as [_ Hin].
      apply Nat.ltb_lt, Hin.
    + rewrite <- E in Hkw. apply elem_of_app in Hkw as [H|H]; auto.
  - intros Hnone Htopics. rewrite Hnone, Htopics. cbn [default app].
    etransitivity; [apply unique_length|]. rewrite length_firstn. lia.
Qed.

Lemma extractSearchKeywords_distinct_witness :
  extractSearchKeywords "the weather today" = ["weather"; "today"] /\
  (length (extractSearchKeywords "the weather today") <= 3)%nat.
Proof.
  split; [vm_compute; reflexivity|].
  apply (extractSearchKeywords_distinct "the weather today");
    vm_compute; reflexivity.
Defined.

End KeywordsFacts.

(** * Properties of the captures *)

Module CaptureFacts.
Import Regex Parser Captures RegexFacts.
Local Open Scope string_scope.
Local Arguments String.append : simpl nomatch.

Lemma occurs_refl w : occurs w w.
Proof. exists "", "". cbn. rewrite append_nil_r. reflexivity. Qed.

Lemma occurs_left v a b : occurs v a -> occurs v (a ++ b).
Proof.
  intros (pre & post & ->). exists pre, (post ++ b).
  rewrite !append_assoc. reflexivity.
Qed.

Lemma occurs_right v a b : occurs v b -> occurs v (a ++ b).
Proof.
  intros (pre & post & ->). exists (a ++ pre), post.
  rewrite !append_assoc. reflexivity.
Qed.

Lemma occurs_trans u v w : occurs u v -> occurs v w -> occurs u w.
Proof.
  intros (p1 & q1 & ->) (p2 & q2 & ->). exists (p2 ++ p1), (q1 ++ q2).
  rewrite !append_assoc. reflexivity.
Qed.

Lemma captured_weaken ic gs gs' w w' new :
  captured ic gs w new -> (forall x, In x gs -> In x gs') ->
  (forall v, occurs v w -> occurs v w') -> captured ic gs' w' new.
Proof.
  intros H Hg Hw n v Hin. destruct (H n v Hin) as (b & Hb & L & Ho).
  exists b. auto.
Qed.

Lemma captured_app ic gs w new1 new2 :
  captured ic gs w new1 -> captured ic gs w new2 ->
  captured ic gs w (new1 ++ new2)%list.
Proof.
  intros H1 H2 n v Hin. apply in_app_or in Hin as [Hin|Hin]; auto.
Qed.

Lemma take_append w t : JS.take (String.length w) (w ++ t) = w.
Proof. induction w as [|c w IH]; cbn; [destruct t|rewrite IH]; reflexivity. Qed.

Lemma consumed_word (s s' : mstate) w :
  rest s = w ++ rest s' -> consumed s s' = w.
Proof.
  intros E. unfold consumed, remaining. rewrite E, length_append.
  replace (String.length w + String.length (rest s') - String.length (rest s'))%nat
    with (String.length w) by lia.
  apply take_append.
Qed.

Lemma star_loop_captures ic greedy r body :
  capture_sound_on ic r [] body ->
  forall fuel, capture_sound_on ic (Star greedy r) []
                 (fun k s => star_loop body greedy k fuel s).
Proof.
  intros Hbody fuel k. induction fuel as [|fuel IH]; intros s res H.
  - cbn in H. exists "", s, []. split; [reflexivity|].
    split; [constructor|]. split; [exact H|]. split; [reflexivity|].
    split; [intros n v []|intros n []].
  - cbn [star_loop] in H.
    set (next := fun s1 : mstate => _) in H.
    assert (Hiter : forall res', body next s = Some res' ->
              exists w s' new,
                rest s = w ++ rest s' /\ lang ic (Star greedy r) w /\
                k s' = Some res' /\ caps s' = (new ++ caps s)%list /\
                captured ic (groups_of (Star greedy r)) w new /\
                (forall n, In n [] -> exists v, In (n, v) new)).
    { intros res' Hb.
      apply Hbody in Hb as (w1 & s1 & new1 & E1 & L1 & Hk1 & C1 & G1 & _).
      unfold next in Hk1.
      destruct (remaining s1 <? remaining s)%nat; [|discriminate].
      apply IH in Hk1 as (w2 & s2 & new2 & E2 & L2 & Hk2 & C2 & G2 & _).
      exists (w1 ++ w2), s2, (new2 ++ new1)%list.
      rewrite append_assoc, <- E2, <- E1.
      split; [reflexivity|]. split; [constructor; assumption|].
      split; [exact Hk2|]. split; [rewrite C2, C1, app_assoc; reflexivity|].
      split; [|intros n []].
      apply captured_app.
      - eapply captured_weaken; [exact G2|auto|]. intros v. apply occurs_right.
      - eapply captured_weaken; [exact G1|auto|]. intros v. apply occurs_left. }
    assert (Hstop : forall res', k s = Some res' ->
              exists w s' new,
                rest s = w ++ rest s' /\ lang ic (Star greedy r) w /\
                k s' = Some res' /\ caps s' = (new ++ caps s)%list /\
                captured ic (groups_of (Star greedy r)) w new /\
                (forall n, In n [] -> exists v, In (n, v) new)).
    { intros res' Hk. exists "", s, []. split; [reflexivity|].
      split; [constructor|]. split; [exact Hk|]. split; [reflexivity|].
      split; [intros n v []|intros n []]. }
    clearbody next. destruct greedy.
    + destruct (body next s) as [res1|] eqn:Hb.
      * injection H as <-. apply Hiter. reflexivity.
      * apply Hstop. exact H.
    + destruct (k s) as [res1|] eqn:Hk.
      * injection H as <-. apply Hstop. reflexivity.
      * apply Hiter. exact H.
Qed.

Lemma capture_sound_weaken ic r sure sure' m :
  capture_sound_on ic r sure m -> (forall n, In n sure' -> In n sure) ->
  capture_sound_on ic r sure' m.
Proof.
  intros H Hs k s res Hm.
  apply H in Hm as (w & s' & new & E & L & Hk & C & G & S).
  exists w, s', new. repeat (split; [assumption|]). auto.
Qed.

Lemma in_filter_sure n l1 l2 :
  In n (List.filter (fun n => existsb (Nat.eqb n) l2) l1) -> In n l1 /\ In n l2.
Proof.
  intros H. apply List.filter_In in H as [H1 H2]. split; [exact H1|].
  apply existsb_exists in H2 as (x & Hx & E). apply Nat.eqb_eq in E.
  subst x. exact Hx.
Qed.

(** The matcher records, for each group that took part, a word of the
    group that is a part of the text read. *)
Lemma rmatch_captures ic r :
  capture_sound_on ic r (sure_groups r) (rmatch ic r).
Proof.
  induction r as [|c|cl|r1 IH1 r2 IH2|r1 IH1 r2 IH2|g r1 IH1|n r1 IH1|];
    intros k s res H; cbn [rmatch] in H.
  - exists "", s, []. split; [reflexivity|]. split; [constructor|].
    split; [exact H|]. split; [reflexivity|].
    split; [intros n v []|intros n []].
  - unfold step_char in H. destruct (rest s) as [|x t] eqn:E; [discriminate|].
    destruct (char_matches ic c x) eqn:Hok; [|discriminate].
    exists (String x ""), (MState (Some x) t (caps s)), [].
    split; [reflexivity|]. split; [constructor; exact Hok|].
    split; [exact H|]. split; [reflexivity|].
    split; [intros n v []|intros n []].
  - unfold step_char in H. destruct (rest s) as [|x t] eqn:E; [discriminate|].
    destruct (in_class cl x) eqn:Hok; [|discriminate].
    exists (String x ""), (MState (Some x) t (caps s)), [].
    split; [reflexivity|]. split; [constructor; exact Hok|].
    split; [exact H|]. split; [reflexivity|].
    split; [intros n v []|intros n []].
  - apply IH1 in H as (w1 & s1 & new1 & E1 & L1 & H & C1 & G1 & S1).
    apply IH2 in H as (w2 & s2 & new2 & E2 & L2 & H & C2 & G2 & S2).
    exists (w1 ++ w2), s2, (new2 ++ new1)%list.
    rewrite append_assoc, <- E2, <- E1.
    split; [reflexivity|]. split; [constructor; assumption|].
    split; [exact H|]. split; [rewrite C2, C1, app_assoc; reflexivity|].
    split.
    + apply captured_app.
      * eapply captured_weaken; [exact G2| |].
        -- intros x Hx. cbn. apply in_or_app. right. exact Hx.
        -- intros v. apply occurs_right.
      * eapply captured_weaken; [exact G1| |].
        -- intros x Hx. cbn. apply in_or_app. left. exact Hx.
        -- intros v. apply occurs_left.
    + intros n Hn. cbn in Hn. apply in_app_or in Hn as [Hn|Hn].
      * destruct (S1 n Hn) as [v Hv]. exists v. apply in_or_app. right. exact Hv.
      * destruct (S2 n Hn) as [v Hv]. exists v. apply in_or_app. left. exact Hv.
  - destruct (rmatch ic r1 k s) as [res1|] eqn:H1.
    + injection H as <-.
      apply IH1 in H1 as (w & s' & new & E & L & Hk & C & G & S).
      exists w, s', new. split; [exact E|]. split; [apply lang_alt_l; exact L|].
      split; [exact Hk|]. split; [exact C|]. split.
      * eapply captured_weaken; [exact G| |auto].
        intros x Hx. cbn. apply in_or_app. left. exact Hx.
      * intros n Hn. cbn in Hn. apply in_filter_sure in Hn as [Hn _]. auto.
    + apply IH2 in H as (w & s' & new & E & L & Hk & C & G & S).
      exists w, s', new. split; [exact E|]. split; [apply lang_alt_r; exact L|].
      split; [exact Hk|]. split; [exact C|]. split.
      * eapply captured_weaken; [exact G| |auto].
        intros x Hx. cbn. apply in_or_app. right. exact Hx.
      * intros n Hn. cbn in Hn. apply in_filter_sure in Hn as [_ Hn]. auto.
  - apply (star_loop_captures ic g r1 (rmatch ic r1)) in H; [exact H|].
    eapply capture_sound_weaken; [exact IH1|]. intros n [].
  - apply IH1 in H as (w & s1 & new & E & L & Hk & C & G & S).
    exists w, (set_cap n (consumed s s1) s1), ((n, w) :: new).
    split; [exact E|]. split; [constructor; exact L|]. split; [exact Hk|].
    split; [cbn; rewrite C, (consumed_word s s1 w E); reflexivity|]. split.
    + intros n' v [Hin|Hin].
      * injection Hin as <- <-. exists r1. split; [left; reflexivity|].
        split; [exact L|apply occurs_refl].
      * destruct (G n' v Hin) as (b & Hb & Lb & Ob). exists b.
        split; [right; exact Hb|]. auto.
    + intros n' [<-|Hn].
      * exists w. left. reflexivity.
      * destruct (S n' Hn) as [v Hv]. exists v. right. exact Hv.
  - destruct (at_boundary s); [|discriminate].
    exists "", s, []. split; [reflexivity|]. split; [constructor|].
    split; [exact H|]. split; [reflexivity|].
    split; [intros n v []|intros n []].
Qed.

Lemma assoc_in n (l : list (nat * string)) v :
  In (n, v) l -> exists v', assoc n l = Some v' /\ In (n, v') l.
Proof.
  induction l as [|[m x] l IH]; intros H; [destruct H|].
  cbn [assoc]. destruct (Nat.eqb_spec m n) as [->|Hne].
  - exists x. split; [reflexivity|left; reflexivity].
  - destruct H as [H|H]; [injection H as E1 E2; subst; contradiction|].
    destruct (IH H) as (v' & E & Hin). exists v'. split; [exact E|right; exact Hin].
Qed.

Lemma match_at_captures p before s i m :
  match_at p before s i = Some m ->
  s = matched m ++ after m /\ lang (ignoreCase p) (body p) (matched m) /\
  captured (ignoreCase p) (groups_of (body p)) (matched m) (groups m) /\
  (forall n, In n (sure_groups (body p)) -> exists v, In (n, v) (groups m)).
Proof.
  unfold match_at.
  destruct (rmatch _ _ _ _) as [s1|] eqn:H; [|discriminate].
  intros E. injection E as <-. cbn [matched after groups].
  apply rmatch_captures in H as (w & s' & new & E & L & Hk & C & G & S).
  injection Hk as <-. cbn [rest caps] in E, C.
  rewrite (consumed_word (MState before s []) s' w E).
  rewrite C, app_nil_r. auto.
Qed.

Lemma search_from_captures p before s i m :
  search_from p before s i = Some m ->
  occurs (matched m) s /\ lang (ignoreCase p) (body p) (matched m) /\
  captured (ignoreCase p) (groups_of (body p)) (matched m) (groups m) /\
  (forall n, In n (sure_groups (body p)) -> exists v, In (n, v) (groups m)).
Proof.
  revert before i. induction s as [|c s IH]; intros before i H; cbn in H.
  - destruct (match_at p before "" i) as [m'|] eqn:Hm; [|discriminate].
    injection H as ->.
    apply match_at_captures in Hm as (E & L & G & S).
    split; [|auto]. exists "", (after m). exact E.
  - destruct (match_at p before (String c s) i) as [m'|] eqn:Hm.
    + injection H as ->.
      apply match_at_captures in Hm as (E & L & G & S).
      split; [|auto]. exists "", (after m). exact E.
    + apply IH in H as ((pre & post & E) & L & G & S).
      split; [|auto]. exists (String c pre), post. cbn. rewrite E. reflexivity.
Qed.

(** A group that is part of every match holds, after [exec], a word of
    its body taken from the text. *)
Lemma exec_group p text m n b :
  exec p text = Some m -> sure_group (body p) n b ->
  lang (ignoreCase p) b (group n m) /\ occurs (group n m) text.
Proof.
  unfold exec. intros H [Hsure Hone].
  apply search_from_captures in H as (Ho & _ & G & S).
  destruct (S n Hsure) as [v Hv].
  apply assoc_in in Hv as (v' & E & Hin).
  unfold group. rewrite E.
  destruct (G n v' Hin) as (b' & Hb & L & Ov).
  rewrite (Hone b' Hb) in L. split; [exact L|].
  eapply occurs_trans; eassumption.
Qed.

(** ** Words of literal alternatives and of digit runs *)

Lemma lang_Lit s v :
  lang true (Lit s) v -> JS.toLowerCase v = JS.toLowerCase s.
Proof.
  revert v. induction s as [|c s IH]; intros v H.
  - cbn in H. inversion H. reflexivity.
  - destruct s as [|d t].
    + cbn in H. inversion H as [|? x Hc| | | | | | | |]; subst.
      apply ParserFacts.char_matches_lower in Hc. cbn. rewrite Hc. reflexivity.
    + change (Lit (String c (String d t)))
        with (Seq (Chr c) (Lit (String d t))) in H.
      inversion H as [| | |? ? w1 w2 H1 H2| | | | | |]; subst.
      inversion H1 as [|? x Hc| | | | | | | |]; subst.
      apply ParserFacts.char_matches_lower in Hc.
      rewrite toLowerCase_append, (IH _ H2). cbn. rewrite Hc. reflexivity.
Qed.

Lemma lang_Alts ic rs v :
  rs <> [] -> lang ic (Alts rs) v -> exists r, In r rs /\ lang ic r v.
Proof.
  induction rs as [|r rs IH]; intros Hne H; [contradiction|].
  destruct rs as [|r' rs'].
  - exists r. split; [left; reflexivity|exact H].
  - change (Alts (r :: r' :: rs')) with (Alt r (Alts (r' :: rs'))) in H.
    inversion H; subst.
    + exists r. split; [left; reflexivity|assumption].
    + destruct IH as (r0 & Hin & L); [discriminate|assumption|].
      exists r0. split; [right; exact Hin|exact L].
Qed.

(** A word of one of the literal alternatives is one of them, up to case. *)
Lemma lang_words words v :
  words <> [] -> lang true (Alts (List.map Lit words)) v ->
  exists kw, In kw words /\ JS.toLowerCase v = JS.toLowerCase kw.
Proof.
  intros Hne H. apply lang_Alts in H as (r & Hin & L).
  - apply in_map_iff in Hin as (kw & <- & Hkw). exists kw.
    split; [exact Hkw|apply lang_Lit; exact L].
  - destruct words; [contradiction|discriminate].
Qed.

Lemma lang_digits1 ic v :
  lang ic digits1 v -> v <> "" /\ all_digits v = true.
Proof.
  intros H. unfold digits1, Plus in H.
  inversion H as [| | |? ? w1 w2 H1 H2| | | | | |]; subst.
  inversion H1 as [| |? x Hx| | | | | | |]; subst. cbn in Hx.
  split; [discriminate|]. cbn. rewrite Hx. cbn.
  clear H H1. remember (Star true (Cls Digit)) as r eqn:Er.
  induction H2; try discriminate; [reflexivity|].
  injection Er as -> ->.
  match goal with H : lang _ (Cls Digit) _ |- _ =>
    inversion H as [| |? y Hy| | | | | | |]; subst end.
  cbn in Hy |- *. rewrite Hy. cbn. apply IHlang2. reflexivity.
Qed.

Ltac solve_sure_group :=
  split;
  [ vm_compute; tauto
  | let b := fresh "b" in let Hin := fresh "Hin" in
    intros b Hin; vm_compute in Hin;
    repeat (destruct Hin as [Hin|Hin];
            [try discriminate Hin;
             try (injection Hin as <-; reflexivity)|]);
    contradiction ].

End CaptureFacts.

(** * Splitting a request into conditions *)

Module SplitFacts.
Import Regex Parser RegexFacts ParserFacts CaptureFacts.
Local Open Scope string_scope.
Local Arguments String.append : simpl nomatch.

Lemma lang_spaces1 ic v :
  lang ic spaces1 v -> v <> "" /\ all_white v = true.
Proof.
  intros H. unfold spaces1, Plus in H.
  inversion H as [| | |? ? w1 w2 H1 H2| | | | | |]; subst.
  inversion H1 as [| |? x Hx| | | | | | |]; subst. cbn in Hx.
  split; [discriminate|]. cbn. rewrite Hx. cbn.
  clear H H1. remember (Star true (Cls Space)) as r eqn:Er.
  induction H2; try discriminate; [reflexivity|].
  injection Er as -> ->.
  match goal with H : lang _ (Cls Space) _ |- _ =>
    inversion H as [| |? y Hy| | | | | | |]; subst end.
  cbn in Hy |- *. rewrite Hy. cbn. apply IHlang2. reflexivity.
Qed.

(** The words of the split pattern are the delimiters. *)
Lemma lang_conjunction w : lang true (body conjunction) w -> delimiter w.
Proof.
  intros H. cbn [body conjunction Seqs] in H.
  inversion H as [| | |? ? a w1 Ha H1| | | | | |]; subst.
  inversion H1 as [| | |? ? d b Hd Hb| | | | | |]; subst.
  apply lang_spaces1 in Ha as [Ha1 Ha2]. apply lang_spaces1 in Hb as [Hb1 Hb2].
  apply (lang_words DELIMITERS) in Hd as (kw & Hkw & E); [|discriminate].
  exists a, d, b. repeat (split; [assumption || reflexivity|]).
  rewrite E. cbn in Hkw.
  repeat (destruct Hkw as [<-|Hkw]; [vm_compute; tauto|]). contradiction.
Qed.

Lemma exec_conjunction_none text :
  (forall w, delimiter w -> ~ occurs w text) -> exec conjunction text = None.
Proof.
  intros Hno. destruct (exec conjunction text) as [m|] eqn:E; [|reflexivity].
  unfold exec in E. apply search_from_sound in E as (w & L & Hocc).
  destruct (Hno w (lang_conjunction w L) Hocc).
Qed.

(** C7. The text is split only at a delimiter that stands between white
    space ([and], [or], [,], [&], [|] in any case; a no-break space
    counts as white space); every piece is trimmed and parsed on its own
    and the pieces that parse are returned in order.  A text in which no
    such delimiter occurs gives the result of [parseAlertRequest] on the
    trimmed text.  So "Trump > 60% AND Biden < 40%" gives two conditions,
    and so does a comma between blanks, but the comma of
    "Trump > 60%, Biden < 40%" is no delimiter: the text is parsed as one
    piece and the second condition is lost.  And the piece is trimmed
    first: " >5" parses on its own and not as a request of one piece. *)
Theorem parseMultiConditionAlert_delimiters url :
  (forall text,
     parseMultiConditionAlert text url
     = filter_map (fun part => parseAlertRequest (JS.trim part) url)
         (split conjunction text)) /\
  (forall text,
     (forall w, delimiter w -> ~ occurs w text) ->
     parseMultiConditionAlert text url
     = option_to_list (parseAlertRequest (JS.trim text) url)) /\
  map summary (parseMultiConditionAlert "Trump > 60% AND Biden < 40%" url)
    = [("Yes", above, "60"); ("Yes", below, "40")] /\
  map summary (parseMultiConditionAlert "Trump > 60% , Biden < 40%" url)
    = [("Yes", above, "60"); ("Yes", below, "40")] /\
  map summary
    (parseMultiConditionAlert
       ("Trump > 60%" ++ Samples.nbsp ++ "or" ++ Samples.nbsp ++ "Biden < 40%")
       url)
    = [("Yes", above, "60"); ("Yes", below, "40")] /\
  split conjunction "Trump > 60%, Biden < 40%" = ["Trump > 60%, Biden < 40%"] /\
  map summary (parseMultiConditionAlert "Trump > 60%, Biden < 40%" url)
    = [("Yes", above, "60")] /\
  option_map summary (parseAlertRequest " >5" url) = Some ("Yes", above, "5") /\
  parseMultiConditionAlert " >5" url = [].
Proof.
  assert (E : forall t,
            parseMultiConditionAlert t url
            = filter_map (fun part => parseAlertRequest (JS.trim part) url)
                (split conjunction t)).
  { intros t. unfold parseMultiConditionAlert.
    apply (collect_filter_map
             (fun part => parseAlertRequest (JS.trim part) url) _ []). }
  split; [exact E|]. split.
  - intros text Hno.
    rewrite E, (split_no_match _ _ (exec_conjunction_none text Hno)). cbn.
    destruct (parseAlertRequest (JS.trim text) url); reflexivity.
  - repeat split; vm_compute; reflexivity.
Qed.

End SplitFacts.

(** * Properties of the first parser *)

Module LegacyFacts.
Import Regex Parser Captures ParserVocabulary Globals RegexFacts CaptureFacts.
Local Open Scope string_scope.
Local Arguments String.append : simpl nomatch.

Lemma span_digits_whole v : all_digits v = true -> span_digits v = (v, "").
Proof.
  induction v as [|c v IH]; cbn; [reflexivity|].
  intros H. apply andb_prop in H as [Hc Hv]. rewrite Hc, (IH Hv). reflexivity.
Qed.

(** [parseInt] reads a run of digits whole. *)
Lemma mathInt_all_digits v :
  v <> "" -> all_digits v = true ->
  mathInt v = Some (digits_value 0 v) /\ 0 <= digits_value 0 v.
Proof.
  intros Hne Hd. split; [|apply ParserMoreFacts.digits_value_nonneg; [exact Hd|lia]].
  destruct v as [|c t]; [contradiction|].
  pose proof Hd as Hd'. cbn in Hd'. apply andb_prop in Hd' as [Hc Ht].
  unfold mathInt.
  assert (Hw : JS.trimStart (String c t) = String c t).
  { cbn. rewrite (GlobalsFacts.digit_not_white c Hc). reflexivity. }
  rewrite Hw.
  assert (Hsign : match String c t with
                  | String "-" t' => (-1, t')
                  | String "+" t' => (1, t')
                  | _ => (1, String c t)
                  end = (1, String c t)).
  { destruct c as [[] [] [] [] [] [] [] []]; try reflexivity; discriminate. }
  rewrite Hsign.
  assert (Hhex : match String c t with
                 | String "0" (String "x" t') => (true, t')
                 | String "0" (String "X" t') => (true, t')
                 | _ => (false, String c t)
                 end = (false, String c t)).
  { destruct t as [|d t']; [destruct c as [[] [] [] [] [] [] [] []]; reflexivity|].
    cbn in Ht. apply andb_prop in Ht as [Hd1 _].
    destruct d as [[] [] [] [] [] [] [] []]; try discriminate Hd1;
      destruct c as [[] [] [] [] [] [] [] []]; reflexivity. }
  rewrite Hhex. rewrite (span_digits_whole _ Hd). cbn [fst].
  rewrite Z.mul_1_l. reflexivity.
Qed.

Lemma parseInt_all_digits v :
  v <> "" -> all_digits v = true ->
  parseInt v = Double.of_Z (digits_value 0 v) /\ 0 <= digits_value 0 v.
Proof.
  intros Hne Hd. destruct (mathInt_all_digits v Hne Hd) as [E Hpos].
  split; [|exact Hpos]. unfold parseInt. rewrite E.
  destruct (digits_value 0 v) as [|p|p] eqn:Ev; [|reflexivity|reflexivity].
  unfold negative_sign. destruct v as [|c t]; [contradiction|].
  cbn in Hd. apply andb_prop in Hd as [Hc _].
  cbn. rewrite (GlobalsFacts.digit_not_white c Hc).
  destruct c as [[] [] [] [] [] [] [] []]; try reflexivity; discriminate.
Qed.

Lemma isAbove_lower v kw :
  JS.toLowerCase v = JS.toLowerCase kw -> Legacy.isAbove v = Legacy.isAbove kw.
Proof.
  intros E. unfold Legacy.isAbove. rewrite E. reflexivity.
Qed.

Lemma legacy_match p words d request m :
  exec p request = Some m -> words <> [] ->
  sure_group (body p) 2 (Alts (List.map Lit words)) ->
  sure_group (body p) 3 digits1 -> ignoreCase p = true ->
  (forall kw, In kw words ->
     JS.toLowerCase kw = kw /\ In kw (Legacy.direction_words d) /\
     (if Legacy.isAbove kw then above else below) = d) ->
  (exists v, occurs v request /\ v <> "" /\ all_digits v = true /\
     Globals.parseInt (group 3 m) = Double.of_Z (digits_value 0 v) /\
     0 <= digits_value 0 v) /\
  (if Legacy.isAbove (group 2 m) then above else below) = d /\
  mentions (Legacy.direction_words d) request.
Proof.
  intros Hm Hne H2 H3 Hic Hw.
  destruct (exec_group p request m 2 _ Hm H2) as [L2 O2].
  destruct (exec_group p request m 3 _ Hm H3) as [L3 O3].
  rewrite Hic in L2.
  apply lang_words in L2 as (kw & Hkw & E); [|exact Hne].
  destruct (Hw kw Hkw) as (Elow & Hin & Hd).
  apply lang_digits1 in L3 as [Hne3 Hd3].
  destruct (parseInt_all_digits _ Hne3 Hd3) as [Ep Hpos].
  split; [exists (group 3 m); auto|].
  split; [rewrite (isAbove_lower _ kw E); exact Hd|].
  exists kw. split; [exact Hin|].
  destruct O2 as (pre & post & ->).
  rewrite !toLowerCase_append, E, Elow.
  exists (JS.toLowerCase pre), (JS.toLowerCase post). reflexivity.
Qed.

Ltac words_case :=
  let kw := fresh "kw" in let H := fresh "H" in
  intros kw H; cbn in H;
  repeat (destruct H as [H|H]; [subst kw; vm_compute; tauto|]);
  contradiction.

Lemma legacy_parse_loop ps request url c :
  Legacy.parse_loop ps request url = Some c ->
  exists p m,
    In p ps /\ exec p request = Some m /\
    c = {| Legacy.Config.marketId := "";
           Legacy.Config.outcome := "Yes";
           Legacy.Config.threshold := Globals.parseInt (group 3 m);
           Legacy.Config.direction :=
             if Legacy.isAbove (group 2 m) then above else below;
           Legacy.Config.notifyUrl := url |}.
Proof.
  induction ps as [|p ps IH]; [discriminate|]. cbn [Legacy.parse_loop].
  destruct (exec p request) as [m|] eqn:Hm.
  - intros E. injection E as <-. exists p, m.
    split; [left; reflexivity|]. split; [exact Hm|reflexivity].
  - intros H. destruct (IH H) as (p' & m & Hin & Hm' & E).
    exists p', m. split; [right; exact Hin|]. split; assumption.
Qed.

(** X17. The first parser answers only on one of its three sentence
    shapes: the alert is for "Yes" on a market still to be found; its
    threshold is the double nearest to the whole number that a run of
    decimal digits of the request writes, a number (never NaN) that is
    not negative; and the request holds a word of the direction it
    answers. *)
Theorem legacy_alert_shape request url c :
  Legacy.parseAlertRequest request url = Some c ->
  Legacy.Config.marketId c = "" /\ Legacy.Config.outcome c = "Yes" /\
  Legacy.Config.notifyUrl c = url /\
  (exists v, occurs v request /\ v <> "" /\ all_digits v = true /\
     Legacy.Config.threshold c = Double.of_Z (digits_value 0 v)) /\
  Double.geb (Legacy.Config.threshold c) Double.zero = true /\
  mentions (Legacy.direction_words (Legacy.Config.direction c)) request.
Proof.
  intros H. apply legacy_parse_loop in H as (p & m & Hin & Hm & ->).
  cbn [Legacy.Config.marketId Legacy.Config.outcome Legacy.Config.notifyUrl
       Legacy.Config.threshold Legacy.Config.direction].
  assert (Hcase : exists d,
    (exists v, occurs v request /\ v <> "" /\ all_digits v = true /\
       Globals.parseInt (group 3 m) = Double.of_Z (digits_value 0 v) /\
       0 <= digits_value 0 v) /\
    (if Legacy.isAbove (group 2 m) then above else below) = d /\
    mentions (Legacy.direction_words d) request).
  { destruct Hin as [<-|[<-|[<-|[]]]].
    - exists above.
      apply (legacy_match _ Legacy.EXCEED_WORDS above request m Hm);
        [discriminate|solve_sure_group|solve_sure_group|reflexivity|words_case].
    - exists below.
      apply (legacy_match _ Legacy.BELOW_WORDS below request m Hm);
        [discriminate|solve_sure_group|solve_sure_group|reflexivity|words_case].
    - exists above.
      apply (legacy_match _ Legacy.REACH_WORDS above request m Hm);
        [discriminate|solve_sure_group|solve_sure_group|reflexivity|words_case]. }
  destruct Hcase as (d & (v & Ho & Hne & Hd & Ev & Hpos) & Hdir & Hmen).
  rewrite Hdir, Ev. repeat (split; [reflexivity|]).
  split; [exists v; auto|].
  split; [apply DoubleFacts.of_Z_nonneg; exact Hpos|exact Hmen].
Qed.

Lemma legacy_alert_shape_witness :
  exists c,
    Legacy.parseAlertRequest "Alert me when Trump election odds fall below 60.5%"
      "https://example.com/hook" = Some c /\
    Legacy.Config.direction c = below /\
    Legacy.Config.threshold c = Double.of_Z 60 /\
    Double.geb (Legacy.Config.threshold c) Double.zero = true /\
    mentions (Legacy.direction_words below)
      "Alert me when Trump election odds fall below 60.5%".
Proof.
  eexists. split; [vm_compute; reflexivity|].
  split; [reflexivity|]. split; [vm_compute; reflexivity|].
  exact (proj2 (proj2 (proj2 (proj2
    (legacy_alert_shape "Alert me when Trump election odds fall below 60.5%"
       "https://example.com/hook" _ eq_refl))))).
Defined.

(** From 309 digits on the threshold is an infinity. *)
Example legacy_threshold_infinite :
  option_map Legacy.Config.threshold
    (Legacy.parseAlertRequest
       ("if BTC hits " ++ Samples.nines 309 ++ "%") "")
  = Some (S754_infinity false) /\
  option_map Legacy.Config.threshold
    (Legacy.parseAlertRequest
       ("if BTC hits " ++ Samples.nines 308 ++ "%") "")
  = Some (Double.of_Z (10 ^ 308 - 1)).
Proof. vm_compute. split; reflexivity. Qed.

End LegacyFacts.

(** * The thresholds that the patterns capture *)

Module ParserCaptureFacts.
Import Regex Parser Captures ParserVocabulary RegexFacts CaptureFacts.
Local Open Scope string_scope.
Local Arguments String.append : simpl nomatch.

Lemma decimal_starts_digit ic v :
  lang ic (Seq digits1 (Opt (Seq (Chr ".") digits1))) v ->
  exists c t, v = String c t /\ JS.is_digit c = true.
Proof.
  intros H. inversion H as [| | |? ? w1 w2 H1 H2| | | | | |]; subst.
  apply lang_digits1 in H1 as [Hne Hd].
  destruct w1 as [|c t]; [contradiction|].
  cbn in Hd. apply andb_prop in Hd as [Hc _].
  exists c, (t ++ w2). split; [reflexivity|exact Hc].
Qed.

Lemma parseFloat_digit c t :
  JS.is_digit c = true -> exists x, parseFloat (String c t) = Some x.
Proof.
  intros Hc. unfold parseFloat. cbn [span_digits]. rewrite Hc.
  destruct (span_digits t) as [d r]. eexists. reflexivity.
Qed.

Lemma threshold_group pp :
  In pp patterns ->
  sure_group (body (regex_of pp)) 3 (Seq digits1 (Opt (Seq (Chr ".") digits1))) /\
  forall m, p_threshold (extractor pp m) = parseFloat (group 3 m).
Proof.
  intros Hin. destruct Hin as [<-|[<-|[<-|[<-|[]]]]];
    (split; [solve_sure_group|reflexivity]).
Qed.

Lemma threshold_decimal pp request m :
  In pp patterns -> exec (regex_of pp) request = Some m ->
  occurs (group 3 m) request /\
  exists c t, group 3 m = String c t /\ JS.is_digit c = true.
Proof.
  intros Hin Hm. destruct (threshold_group pp Hin) as [Hg _].
  destruct (exec_group _ request m 3 _ Hm Hg) as [L O].
  split; [exact O|]. apply (decimal_starts_digit _ _ L).
Qed.

Lemma threshold_defined pp request m :
  In pp patterns -> exec (regex_of pp) request = Some m ->
  exists x, p_threshold (extractor pp m) = Some x.
Proof.
  intros Hin Hm.
  destruct (threshold_decimal pp request m Hin Hm) as (_ & c & t & E & Hc).
  destruct (threshold_group pp Hin) as [_ Hth]. rewrite Hth, E.
  apply parseFloat_digit, Hc.
Qed.

(** X18. Whenever one of the four patterns matches, its third group is a
    part of the request that starts with a decimal digit, and the threshold
    read from it is a number (never NaN) that is not negative. *)
Theorem pattern_threshold_read pp request m :
  In pp patterns -> exec (regex_of pp) request = Some m ->
  occurs (group 3 m) request /\
  (exists c t, group 3 m = String c t /\ JS.is_digit c = true) /\
  exists x, p_threshold (extractor pp m) = Some x /\ 0 <= mantissa x.
Proof.
  intros Hin Hm.
  destruct (threshold_decimal pp request m Hin Hm) as (O & c & t & E & Hc).
  split; [exact O|]. split; [exists c, t; split; [exact E|exact Hc]|].
  destruct (threshold_group pp Hin) as [_ Hth]. rewrite Hth, E.
  destruct (parseFloat_digit c t Hc) as [x Hx]. exists x.
  split; [exact Hx|].
  apply (ParserMoreFacts.parseFloat_nonneg _ _ Hx).
Qed.

Lemma pattern_threshold_read_witness :
  exists pp m,
    In pp patterns /\
    exec (regex_of pp) "when BTC odds exceed 60.5 percent" = Some m /\
    occurs (group 3 m) "when BTC odds exceed 60.5 percent" /\
    group 3 m = "60.5" /\
    p_threshold (extractor pp m) = Some (Num 605 1).
Proof.
  eexists. eexists. split; [left; reflexivity|].
  split; [vm_compute; reflexivity|].
  split; [|split; vm_compute; reflexivity].
  exact (proj1 (pattern_threshold_read _ "when BTC odds exceed 60.5 percent" _
                  (or_introl eq_refl) eq_refl)).
Defined.

Lemma parse_loop_reaches ps pp request url m :
  (forall q, In q ps -> In q patterns) ->
  In pp ps -> exec (regex_of pp) request = Some m ->
  p_direction (extractor pp m) <> None ->
  exists c, parse_loop ps request url = Some c.
Proof.
  induction ps as [|q ps IH]; intros Hsub Hin Hm Hd; [destruct Hin|].
  cbn [parse_loop].
  destruct (exec (regex_of q) request) as [m'|] eqn:Hq.
  - destruct (threshold_defined q request m') as (x & Hx).
    + apply Hsub. left. reflexivity.
    + exact Hq.
    + rewrite Hx.
      destruct (p_direction (extractor q m')) as [d|] eqn:Hdq.
      * eexists. reflexivity.
      * destruct Hin as [->|Hin].
        -- rewrite Hm in Hq. injection Hq as <-. contradiction.
        -- apply IH; auto. intros q' Hq'. apply Hsub. right. exact Hq'.
  - destruct Hin as [->|Hin]; [rewrite Hm in Hq; discriminate|].
    apply IH; auto. intros q' Hq'. apply Hsub. right. exact Hq'.
Qed.

(** X19. A request in which the comparison pattern ([X > Y%]) or the
    simple pattern ([X hits Y%]) finds a match is always parsed: these two
    patterns set a direction themselves, and an earlier pattern that
    matches without a direction word is passed over. *)
Theorem direct_patterns_always_parse pp request url :
  nth_error patterns 2 = Some pp \/ nth_error patterns 3 = Some pp ->
  test (regex_of pp) request = true ->
  exists c, parseAlertRequest request url = Some c.
Proof.
  intros Hpp Ht. unfold test in Ht.
  destruct (exec (regex_of pp) request) as [m|] eqn:Hm; [|discriminate].
  assert (Hc : exists c, parse_loop patterns request url = Some c).
  { apply (parse_loop_reaches patterns pp request url m); auto.
    - destruct Hpp as [E|E]; cbn in E; injection E as <-; cbn; auto.
    - destruct Hpp as [E|E]; cbn in E; injection E as <-; discriminate. }
  destruct Hc as [c Hc]. exists c. unfold parseAlertRequest.
  rewrite Hc. reflexivity.
Qed.

Lemma direct_patterns_always_parse_witness :
  exists pp c,
    nth_error patterns 2 = Some pp /\
    test (regex_of pp) "Thunder win<25" = true /\
    parseAlertRequest "Thunder win<25" "https://example.com/hook" = Some c.
Proof.
  eexists. 
  destruct (direct_patterns_always_parse _ "Thunder win<25"
              "https://example.com/hook" (or_introl eq_refl) eq_refl) as [c Hc].
  exists c. split; [reflexivity|]. split; [reflexivity|exact Hc].
Defined.


End ParserCaptureFacts.
